(** * YouTube video summarizer extension: the summarization client, the
      result cache and the coordinator

    A shallow embedding of [GeminiService] (services/gemini), [CacheService]
    (services/cache) and [BackgroundService] (background.ts).

    Conventions.
    - A JavaScript string is a [string]; one character stands for one code
      unit, so [String.length] is the [.length] of the source.  The strings
      covered are those over the code units below 256.
    - Epoch milliseconds ([Date.now()]) and delays are integers in [Z].
    - [chrome.storage.local] is a finite map from keys to entries; its
      promises are taken to resolve.
    - Each place where the source awaits the outside world (a [fetch], the
      model's answer, another request being served in between) is an
      explicit input of the model. *)

From Stdlib Require Import ZArith Ascii String List Bool Lia Sorted.
From Stdlib Require Import DecimalString.
From stdpp Require Import base decidable option list gmap strings.
Import ListNotations.

Local Open Scope Z_scope.

(** ** JavaScript string primitives used by the services *)

Module JS.

Definition space : ascii := " "%char.
Definition newline : ascii := "010"%char.
Definition nl : string := String newline "".

(** [s.split(c)] for a one-character separator: always at least one piece,
    and empty pieces are kept. *)
Fixpoint split (sep : ascii) (s : string) : list string :=
  match s with
  | "" => [""]
  | String c s' =>
      if Ascii.eqb c sep then "" :: split sep s'
      else match split sep s' with
           | [] => [String c ""]
           | w :: ws => String c w :: ws
           end
  end.

(** [pieces.join(sep)]. *)
Definition join (sep : string) (pieces : list string) : string :=
  String.concat sep pieces.

(** [s.includes(c)] for a one-character needle. *)
Fixpoint includes (s : string) (c : ascii) : bool :=
  match s with
  | "" => false
  | String x s' => Ascii.eqb x c || includes s' c
  end.

(** [s.startsWith(p)]. *)
Definition startsWith (s p : string) : bool := String.prefix p s.

(** White space as [trim] sees it, among the code units below 256: tab,
    line feed, vertical tab, form feed, carriage return, space, and the
    no-break space U+00A0. *)
Definition is_ws (c : ascii) : bool :=
  Ascii.is_space c || Ascii.eqb c "160".

Fixpoint trimStart (s : string) : string :=
  match s with
  | "" => ""
  | String c s' => if is_ws c then trimStart s' else s
  end.

Fixpoint trimEnd (s : string) : string :=
  match s with
  | "" => ""
  | String c s' =>
      match trimEnd s' with
      | "" => if is_ws c then "" else String c ""
      | r => String c r
      end
  end.

Definition trim (s : string) : string := trimEnd (trimStart s).

End JS.

(** ** GeminiService: chunking *)

Module Chunking.

(** The loop state of [splitIntoChunks]: the chunks pushed so far and the
    words of the chunk being filled. *)
Record LoopState := { chunks : list string; currentChunk : list string }.

(** One iteration of [for (const word of words)]. *)
Definition step (maxChunkLength : nat) (st : LoopState) (word : string)
  : LoopState :=
  if (maxChunkLength <? String.length (JS.join " " (currentChunk st))
                        + String.length word)%nat
  then {| chunks := chunks st ++ [JS.join " " (currentChunk st)];
          currentChunk := [word] |}
  else {| chunks := chunks st; currentChunk := currentChunk st ++ [word] |}.

Definition splitIntoChunks (text : string) (maxChunkLength : nat)
  : list string :=
  let words := JS.split JS.space text in
  let st := fold_left (step maxChunkLength) words
              {| chunks := []; currentChunk := [] |} in
  if (0 <? List.length (currentChunk st))%nat
  then chunks st ++ [JS.join " " (currentChunk st)]
  else chunks st.

(** The two halves of the chunking contract, as predicates on an output. *)
Definition single_long_word (maxChunkLength : nat) (chunk : string) : Prop :=
  List.length (JS.split JS.space chunk) = 1%nat
  ∧ (maxChunkLength < String.length chunk)%nat.

Definition chunks_bounded (maxChunkLength : nat) (cs : list string) : Prop :=
  ∀ chunk, In chunk cs →
    (String.length chunk ≤ maxChunkLength)%nat
    ∨ single_long_word maxChunkLength chunk.

Definition chunks_rejoin (text : string) (cs : list string) : Prop :=
  JS.join " " cs = text.

(** What the loop guarantees about sizes: a chunk is empty, or one of the
    words, or at most one character over the limit. *)
Definition within_slack (maxChunkLength : nat) (words : list string)
    (chunk : string) : Prop :=
  (String.length chunk ≤ S maxChunkLength)%nat ∨ In chunk words.

End Chunking.


(** ** GeminiService: the single-call summarizer with retry *)

Module Gemini.

Definition MAX_RETRIES : nat := 3.
Definition INITIAL_RETRY_DELAY : Z := 1000.

(** What the code looks at in a response body: whether [response.json()]
    resolves, [errorData.error?.message], and
    [data.candidates?.[0]?.content?.parts?.[0]?.text]. *)
Record Body := {
  parses : bool;
  error_message : option string;
  candidate_text : option string
}.

(** How one [fetch] of the generateContent endpoint settles. *)
Inductive FetchOutcome :=
| NetworkFailure (message : string)
| Response (status : Z) (body : Body).

(** [response.ok]. *)
Definition ok (status : Z) : bool := (200 <=? status) && (status <=? 299).

(** JavaScript truthiness of an optional string: [undefined] and the empty
    string are falsy. *)
Definition truthy (o : option string) : option string :=
  match o with
  | Some "" => None
  | _ => o
  end.

(** What the caller of [summarizeChunkWithRetry] can observe from outside:
    every [fetch] issued and every back-off timer awaited, in order. *)
Inductive Effect :=
| Fetch (attempt : nat)
| Wait (ms : Z).

Record Run := { result : option string; trace : list Effect }.

Definition after (es : list Effect) (r : Run) : Run :=
  {| result := result r; trace := es ++ trace r |}.

(** How the [try] block of one invocation ends. *)
Inductive TryOutcome :=
| Returned (text : string)
| RateLimitRetry
| Thrown (message : string).

(** [INITIAL_RETRY_DELAY * Math.pow(2, attempt - 1)].  Attempts count from
    1; at 0 the power would be one half. *)
Definition backoff (attempt : nat) : Z :=
  match attempt with
  | O => INITIAL_RETRY_DELAY / 2
  | S k => INITIAL_RETRY_DELAY * 2 ^ Z.of_nat k
  end.

Section WithServer.

(** [model_ready]: [this.model] is set, so the [apiEndpoint] getter does
    not throw.  [server n]: how the fetch of attempt [n] settles. *)
Variable model_ready : bool.
Variable server : nat → FetchOutcome.

(** The [try] block, from the fetch to the [return]. *)
Definition try_block (attempt : nat) : TryOutcome :=
  if negb model_ready then Thrown "Model not initialized" else
  match server attempt with
  | NetworkFailure message => Thrown message
  | Response status body =>
      if negb (ok status) then
        if negb (parses body) then Thrown "Unexpected token" else
        if status =? 429 then
          if (attempt <? MAX_RETRIES)%nat then RateLimitRetry
          else Thrown "Rate limit exceeded. Please try again later."
        else
          Thrown (default "Failed to generate summary"
                    (truthy (error_message body)))
      else
        if negb (parses body) then Thrown "Unexpected token" else
        match truthy (candidate_text body) with
        | None => Thrown "Invalid response format from API"
        | Some text => Returned text
        end
  end.

(** The fetch is issued only when the endpoint getter did not throw. *)
Definition fetched (attempt : nat) : list Effect :=
  if model_ready then [Fetch attempt] else [].

(** The recursion of [summarizeChunkWithRetry], with the [catch] block;
    [fuel] bounds the depth of the self-invocation. *)
Fixpoint retry (fuel : nat) (attempt : nat) : option Run :=
  match fuel with
  | O => None
  | S fuel' =>
      match try_block attempt with
      | Returned text =>
          Some {| result := Some text; trace := fetched attempt |}
      | RateLimitRetry =>
          after (fetched attempt ++ [Wait (backoff attempt)])
            <$> retry fuel' (S attempt)
      | Thrown _ =>
          if (attempt <? MAX_RETRIES)%nat then
            after (fetched attempt ++ [Wait (backoff attempt)])
              <$> retry fuel' (S attempt)
          else Some {| result := None; trace := fetched attempt |}
      end
  end.

(** [summarizeChunkWithRetry(text, attempt)]: the text and the prompt do
    not influence the control flow and are left out. *)
Definition summarizeChunkWithRetry (attempt : nat) : option Run :=
  retry (S (MAX_RETRIES - attempt)) attempt.

End WithServer.

(** Classification of responses used by the statements below. *)
Definition status_of (r : FetchOutcome) : option Z :=
  match r with
  | NetworkFailure _ => None
  | Response status _ => Some status
  end.

(** A successful response whose body lacks the generated text. *)
Definition malformed (r : FetchOutcome) : Prop :=
  ∃ status body, r = Response status body ∧ ok status = true
    ∧ parses body = true ∧ truthy (candidate_text body) = None.

Definition waits (es : list Effect) : list Z :=
  omap (λ e, match e with Wait ms => Some ms | Fetch _ => None end) es.

Definition fetches (es : list Effect) : list nat :=
  omap (λ e, match e with Fetch n => Some n | Wait _ => None end) es.

End Gemini.

(** ** Shared types (types/index.ts) *)

Module Types.

Record Summary := {
  id : string;
  videoId : string;
  content : string;
  language : string;
  timestamp : Z;
  keyPoints : list string;
  topics : list string
}.

Record APIResponse (T : Type) := {
  success : bool;
  data : option T;
  error : option string
}.
Arguments success {T} _.
Arguments data {T} _.
Arguments error {T} _.

Definition succeed {T} (value : T) : APIResponse T :=
  {| success := true; data := Some value; error := None |}.

Definition fail {T} (message : string) : APIResponse T :=
  {| success := false; data := None; error := Some message |}.

End Types.

(** ** CacheService over [chrome.storage.local] *)

Module Cache.

Definition SUMMARY_PREFIX : string := "summary_".
Definition CACHE_PREFIX : string := "yt_summary_".
Definition CACHE_DURATION : Z := 7 * 24 * 60 * 60 * 1000.

(** A stored entry.  The [timestamp] field of the declared type is never
    read by the service and [setSummary] does not write it. *)
Record CacheEntry := { data : Types.Summary; expiresAt : Z }.

Abbreviation Store := (gmap string CacheEntry).

(** [remove(key)]: [chrome.storage.local.remove(key)]. *)
Definition remove (key : string) (store : Store) : Store := delete key store.

(** [getSummary(videoId)] evaluated when the clock reads [now]: the value
    returned and the store it leaves behind. *)
Definition getSummary (videoId : string) (now : Z) (store : Store)
  : option Types.Summary * Store :=
  let key := CACHE_PREFIX +:+ videoId in
  match store !! key with
  | None => (None, store)
  | Some entry =>
      if expiresAt entry <? now then (None, remove key store)
      else (Some (data entry), store)
  end.

(** [setSummary(videoId, summary)] evaluated when the clock reads [now]. *)
Definition setSummary (videoId : string) (summary : Types.Summary) (now : Z)
    (store : Store) : Store :=
  <[CACHE_PREFIX +:+ videoId :=
      {| data := summary; expiresAt := now + CACHE_DURATION |}]> store.

Definition removeSummary (videoId : string) (store : Store) : Store :=
  remove (SUMMARY_PREFIX +:+ videoId) store.

(** [summaries.sort((a, b) => b.timestamp - a.timestamp)]: a stable sort,
    newest first. *)
Fixpoint insert_newest_first (s : Types.Summary) (l : list Types.Summary)
  : list Types.Summary :=
  match l with
  | [] => [s]
  | x :: l' =>
      if Types.timestamp x <? Types.timestamp s then s :: l
      else x :: insert_newest_first s l'
  end.

Definition sort_newest_first (l : list Types.Summary) : list Types.Summary :=
  foldl (λ acc s, insert_newest_first s acc) [] l.

(** One iteration of the loop of [getAllSummaries] over
    [Object.entries(data)].  The loop reads [Date.now()] anew for every
    entry it tests, and awaits a [remove] in between, so the clock moves
    during the loop; every key is tested once, hence the readings are a
    function of the key: [clock k] is what [Date.now()] gives when the entry
    under [k] is tested. *)
Definition visit (clock : string → Z) (acc : list Types.Summary * Store)
    (kv : string * CacheEntry) : list Types.Summary * Store :=
  if JS.startsWith kv.1 SUMMARY_PREFIX then
    if clock kv.1 <? expiresAt kv.2 then (acc.1 ++ [data kv.2], acc.2)
    else (acc.1, remove kv.1 acc.2)
  else acc.

(** The entries whose data [getAllSummaries] collects. *)
Definition listed (clock : string → Z) (kv : string * CacheEntry) : bool :=
  JS.startsWith kv.1 SUMMARY_PREFIX && (clock kv.1 <? expiresAt kv.2).

(** [getAllSummaries()]: the listing and the store it leaves behind.  The
    entries are those of the snapshot taken by [chrome.storage.local.get]. *)
Definition getAllSummaries (clock : string → Z) (store : Store)
  : list Types.Summary * Store :=
  let acc := foldl (visit clock) ([], store) (map_to_list store) in
  (sort_newest_first acc.1, acc.2).

(** The test of the [forEach] callback of [cleanup]. *)
Definition to_remove (now : Z) (kv : string * CacheEntry) : bool :=
  JS.startsWith kv.1 CACHE_PREFIX && (expiresAt kv.2 <? now).

Definition keysToRemove (now : Z) (store : Store) : list string :=
  (filter (λ kv, to_remove now kv) (map_to_list store)).*1.

(** [cleanup()] evaluated when the clock reads [now];
    [chrome.storage.local.remove(keysToRemove)] removes each listed key. *)
Definition cleanup (now : Z) (store : Store) : Store :=
  let keys := keysToRemove now store in
  if (0 <? length keys)%nat then foldr delete store keys else store.

(** An entry has expired once its [expiresAt] has passed. *)
Definition expired (now : Z) (entry : CacheEntry) : Prop :=
  expiresAt entry < now.

End Cache.

(** ** BackgroundService: export *)

Module Exporter.

Import Types.

Section WithLocale.

(** [new Date(ms).toLocaleString()] depends on the host's locale. *)
Variable toLocaleString : Z → string.

Definition bullet (point : string) : string := "* " +:+ point.
Definition code (topic : string) : string := "`" +:+ topic +:+ "`".

Definition exportAsMarkdown (summary : Summary) : string :=
  JS.trim
    (JS.nl +:+ "# Video Summary" +:+ JS.nl
     +:+ JS.nl +:+ "## Metadata" +:+ JS.nl
     +:+ "- **Video ID**: " +:+ videoId summary +:+ JS.nl
     +:+ "- **Generated**: " +:+ toLocaleString (timestamp summary)
     +:+ JS.nl
     +:+ JS.nl +:+ "## Key Points" +:+ JS.nl
     +:+ JS.join JS.nl (bullet <$> keyPoints summary) +:+ JS.nl
     +:+ JS.nl +:+ "## Topics" +:+ JS.nl
     +:+ JS.join " " (code <$> topics summary) +:+ JS.nl
     +:+ JS.nl +:+ "## Full Summary" +:+ JS.nl
     +:+ content summary +:+ JS.nl
     +:+ "    ").

(** [exportAsText] starts each key point with the bullet U+2022.  That
    code unit lies above 255, outside the strings of this development, so
    the text export is not embedded: what it gives is a parameter of
    [handleExportSummary], which reads it for every format other than
    "markdown". *)
Variable exportAsText : Summary → string.

Definition handleExportSummary (summary : Summary) (format : string)
  : APIResponse string :=
  succeed (if decide (format = "markdown")
           then exportAsMarkdown summary
           else exportAsText summary).

(** The text of the export that precedes the key points section. *)
Definition preamble (summary : Summary) : string :=
  "# Video Summary" +:+ JS.nl
  +:+ JS.nl +:+ "## Metadata" +:+ JS.nl
  +:+ "- **Video ID**: " +:+ videoId summary +:+ JS.nl
  +:+ "- **Generated**: " +:+ toLocaleString (timestamp summary) +:+ JS.nl
  +:+ JS.nl.

End WithLocale.

End Exporter.

(** ** Reading a markdown text *)

Module Markdown.

(** The inline-code spans among the pieces between backticks: what stands
    between the first and the second backtick, the third and the fourth,
    and so on; a backtick without a partner opens no span. *)
Fixpoint spans_of (pieces : list string) : list string :=
  match pieces with
  | _ :: inside :: ((_ :: _) as rest) => inside :: spans_of rest
  | _ => []
  end.

Definition code_spans (text : string) : list string :=
  spans_of (JS.split "`" text).

End Markdown.


(** ** BackgroundService: the coordinator of summarization requests

    [handleSummarizeVideo] is an async function; between two of its [await]s
    the background context serves other messages.  A request is therefore a
    record of where it is suspended, and the service is a machine whose
    events are the arrival of a message and the settling of an awaited
    promise. *)

Module Coordinator.

(** How an awaited promise settles. *)
Inductive Outcome (A : Type) :=
| Fulfilled (value : A)
| Rejected (message : string).
Arguments Fulfilled {A} _.
Arguments Rejected {A} _.

(** The [await] at which a call of [handleSummarizeVideo] is suspended. *)
Inductive Stage :=
| AwaitApiKey
| AwaitCacheRead
| AwaitSummarize
| AwaitCacheWrite (result : Types.APIResponse Types.Summary)
| Resolved (response : Types.APIResponse Types.Summary).

Record Request := { videoId : string; stage : Stage }.

(** Calls made on the [processingVideos] set. *)
Inductive SetOp :=
| Add (videoId : string)
| Delete (videoId : string).

(** The service: its set, the persistent store, the calls of
    [handleSummarizeVideo] made so far (a request is named by its position),
    and two journals: the invocations of [gemini.summarize] and the calls on
    the set, each with the request that made it. *)
Record State := {
  processingVideos : gset string;
  store : gmap string Cache.CacheEntry;
  requests : list Request;
  summarizeCalls : list (nat * string);
  setOps : list (nat * SetOp)
}.

Definition init (store : gmap string Cache.CacheEntry) : State :=
  {| processingVideos := ∅; store := store; requests := [];
     summarizeCalls := []; setOps := [] |}.

(** What settles, seen from the suspended request. *)
Inductive Input :=
| ApiKeyRead (o : Outcome (option string))
| CacheRead (now : Z)
| Summarized (o : Outcome (Types.APIResponse Types.Summary))
| CacheWritten (now : Z) (o : Outcome unit).

Inductive Event :=
| Issue (videoId : string)
| Resume (r : nat) (input : Input).

(** Request [r] moves to stage [s]; nothing else changes. *)
Definition suspend (r : nat) (v : string) (s : Stage) (st : State) : State :=
  {| processingVideos := processingVideos st; store := store st;
     requests := <[r := {| videoId := v; stage := s |}]> (requests st);
     summarizeCalls := summarizeCalls st; setOps := setOps st |}.

Definition with_store (store' : gmap string Cache.CacheEntry) (st : State)
  : State :=
  {| processingVideos := processingVideos st; store := store';
     requests := requests st; summarizeCalls := summarizeCalls st;
     setOps := setOps st |}.

(** [this.processingVideos.add(videoId)] followed by the call of
    [this.gemini.summarize]. *)
Definition acquire (r : nat) (v : string) (st : State) : State :=
  {| processingVideos := {[v]} ∪ processingVideos st; store := store st;
     requests := <[r := {| videoId := v; stage := AwaitSummarize |}]>
                   (requests st);
     summarizeCalls := summarizeCalls st ++ [(r, v)];
     setOps := setOps st ++ [(r, Add v)] |}.

(** The [finally] block, then the function returns [response]. *)
Definition release (r : nat) (v : string) (response : Types.APIResponse Types.Summary)
    (st : State) : State :=
  {| processingVideos := processingVideos st ∖ {[v]}; store := store st;
     requests := <[r := {| videoId := v; stage := Resolved response |}]>
                   (requests st);
     summarizeCalls := summarizeCalls st;
     setOps := setOps st ++ [(r, Delete v)] |}.

(** [handleSummarizeVideo] from the [await] where request [r] is suspended
    to its next [await] or to its return. *)
Definition resume (r : nat) (req : Request) (input : Input) (st : State)
  : State :=
  let v := videoId req in
  match stage req, input with
  | AwaitApiKey, ApiKeyRead (Rejected message) =>
      suspend r v (Resolved (Types.fail message)) st
  | AwaitApiKey, ApiKeyRead (Fulfilled geminiApiKey) =>
      match Gemini.truthy geminiApiKey with
      | None =>
          suspend r v
            (Resolved
               (Types.fail "Please set your Gemini API key in the extension settings"))
            st
      | Some _ =>
          if decide (v ∈ processingVideos st)
          then suspend r v (Resolved (Types.fail "Video is already being processed"))
                 st
          else suspend r v AwaitCacheRead st
      end
  | AwaitCacheRead, CacheRead now =>
      let answer := Cache.getSummary v now (store st) in
      match answer.1 with
      | Some cachedSummary =>
          suspend r v (Resolved (Types.succeed cachedSummary))
            (with_store answer.2 st)
      | None => acquire r v (with_store answer.2 st)
      end
  | AwaitSummarize, Summarized (Fulfilled result) =>
      if Types.success result && bool_decide (is_Some (Types.data result))
      then suspend r v (AwaitCacheWrite result) st
      else release r v result st
  | AwaitSummarize, Summarized (Rejected message) =>
      release r v (Types.fail message) st
  | AwaitCacheWrite result, CacheWritten now (Fulfilled _) =>
      match Types.data result with
      | Some summary =>
          release r v result
            (with_store (Cache.setSummary v summary now (store st)) st)
      | None => release r v result st
      end
  | AwaitCacheWrite _, CacheWritten _ (Rejected message) =>
      release r v (Types.fail message) st
  | _, _ => st
  end.

(** One event.  A message starts a call, which runs to its first [await]
    (the read of [geminiApiKey]); a settled promise resumes its request. *)
Definition step (st : State) (e : Event) : State :=
  match e with
  | Issue v =>
      {| processingVideos := processingVideos st; store := store st;
         requests := requests st ++ [{| videoId := v; stage := AwaitApiKey |}];
         summarizeCalls := summarizeCalls st; setOps := setOps st |}
  | Resume r input =>
      match requests st !! r with
      | Some req => resume r req input st
      | None => st
      end
  end.

Definition run (events : list Event) (st : State) : State :=
  foldl step st events.

(** The calls request [r] made on the set, in order. *)
Definition ops_of (r : nat) (st : State) : list SetOp :=
  omap (λ p : nat * SetOp, if decide (p.1 = r) then Some p.2 else None)
    (setOps st).

(** The requests for which [gemini.summarize] was invoked for [v]. *)
Definition summarizers_of (v : string) (st : State) : list nat :=
  omap (λ p : nat * string, if decide (p.2 = v) then Some p.1 else None)
    (summarizeCalls st).

(** A request holds its video in the set between [add] and the [finally]. *)
Definition holding (s : Stage) : bool :=
  match s with
  | AwaitSummarize | AwaitCacheWrite _ => true
  | _ => false
  end.

(** The input that settles the promise a stage awaits. *)
Definition settles (s : Stage) (input : Input) : bool :=
  match s, input with
  | AwaitApiKey, ApiKeyRead _
  | AwaitCacheRead, CacheRead _
  | AwaitSummarize, Summarized _
  | AwaitCacheWrite _, CacheWritten _ _ => true
  | _, _ => false
  end.

(** A call that has begun and not yet returned. *)
Definition in_flight (s : Stage) : bool :=
  match s with
  | Resolved _ => false
  | _ => true
  end.

(** What the journal of a request may hold at each stage: nothing before
    the [add], the [add] alone while the video is held, and at the return
    either nothing (the call never reached the [add]) or one [add] followed
    by one [delete]. *)
Definition ops_shape (v : string) (s : Stage) (ops : list SetOp) : Prop :=
  match s with
  | AwaitApiKey | AwaitCacheRead => ops = []
  | AwaitSummarize | AwaitCacheWrite _ => ops = [Add v]
  | Resolved _ => ops = [] ∨ ops = [Add v; Delete v]
  end.

(** The invariant of the service. *)
Record consistent (st : State) : Prop := {
  journal_known :
    ∀ r req, requests st !! r = Some req →
      ops_shape (videoId req) (stage req) (ops_of r st);
  journal_unknown :
    ∀ r, requests st !! r = None → ops_of r st = [];
  set_held :
    ∀ v, v ∈ processingVideos st →
      ∃ r req, requests st !! r = Some req ∧ videoId req = v
        ∧ holding (stage req) = true
}.

End Coordinator.


(** ** GeminiService: model selection *)

Module Models.

(** An entry of the provider's model listing. *)
Record Model := { name : string; supportedGenerationMethods : list string }.

Definition PREFERRED_MODELS : list string :=
  ["gemini-2.0-flash-lite"; "gemini-1.5-pro"; "gemini-1.5-flash";
   "gemini-pro"].

(** [s.includes(p)] for a string needle. *)
Fixpoint contains (s p : string) : bool :=
  String.prefix p s
  || match s with
     | "" => false
     | String _ s' => contains s' p
     end.

(** [m.supportedGenerationMethods.includes('generateContent')]. *)
Definition generates (m : Model) : bool :=
  bool_decide ("generateContent" ∈ supportedGenerationMethods m).

(** The callback of [models.find] for one preferred name. *)
Definition matches (preferredModel : string) (m : Model) : bool :=
  contains (name m) preferredModel && generates m.

(** The loop over [PREFERRED_MODELS]: the first preferred name that some
    listed model matches decides, and [find] takes the first such model. *)
Fixpoint first_preferred (preferred : list string) (models : list Model)
  : option Model :=
  match preferred with
  | [] => None
  | preferredModel :: rest =>
      match List.find (matches preferredModel) models with
      | Some model => Some model
      | None => first_preferred rest models
      end
  end.

(** What [response.json()] gives: the parsed body, or the error it
    rejects with. *)
Inductive Parsed (A : Type) :=
| Json (body : A)
| NotJson (message : string).

Arguments Json {A} body.
Arguments NotJson {A} message.

(** How the request of the model listing settles: [fetch] rejects; or the
    response is not [ok], its body an object with [error?.message]; or it is
    [ok], its body an object with a [models] field or none. *)
Inductive Listing :=
| Unreachable (message : string)
| Refused (status : Z) (errorData : Parsed (option string))
    (statusText : string)
| Listed (data : Parsed (option (list Model))).

Inductive Selection :=
| Selected (model : string)
| Failed (message : string).

(** The choice made from the listed models. *)
Definition choose (models : list Model) : Selection :=
  match first_preferred PREFERRED_MODELS models with
  | Some model => Selected (name model)
  | None =>
      match List.find generates models with
      | Some anyModel => Selected (name anyModel)
      | None =>
          Failed ("No suitable Gemini model found. Please ensure you have "
                  +:+ "access to Gemini API models.")
      end
  end.

(** [findAndSetModel]: the value stored in [this.model], or the error it
    throws. *)
Definition findAndSetModel (listing : Listing) : Selection :=
  match listing with
  | Unreachable message => Failed message
  | Refused status errorData statusText =>
      match errorData with
      | NotJson message => Failed message
      | Json message =>
          if status =? 429 then
            Failed
              "Rate limit exceeded. Please wait a few minutes and try again."
          else
            Failed ("Failed to list models: "
                    +:+ default statusText (Gemini.truthy message))
      end
  | Listed data =>
      match data with
      | NotJson message => Failed message
      | Json models => choose (default [] models)
      end
  end.

End Models.

(** ** GeminiService: text preparation and enrichment *)

Module Text.

(** White space as [\s] sees it, among the code units below 256: the same
    characters as for [trim], the ASCII white space and the no-break
    space. *)
Definition is_space (c : ascii) : bool := JS.is_ws c.

(** The characters the dot of a regular expression does not match. *)
Definition is_line_terminator (c : ascii) : bool :=
  Ascii.eqb c "010" || Ascii.eqb c "013".

Fixpoint trimStart (s : string) : string :=
  match s with
  | "" => ""
  | String c s' => if is_space c then trimStart s' else s
  end.

Fixpoint trimEnd (s : string) : string :=
  match s with
  | "" => ""
  | String c s' =>
      match trimEnd s' with
      | "" => if is_space c then "" else String c ""
      | r => String c r
      end
  end.

Definition trim (s : string) : string := trimEnd (trimStart s).

(** Whether [\[.*?\]] matches right after an opening bracket: a closing
    bracket comes before any line terminator. *)
Fixpoint closes (s : string) : bool :=
  match s with
  | "" => false
  | String c s' =>
      if Ascii.eqb c "]" then true
      else if is_line_terminator c then false
      else closes s'
  end.

(** [.replace(/\[.*?\]/g, '')], scanning from the left.  [skipping] holds
    inside a match, up to its closing bracket. *)
Fixpoint strip_brackets_from (skipping : bool) (s : string) : string :=
  match s with
  | "" => ""
  | String c s' =>
      if skipping then
        strip_brackets_from (negb (Ascii.eqb c "]")) s'
      else if Ascii.eqb c "[" && closes s' then strip_brackets_from true s'
      else String c (strip_brackets_from false s')
  end.

Definition strip_brackets (s : string) : string :=
  strip_brackets_from false s.

(** [.replace(/\s+/g, ' ')].  [in_run] holds after a white space
    character. *)
Fixpoint collapse_from (in_run : bool) (s : string) : string :=
  match s with
  | "" => ""
  | String c s' =>
      if is_space c then
        if in_run then collapse_from true s'
        else String " " (collapse_from true s')
      else String c (collapse_from false s')
  end.

Definition collapse (s : string) : string := collapse_from false s.

Definition cleanTranscript (transcript : string) : string :=
  trim (collapse (strip_brackets transcript)).

(** The class [[-â€¢*]] of the key point pattern, among the code units
    below 256: hyphen, asterisk, and the code units 226 and 162. *)
Definition is_marker (c : ascii) : bool :=
  Ascii.eqb c "-" || Ascii.eqb c "*" || Ascii.eqb c "226"
  || Ascii.eqb c "162".

(** [point.replace(/^[-â€¢*]\s*/, '')]. *)
Definition strip_marker (point : string) : string :=
  match point with
  | "" => ""
  | String c rest => if is_marker c then trimStart rest else point
  end.

(** The text a generateContent reply contributes to an enrichment call:
    [None] where the [try] block throws. *)
Definition reply_text (reply : Gemini.FetchOutcome) : option string :=
  match reply with
  | Gemini.NetworkFailure _ => None
  | Gemini.Response status body =>
      if negb (Gemini.ok status) then None
      else if negb (Gemini.parses body) then None
      else Some (default "" (Gemini.truthy (Gemini.candidate_text body)))
  end.

Definition nonempty (s : string) : bool := negb (String.eqb s "").

(** [extractKeyPoints], given how its fetch settles. *)
Definition extractKeyPoints (reply : Gemini.FetchOutcome) : list string :=
  match reply_text reply with
  | None => []
  | Some keyPointsText =>
      List.filter nonempty
        ((λ point, trim (strip_marker point))
           <$> JS.split JS.newline keyPointsText)
  end.

(** [extractTopics], given how its fetch settles. *)
Definition extractTopics (reply : Gemini.FetchOutcome) : list string :=
  match reply_text reply with
  | None => []
  | Some topicsText =>
      List.filter nonempty (trim <$> JS.split ","%char topicsText)
  end.

(** No character of [s] satisfies [p]. *)
Fixpoint free_of (p : ascii → bool) (s : string) : bool :=
  match s with
  | "" => true
  | String c s' => negb (p c) && free_of p s'
  end.

(** A word as the chunker should see it: not empty, no white space. *)
Definition proper_word (w : string) : Prop :=
  w ≠ "" ∧ free_of is_space w = true.

End Text.

(** ** GeminiService: the summarization pipeline *)

Module Pipeline.

Definition MAX_CHUNK_LENGTH : nat := Z.to_nat 30000.

(** One invocation of [summarizeChunkWithRetry]. *)
Record Call := { text : string; isFinalSummary : bool }.

(** [summarize] as seen from its caller: the response and, in order, the
    invocations of [summarizeChunkWithRetry] it made. *)
Record Report := {
  response : Types.APIResponse Types.Summary;
  calls : list Call
}.

(** [`${n}`] for an integer. *)
Definition show (n : Z) : string := NilZero.string_of_int (Z.to_int n).

Section WithSummarizer.

(** [summarizer n call]: what the [n]-th invocation of
    [summarizeChunkWithRetry] (counting from 0) resolves to. *)
Variable summarizer : nat → Call → option string.

(** The state of the loop over the chunks. *)
Record Progress := { summaries : list string; made : list Call }.

(** One iteration of [for (const chunk of chunks)]. *)
Definition visit (p : Progress) (chunk : string) : Progress :=
  let call := {| text := chunk; isFinalSummary := false |} in
  match Gemini.truthy (summarizer (length (made p)) call) with
  | Some summary =>
      {| summaries := summaries p ++ [summary]; made := made p ++ [call] |}
  | None => {| summaries := summaries p; made := made p ++ [call] |}
  end.

Definition process (chunks : list string) : Progress :=
  fold_left visit chunks {| summaries := []; made := [] |}.

(** The last part of [summarize]: enrichment and the [Summary] record. *)
Definition assemble (videoId finalSummary : string)
    (keyPointsReply topicsReply : Gemini.FetchOutcome) (now_id now_stamp : Z)
  : Types.Summary :=
  {| Types.id := videoId +:+ "_" +:+ show now_id;
     Types.videoId := videoId;
     Types.content := finalSummary;
     Types.language := "en";
     Types.timestamp := now_stamp;
     Types.keyPoints := Text.extractKeyPoints keyPointsReply;
     Types.topics := Text.extractTopics topicsReply |}.

(** [summarize(videoId, transcript, options)].  [apiKey] is [this.apiKey];
    the two replies are those of the enrichment fetches; the two times are
    the two readings of [Date.now()].  The options are not used by the
    source. *)
Definition summarize (apiKey : option string) (videoId transcript : string)
    (keyPointsReply topicsReply : Gemini.FetchOutcome) (now_id now_stamp : Z)
  : Report :=
  match Gemini.truthy apiKey with
  | None =>
      {| response := Types.fail "Gemini API key not set"; calls := [] |}
  | Some _ =>
      let chunks :=
        Chunking.splitIntoChunks (Text.cleanTranscript transcript)
          MAX_CHUNK_LENGTH in
      let p := process chunks in
      match summaries p with
      | [] =>
          {| response := Types.fail "Failed to generate any valid summaries";
             calls := made p |}
      | [only] =>
          {| response :=
               Types.succeed
                 (assemble videoId only keyPointsReply topicsReply
                    now_id now_stamp);
             calls := made p |}
      | _ =>
          let call :=
            {| text := JS.join (JS.nl +:+ JS.nl) (summaries p);
               isFinalSummary := true |} in
          match Gemini.truthy (summarizer (length (made p)) call) with
          | None =>
              {| response := Types.fail "Failed to generate final summary";
                 calls := made p ++ [call] |}
          | Some finalSummary =>
              {| response :=
                   Types.succeed
                     (assemble videoId finalSummary keyPointsReply
                        topicsReply now_id now_stamp);
                 calls := made p ++ [call] |}
          end
      end
  end.

End WithSummarizer.

End Pipeline.

(** ** BackgroundService: cache lookups on behalf of the popup *)

Module Lookup.

(** [handleGetCachedSummary(videoId)] (and [handleCacheRequest], which
    answers the same) when the clock reads [now]: the response and the
    store left behind.  A miss is [data: null]. *)
Definition handleGetCachedSummary (videoId : string) (now : Z)
    (store : gmap string Cache.CacheEntry)
  : Types.APIResponse Types.Summary * gmap string Cache.CacheEntry :=
  let answer := Cache.getSummary videoId now store in
  ({| Types.success := true; Types.data := answer.1; Types.error := None |},
   answer.2).

(** The calls of [gemini.summarize] that request [r] made. *)
Definition summarize_calls_of (r : nat) (st : Coordinator.State)
  : list string :=
  omap (λ p : nat * string, if decide (p.1 = r) then Some p.2 else None)
    (Coordinator.summarizeCalls st).

(** Every call of [gemini.summarize] in the journal next to its [add]. *)
Definition adds (ops : list (nat * Coordinator.SetOp)) : list (nat * string) :=
  omap (λ p : nat * Coordinator.SetOp,
          match p.2 with
          | Coordinator.Add v => Some (p.1, v)
          | Coordinator.Delete _ => None
          end) ops.

End Lookup.

(** ** Vocabulary of the further properties of the retry wrapper *)

Module Answers.

(** The text a response carries when the [try] block returns it: a success
    status, a body that parses, a non-empty generated text. *)
Definition good_answer (r : Gemini.FetchOutcome) : option string :=
  match r with
  | Gemini.NetworkFailure _ => None
  | Gemini.Response status body =>
      if Gemini.ok status && Gemini.parses body
      then Gemini.truthy (Gemini.candidate_text body)
      else None
  end.

End Answers.

(** ** The transcript as the extractor hands it over *)

Module Extractor.

(** A transcript segment for which a text was found. *)
Record Segment := { stamp : string; words : string }.

(** [`[${timestamp}] ${text}`]. *)
Definition formatSegment (segment : Segment) : string :=
  "[" +:+ stamp segment +:+ "] " +:+ words segment.

(** [transcriptSegments.join('\n')]. *)
Definition transcript (segments : list Segment) : string :=
  JS.join JS.nl (formatSegment <$> segments).

(** A time stamp that the bracket pattern can span: no closing bracket and
    no line terminator inside. *)
Definition plain_stamp (segment : Segment) : bool :=
  Text.free_of (λ c, Ascii.eqb c "]" || Text.is_line_terminator c)
    (stamp segment).

(** A text without an opening bracket. *)
Definition plain_words (segment : Segment) : bool :=
  Text.free_of (λ c, Ascii.eqb c "[") (words segment).

End Extractor.

(** ** Vocabulary of the properties of cleaned text *)

Module Tidy.

(** A text in which the only white space is the space character and no two
    spaces are adjacent; [after_space] holds right after a space. *)
Fixpoint tidy_from (after_space : bool) (s : string) : bool :=
  match s with
  | "" => true
  | String c s' =>
      if Text.is_space c
      then Ascii.eqb c " " && negb after_space && tidy_from true s'
      else tidy_from false s'
  end.

Definition tidy (s : string) : bool := tidy_from false s.

End Tidy.

(** ** Vocabulary of the properties of the pipeline *)

Module Steps.

(** The call [summarize] makes for a chunk. *)
Definition chunk_call (chunk : string) : Pipeline.Call :=
  {| Pipeline.text := chunk; Pipeline.isFinalSummary := false |}.

(** What the calls for the chunks resolve to, as the loop sees them ([None]
    for [null] and for the empty string); the call for the first chunk is
    the [offset]-th of the run. *)
Definition chunk_answers (summarizer : nat → Pipeline.Call → option string)
    (offset : nat) (chunks : list string) : list (option string) :=
  imap (λ i chunk,
          Gemini.truthy (summarizer (offset + i)%nat (chunk_call chunk)))
    chunks.

(** The chunk summaries the loop keeps. *)
Definition kept (answers : list (option string)) : list string :=
  omap id answers.

(** The call of the final pass over the kept summaries. *)
Definition final_call (summaries : list string) : Pipeline.Call :=
  {| Pipeline.text := JS.join (JS.nl +:+ JS.nl) summaries;
     Pipeline.isFinalSummary := true |}.

(** The chunks [summarize] works on. *)
Definition chunks_of (transcript : string) : list string :=
  Chunking.splitIntoChunks (Text.cleanTranscript transcript)
    Pipeline.MAX_CHUNK_LENGTH.

End Steps.

(** ** BackgroundService: making sure the content script answers *)

Module Injector.

(** How a ping of the tab settles: a response with [pong], a response
    without it, or a rejected [sendMessage]. *)
Inductive Ping := Pong | Silent | Lost.

(** How [chrome.tabs.get] settles: it rejects, or gives a tab whose [url]
    may be missing. *)
Inductive TabInfo :=
| TabGone
| TabFound (url : option string).

(** The two registers the call updates. *)
Record Registers := {
  injectedTabs : gset nat;
  contentScriptStatus : gmap nat bool
}.

(** What the call does to the outside, in order. *)
Inductive Action :=
| SendPing
| GetTab
| Inject
| Delay (ms : Z).

Record Outcome := {
  ready : bool;
  registers : Registers;
  actions : list Action
}.

Definition after (done : list Action) (o : Outcome) : Outcome :=
  {| ready := ready o; registers := registers o;
     actions := done ++ actions o |}.

(** [!tab.url?.includes('youtube.com')], negated. *)
Definition on_youtube (url : option string) : bool :=
  match url with
  | Some u => Models.contains u "youtube.com"
  | None => false
  end.

(** The verification loop [for (let i = 0; i < 5; i++)] from index [i] on,
    [remaining] being [5 - i]; falling out of the loop throws, and the outer
    [catch] returns false. *)
Fixpoint verify (tabId : nat) (pings : nat → Ping) (i remaining : nat)
    (regs : Registers) : Outcome :=
  match remaining with
  | O => {| ready := false; registers := regs; actions := [] |}
  | S remaining' =>
      match pings i with
      | Pong =>
          {| ready := true;
             registers :=
               {| injectedTabs := {[tabId]} ∪ injectedTabs regs;
                  contentScriptStatus :=
                    <[tabId := true]> (contentScriptStatus regs) |};
             actions := [SendPing] |}
      | Silent | Lost =>
          after [SendPing; Delay 1000]
            (verify tabId pings (S i) remaining' regs)
      end
  end.

(** [ensureContentScript(tabId)]: [first] is the opening ping, [tab] the
    answer of [chrome.tabs.get], [injects] whether [executeScript]
    resolves, [pings i] the [i]-th verification ping. *)
Definition ensureContentScript (tabId : nat) (first : Ping) (tab : TabInfo)
    (injects : bool) (pings : nat → Ping) (regs : Registers) : Outcome :=
  match first with
  | Pong => {| ready := true; registers := regs; actions := [SendPing] |}
  | Silent | Lost =>
      match tab with
      | TabGone =>
          {| ready := false; registers := regs;
             actions := [SendPing; GetTab] |}
      | TabFound url =>
          if negb (on_youtube url) then
            {| ready := false; registers := regs;
               actions := [SendPing; GetTab] |}
          else
            let cleared :=
              {| injectedTabs := injectedTabs regs ∖ {[tabId]};
                 contentScriptStatus := delete tabId (contentScriptStatus regs)
              |} in
            if negb injects then
              {| ready := false; registers := cleared;
                 actions := [SendPing; GetTab; Inject] |}
            else
              after [SendPing; GetTab; Inject; Delay 1000]
                (verify tabId pings 0 5 cleared)
      end
  end.

(** The pings sent and the time waited, read off the actions. *)
Definition pings_sent (done : list Action) : nat :=
  foldr (λ a count, match a with SendPing => S count | _ => count end) 0%nat
    done.

Definition waited (done : list Action) : Z :=
  foldr (λ a total, match a with Delay ms => ms + total | _ => total end) 0
    done.

End Injector.

(** ** BackgroundService: setting the API key *)

Module ApiKey.

(** The fields of [GeminiService] that [initialize] writes. *)
Record Client := { apiKey : option string; model : option string }.

(** [gemini.initialize(apiKey)]: the client afterwards and the error
    thrown, if any. *)
Definition initialize (key : string) (listing : Models.Listing)
  : Client * option string :=
  match Models.findAndSetModel listing with
  | Models.Selected name =>
      ({| apiKey := Some key; model := Some name |}, None)
  | Models.Failed message =>
      ({| apiKey := Some key; model := None |}, Some message)
  end.

(** What [handleSetApiKey] leaves behind: its response, the key in
    [chrome.storage.sync], and the client. *)
Record Settled := {
  response : Types.APIResponse unit;
  geminiApiKey : option string;
  client : Client
}.

(** [handleSetApiKey(apiKey)], [chrome.storage.sync.set] resolving. *)
Definition handleSetApiKey (key : string) (listing : Models.Listing)
  : Settled :=
  let initialized := initialize key listing in
  {| response :=
       match initialized.2 with
       | None =>
           {| Types.success := true; Types.data := None;
              Types.error := None |}
       | Some message => Types.fail message
       end;
     geminiApiKey := Some key;
     client := initialized.1 |}.

(** The single-call summarizer of a client: the [n]-th call talks to
    [servers n].  The model is usable when it is set and not empty. *)
Definition summarizer_of (c : Client) (servers : nat → nat → Gemini.FetchOutcome)
  : nat → Pipeline.Call → option string :=
  λ n _,
    match Gemini.summarizeChunkWithRetry
            (bool_decide (is_Some (Gemini.truthy (model c)))) (servers n)
            1%nat with
    | Some run => Gemini.result run
    | None => None
    end.

(** The requests the [n]-th call of that summarizer sends. *)
Definition requests_of (c : Client) (servers : nat → nat → Gemini.FetchOutcome)
    (n : nat) : list nat :=
  match Gemini.summarizeChunkWithRetry
          (bool_decide (is_Some (Gemini.truthy (model c)))) (servers n)
          1%nat with
  | Some run => Gemini.fetches (Gemini.trace run)
  | None => []
  end.

End ApiKey.

(** ** Sequences of events of one request *)

Module Flows.

Import Coordinator.

(** Request [r] for [v] arrives and reads the API key [key]. *)
Definition arrival (r : nat) (v key : string) : list Event :=
  [Issue v; Resume r (ApiKeyRead (Fulfilled (Some key)))].

(** A request that finds no cached summary at [t1], whose summarization
    settles as [outcome], and whose cache write (if it comes to one)
    happens at [t2]. *)
Definition full_request (r : nat) (v key : string) (t1 : Z)
    (outcome : Outcome (Types.APIResponse Types.Summary)) (t2 : Z)
  : list Event :=
  arrival r v key ++
  [Resume r (CacheRead t1); Resume r (Summarized outcome);
   Resume r (CacheWritten t2 (Fulfilled tt))].

(** A request that is answered by the cache lookup at [t]. *)
Definition cache_request (r : nat) (v key : string) (t : Z) : list Event :=
  arrival r v key ++ [Resume r (CacheRead t)].

(** The response request [r] has returned, if it has returned. *)
Definition response_of (r : nat) (st : State)
  : option (Types.APIResponse Types.Summary) :=
  match requests st !! r with
  | Some {| stage := Resolved response |} => Some response
  | _ => None
  end.

(** A summarization that did not produce a summary: the client returned a
    failure, or a response without data, or threw. *)
Definition unsuccessful (o : Outcome (Types.APIResponse Types.Summary))
  : Prop :=
  match o with
  | Fulfilled result =>
      Types.success result = false ∨ Types.data result = None
  | Rejected _ => True
  end.

(** What [handleSummarizeVideo] returns for such a summarization. *)
Definition reported (o : Outcome (Types.APIResponse Types.Summary))
  : Types.APIResponse Types.Summary :=
  match o with
  | Fulfilled result => result
  | Rejected message => Types.fail message
  end.

End Flows.

(** ** Concrete inputs used by the examples below *)

Module Scenarios.

(** A generateContent answer carrying [text]. *)
Definition answer (text : string) : Gemini.FetchOutcome :=
  Gemini.Response 200
    {| Gemini.parses := true; Gemini.error_message := None;
       Gemini.candidate_text := Some text |}.

(** A 200 answer whose JSON has no candidates. *)
Definition empty_answer : Gemini.FetchOutcome :=
  Gemini.Response 200
    {| Gemini.parses := true; Gemini.error_message := None;
       Gemini.candidate_text := None |}.

(** An error answer with the provider's message. *)
Definition refusal (status : Z) (message : string) : Gemini.FetchOutcome :=
  Gemini.Response status
    {| Gemini.parses := true; Gemini.error_message := Some message;
       Gemini.candidate_text := None |}.

Definition malformed_then_fine (attempt : nat) : Gemini.FetchOutcome :=
  match attempt with
  | 1%nat => empty_answer
  | _ => answer "ok"
  end.

Definition unauthorized_then_fine (attempt : nat) : Gemini.FetchOutcome :=
  match attempt with
  | 1%nat => refusal 401 "API key not valid"
  | _ => answer "ok"
  end.

Definition always_rate_limited (attempt : nat) : Gemini.FetchOutcome :=
  refusal 429 "Resource has been exhausted".

(** A summary as [GeminiService.summarize] assembles it. *)
Definition sample_summary : Types.Summary :=
  {| Types.id := "abc_1700000000000"; Types.videoId := "abc";
     Types.content := "A talk about verified software.";
     Types.language := "en"; Types.timestamp := 1700000000000;
     Types.keyPoints := ["Proofs are programs"; "Specifications drift"];
     Types.topics := ["verification"; "software"] |}.

(** A store holding one entry of the other key family, long expired. *)
Definition legacy_store : gmap string Cache.CacheEntry :=
  {[ "summary_abc" := {| Cache.data := sample_summary;
                         Cache.expiresAt := 1000 |} ]}.

(** A first message for a video: its call has read the API key, passed the
    membership test and now awaits the cache. *)
Definition key_read : Coordinator.Input :=
  Coordinator.ApiKeyRead (Coordinator.Fulfilled (Some "AIza-key")).

Definition first_request_started : list Coordinator.Event :=
  [ Coordinator.Issue "abc"; Coordinator.Resume 0 key_read ].

(** A second message for the same video arrives at that point; both calls
    then get their cache miss. *)
Definition overlapping_requests : list Coordinator.Event :=
  first_request_started ++
  [ Coordinator.Issue "abc"; Coordinator.Resume 1 key_read;
    Coordinator.Resume 0 (Coordinator.CacheRead 1700000000000);
    Coordinator.Resume 1 (Coordinator.CacheRead 1700000000001) ].

(** The two calls then complete, each with the summary of its own run. *)
Definition overlapping_requests_completed : list Coordinator.Event :=
  overlapping_requests ++
  [ Coordinator.Resume 0
      (Coordinator.Summarized
         (Coordinator.Fulfilled (Types.succeed sample_summary)));
    Coordinator.Resume 1
      (Coordinator.Summarized
         (Coordinator.Fulfilled (Types.succeed sample_summary)));
    Coordinator.Resume 0
      (Coordinator.CacheWritten 1700000005000 (Coordinator.Fulfilled tt));
    Coordinator.Resume 1
      (Coordinator.CacheWritten 1700000005001 (Coordinator.Fulfilled tt)) ].

End Scenarios.


(** ** Further concrete inputs *)

Module Samples.

(** Two entries under [summary_] keys, both expiring at 51, and a clock
    that reads 50 when the first is tested and 52 when the second is. *)
Definition two_listed : gmap string Cache.CacheEntry :=
  <["summary_a" := {| Cache.data := Scenarios.sample_summary;
                      Cache.expiresAt := 51 |}]>
    (<["summary_b" := {| Cache.data := Scenarios.sample_summary;
                         Cache.expiresAt := 51 |}]> ∅).

Definition moving_clock (key : string) : Z :=
  if decide (key = "summary_a") then 50 else 52.

(** A cache with the summaries of two videos: "abc" written at time 0,
    hence expiring at 604800000, and "xyz" written at time 100, hence
    expiring at 604800100. *)
Definition two_cached : gmap string Cache.CacheEntry :=
  Cache.setSummary "xyz" Scenarios.sample_summary 100
    (Cache.setSummary "abc" Scenarios.sample_summary 0 ∅).

(** A summary whose content ends in a no-break space (code unit 160) and
    which has neither key points nor topics. *)
Definition summary_ending_in_no_break_space : Types.Summary :=
  {| Types.id := "abc_1"; Types.videoId := "abc";
     Types.content := "ends with nbsp" +:+ String "160" "";
     Types.language := "en"; Types.timestamp := 1;
     Types.keyPoints := []; Types.topics := [] |}.

(** A summary with two key points, the first holding a line feed. *)
Definition summary_with_line_feed : Types.Summary :=
  {| Types.id := "abc_1"; Types.videoId := "abc";
     Types.content := "Two points.";
     Types.language := "en"; Types.timestamp := 1;
     Types.keyPoints := ["a" +:+ JS.nl +:+ "* b"; "c"];
     Types.topics := ["formal methods"; "software"] |}.

(** A first request for "abc" holds the video (it awaits the summarization
    client) when a second message for "abc" arrives. *)
Definition second_arrives_while_held : Coordinator.State :=
  Coordinator.run
    (Flows.arrival 0 "abc" "AIza-key"
     ++ [Coordinator.Resume 0 (Coordinator.CacheRead 1700000000000);
         Coordinator.Issue "abc"])
    (Coordinator.init ∅).

(** A summarization that ended in a failure result. *)
Definition failed_summarization
  : Coordinator.Outcome (Types.APIResponse Types.Summary) :=
  Coordinator.Fulfilled (Types.fail "Failed to generate any valid summaries").

(** A listing as the provider returns it: a vision model that only the
    last preferred name matches, a flash model, and a pro model without
    content generation. *)
Definition listing : list Models.Model :=
  [ {| Models.name := "models/gemini-pro-vision";
       Models.supportedGenerationMethods := ["generateContent"] |};
    {| Models.name := "models/gemini-1.5-flash-001";
       Models.supportedGenerationMethods :=
         ["generateContent"; "countTokens"] |};
    {| Models.name := "models/gemini-1.5-pro";
       Models.supportedGenerationMethods := ["countTokens"] |} ].

End Samples.


(** * Properties *)

(** ** The retry wrapper *)

Section RetryFacts.

Import Gemini.

Variable server : nat → FetchOutcome.

(** The recursion always comes back: the fuel given by
    [summarizeChunkWithRetry] is never used up. *)
Lemma retry_enough_fuel (model_ready : bool) (fuel attempt : nat) :
  (MAX_RETRIES - attempt < fuel)%nat →
  is_Some (retry model_ready server fuel attempt).
Proof.
  revert attempt.
  induction fuel as [|fuel IH]; intros attempt Hfuel; [lia|].
  simpl.
  destruct (try_block model_ready server attempt) eqn:Htry.
  - eauto.
  - assert (attempt < MAX_RETRIES)%nat as Hlt.
    { unfold try_block in Htry.
      destruct (attempt <? MAX_RETRIES)%nat eqn:E;
        [by apply Nat.ltb_lt in E|].
      repeat case_match; congruence. }
    destruct (IH (S attempt)) as [run ->]; [lia|]. simpl. eauto.
  - destruct (attempt <? MAX_RETRIES)%nat eqn:E; [|eauto].
    apply Nat.ltb_lt in E.
    destruct (IH (S attempt)) as [run ->]; [lia|]. simpl. eauto.
Qed.

Lemma summarizeChunkWithRetry_total (model_ready : bool) (attempt : nat) :
  is_Some (summarizeChunkWithRetry model_ready server attempt).
Proof. apply retry_enough_fuel. lia. Qed.

(** Unfolding of the recursion when the [try] block ends in the [catch]
    block: one more invocation while attempts remain, [null] otherwise. *)
Lemma retry_after_throw (model_ready : bool) (attempt : nat)
    (message : string) :
  try_block model_ready server attempt = Thrown message →
  summarizeChunkWithRetry model_ready server attempt =
    if (attempt <? MAX_RETRIES)%nat
    then after (fetched model_ready attempt ++ [Wait (backoff attempt)])
           <$> summarizeChunkWithRetry model_ready server (S attempt)
    else Some {| result := None; trace := fetched model_ready attempt |}.
Proof.
  intros Htry. unfold summarizeChunkWithRetry.
  destruct (attempt <? MAX_RETRIES)%nat eqn:E.
  - apply Nat.ltb_lt in E.
    replace (MAX_RETRIES - attempt)%nat with (S (MAX_RETRIES - S attempt))
      by lia.
    cbn [retry]. by rewrite Htry, (proj2 (Nat.ltb_lt _ _) E).
  - cbn [retry]. by rewrite Htry, E.
Qed.

(** The [try] block on a successful response without generated text. *)
Lemma try_block_malformed (attempt : nat) :
  malformed (server attempt) →
  try_block true server attempt = Thrown "Invalid response format from API".
Proof.
  intros (status & body & Hresp & Hok & Hparse & Htext).
  unfold try_block. cbn [negb]. by rewrite Hresp, Hok, Hparse, Htext.
Qed.

(** The [try] block on a non-success status other than 429. *)
Lemma try_block_error_status (attempt : nat) (status : Z) :
  status_of (server attempt) = Some status →
  ok status = false → status ≠ 429 →
  ∃ message, try_block true server attempt = Thrown message.
Proof.
  intros Hstatus Hok Hne. unfold try_block. cbn [negb].
  destruct (server attempt) as [|status' body]; simplify_eq/=.
  rewrite Hok. cbn [negb].
  destruct (parses body); cbn [negb]; [|eauto].
  destruct (Z.eqb_spec status 429); [done|eauto].
Qed.

(** The [try] block on a 429: either the explicit retry of the 429 branch
    or, once no attempt remains or the body does not parse, a throw. *)
Lemma try_block_rate_limited (attempt : nat) :
  status_of (server attempt) = Some 429 →
  (try_block true server attempt = RateLimitRetry
   ∧ (attempt < MAX_RETRIES)%nat)
  ∨ ∃ message, try_block true server attempt = Thrown message.
Proof.
  intros Hstatus. unfold try_block. cbn [negb].
  destruct (server attempt) as [|status' body]; simplify_eq/=.
  destruct (parses body); cbn [negb]; [|eauto].
  destruct (attempt <? MAX_RETRIES)%nat eqn:E; [|eauto].
  left. split; [done|]. by apply Nat.ltb_lt.
Qed.

(** Unfolding of the recursion on a 429, whichever way the retry is taken. *)
Lemma retry_after_rate_limit (attempt : nat) :
  status_of (server attempt) = Some 429 →
  summarizeChunkWithRetry true server attempt =
    if (attempt <? MAX_RETRIES)%nat
    then after [Fetch attempt; Wait (backoff attempt)]
           <$> summarizeChunkWithRetry true server (S attempt)
    else Some {| result := None; trace := [Fetch attempt] |}.
Proof.
  intros Hstatus.
  destruct (try_block_rate_limited attempt Hstatus)
    as [[Htry Hlt]|[message Htry]].
  - unfold summarizeChunkWithRetry.
    replace (MAX_RETRIES - attempt)%nat with (S (MAX_RETRIES - S attempt))
      by lia.
    cbn [retry]. by rewrite Htry, (proj2 (Nat.ltb_lt _ _) Hlt).
  - by rewrite (retry_after_throw true attempt message Htry).
Qed.

End RetryFacts.


(** C6: a call whose every attempt is answered with HTTP 429 makes
    [MAX_RETRIES] fetches, waits [INITIAL_RETRY_DELAY * 2^(attempt-1)]
    between them, these waits grow strictly, and the call then resolves to
    [null] instead of throwing. *)
Theorem rate_limit_backoff_then_null (server : nat → Gemini.FetchOutcome) :
  (∀ attempt, Gemini.status_of (server attempt) = Some 429) →
  ∃ run,
    Gemini.summarizeChunkWithRetry true server 1 = Some run
    ∧ Gemini.result run = None
    ∧ Gemini.trace run =
        [Gemini.Fetch 1; Gemini.Wait (Gemini.backoff 1);
         Gemini.Fetch 2; Gemini.Wait (Gemini.backoff 2); Gemini.Fetch 3]
    ∧ Gemini.fetches (Gemini.trace run) = seq 1 Gemini.MAX_RETRIES
    ∧ Gemini.waits (Gemini.trace run) =
        (λ attempt, Gemini.INITIAL_RETRY_DELAY * 2 ^ (Z.of_nat attempt - 1))
          <$> seq 1 (Gemini.MAX_RETRIES - 1)
    ∧ StronglySorted Z.lt (Gemini.waits (Gemini.trace run)).
Proof.
  intros H429.
  rewrite (retry_after_rate_limit server 1 (H429 _)).
  rewrite (retry_after_rate_limit server 2 (H429 _)).
  rewrite (retry_after_rate_limit server 3 (H429 _)).
  cbn. eexists. split; [reflexivity|]. cbn.
  repeat split; try reflexivity.
  repeat constructor.
Qed.

Lemma rate_limit_backoff_then_null_witness :
  ∃ run,
    Gemini.summarizeChunkWithRetry true Scenarios.always_rate_limited 1
      = Some run
    ∧ Gemini.result run = None
    ∧ Gemini.trace run =
        [Gemini.Fetch 1; Gemini.Wait (Gemini.backoff 1);
         Gemini.Fetch 2; Gemini.Wait (Gemini.backoff 2); Gemini.Fetch 3]
    ∧ Gemini.fetches (Gemini.trace run) = seq 1 Gemini.MAX_RETRIES
    ∧ Gemini.waits (Gemini.trace run) =
        (λ attempt, Gemini.INITIAL_RETRY_DELAY * 2 ^ (Z.of_nat attempt - 1))
          <$> seq 1 (Gemini.MAX_RETRIES - 1)
    ∧ StronglySorted Z.lt (Gemini.waits (Gemini.trace run)).
Proof.
  apply (rate_limit_backoff_then_null Scenarios.always_rate_limited).
  intros attempt. reflexivity.
Defined.

(** C4, as claimed: a successful response without the generated text ends
    the call without another fetch.  The code retries it: with such a
    response at attempt 1 and a good one at attempt 2 the call fetches
    twice and returns the second text. *)
Lemma malformed_response_is_retried :
  ¬ (∀ (server : nat → Gemini.FetchOutcome) (attempt : nat) (run : Gemini.Run),
       Gemini.malformed (server attempt) →
       Gemini.summarizeChunkWithRetry true server attempt = Some run →
       Gemini.fetches (Gemini.trace run) = [attempt]).
Proof.
  intros Hclaim.
  specialize (Hclaim Scenarios.malformed_then_fine 1%nat
    {| Gemini.result := Some "ok";
       Gemini.trace := [Gemini.Fetch 1; Gemini.Wait 1000; Gemini.Fetch 2] |}).
  assert (Gemini.malformed (Scenarios.malformed_then_fine 1)) as Hbad.
  { do 2 eexists. repeat split; reflexivity. }
  specialize (Hclaim Hbad eq_refl). discriminate Hclaim.
Qed.

(** C4, amended: the "Invalid response format" error is thrown inside the
    [try] block, so the [catch] block handles it like any other error: while
    [attempt < MAX_RETRIES] the call waits the back-off delay and invokes
    itself again; at the last attempt it returns [null]. *)
Theorem malformed_response_retried_with_backoff
    (server : nat → Gemini.FetchOutcome) (attempt : nat) :
  Gemini.malformed (server attempt) →
  Gemini.summarizeChunkWithRetry true server attempt =
    if (attempt <? Gemini.MAX_RETRIES)%nat
    then Gemini.after
           [Gemini.Fetch attempt; Gemini.Wait (Gemini.backoff attempt)]
           <$> Gemini.summarizeChunkWithRetry true server (S attempt)
    else Some {| Gemini.result := None;
                 Gemini.trace := [Gemini.Fetch attempt] |}.
Proof.
  intros Hbad.
  apply (retry_after_throw server true attempt _
           (try_block_malformed server attempt Hbad)).
Qed.

Lemma malformed_response_retried_with_backoff_witness :
  Gemini.malformed (Scenarios.malformed_then_fine 1)
  ∧ Gemini.summarizeChunkWithRetry true Scenarios.malformed_then_fine 1 =
      Gemini.after [Gemini.Fetch 1; Gemini.Wait (Gemini.backoff 1)]
        <$> Gemini.summarizeChunkWithRetry true Scenarios.malformed_then_fine 2.
Proof.
  assert (Gemini.malformed (Scenarios.malformed_then_fine 1)) as Hbad.
  { do 2 eexists. repeat split; reflexivity. }
  split; [exact Hbad|].
  exact (malformed_response_retried_with_backoff
           Scenarios.malformed_then_fine 1 Hbad).
Defined.

(** C5, as claimed: a 401 or 403 answer ends the call without another
    fetch.  The code retries it: a 401 at attempt 1 followed by a good
    answer yields two fetches and the text, and the provider's message
    reaches no caller. *)
Lemma auth_error_is_retried :
  ¬ (∀ (server : nat → Gemini.FetchOutcome) (attempt : nat) (status : Z)
       (run : Gemini.Run),
       Gemini.status_of (server attempt) = Some status →
       status = 401 ∨ status = 403 →
       Gemini.summarizeChunkWithRetry true server attempt = Some run →
       Gemini.fetches (Gemini.trace run) = [attempt]).
Proof.
  intros Hclaim.
  specialize (Hclaim Scenarios.unauthorized_then_fine 1%nat 401
    {| Gemini.result := Some "ok";
       Gemini.trace := [Gemini.Fetch 1; Gemini.Wait 1000; Gemini.Fetch 2] |}
    eq_refl (or_introl eq_refl) eq_refl).
  discriminate Hclaim.
Qed.

(** C5, amended: [summarizeChunkWithRetry] treats 401 and 403 as it treats
    every non-success status other than 429: the error is thrown into the
    [catch] block, which waits the back-off delay and invokes the call again
    while [attempt < MAX_RETRIES], and returns [null] at the last attempt. *)
Theorem auth_error_retried_with_backoff
    (server : nat → Gemini.FetchOutcome) (attempt : nat) (status : Z) :
  Gemini.status_of (server attempt) = Some status →
  status = 401 ∨ status = 403 →
  Gemini.summarizeChunkWithRetry true server attempt =
    if (attempt <? Gemini.MAX_RETRIES)%nat
    then Gemini.after
           [Gemini.Fetch attempt; Gemini.Wait (Gemini.backoff attempt)]
           <$> Gemini.summarizeChunkWithRetry true server (S attempt)
    else Some {| Gemini.result := None;
                 Gemini.trace := [Gemini.Fetch attempt] |}.
Proof.
  intros Hstatus Hauth.
  destruct (try_block_error_status server attempt status Hstatus)
    as [message Htry].
  - by destruct Hauth as [-> | ->].
  - by destruct Hauth as [-> | ->].
  - apply (retry_after_throw server true attempt message Htry).
Qed.

Lemma auth_error_retried_with_backoff_witness :
  Gemini.summarizeChunkWithRetry true Scenarios.unauthorized_then_fine 1 =
    Gemini.after [Gemini.Fetch 1; Gemini.Wait (Gemini.backoff 1)]
      <$> Gemini.summarizeChunkWithRetry true Scenarios.unauthorized_then_fine 2.
Proof.
  exact (auth_error_retried_with_backoff Scenarios.unauthorized_then_fine 1 401
           eq_refl (or_introl eq_refl)).
Defined.


(** ** The result cache *)

Section CacheFacts.

Import Cache.

(** The two key families never meet: one starts with [s], the other with
    [y]. *)
Lemma summary_key_not_cache_key (v v' : string) :
  SUMMARY_PREFIX +:+ v ≠ CACHE_PREFIX +:+ v'.
Proof. discriminate. Qed.

Lemma cache_key_not_summary_prefixed (v : string) :
  JS.startsWith (CACHE_PREFIX +:+ v) SUMMARY_PREFIX = false.
Proof. reflexivity. Qed.

Lemma lookup_foldr_delete (store : gmap string CacheEntry)
    (keys : list string) (k : string) :
  foldr delete store keys !! k
  = if decide (k ∈ keys) then None else store !! k.
Proof.
  induction keys as [|k' keys IH]; cbn [foldr].
  - case_decide as Hin; [by apply elem_of_nil in Hin|done].
  - destruct (decide (k' = k)) as [->|Hne].
    + rewrite lookup_delete_eq. rewrite decide_True; [done|]. left.
    + rewrite lookup_delete_ne, IH by done.
      destruct (decide (k ∈ keys)) as [Hin|Hnin].
      * rewrite decide_True; [done|]. by right.
      * rewrite decide_False; [done|].
        intros [?|?]%elem_of_cons; congruence.
Qed.

Lemma elem_of_keysToRemove (now : Z) (store : gmap string CacheEntry)
    (k : string) :
  k ∈ keysToRemove now store
  ↔ ∃ entry, store !! k = Some entry ∧ to_remove now (k, entry) = true.
Proof.
  unfold keysToRemove. rewrite list_elem_of_fmap. split.
  - intros ([k' entry] & -> & Hin).
    apply list_elem_of_filter in Hin as [Hrm Hin].
    apply elem_of_map_to_list in Hin.
    exists entry. split; [done|]. by apply Is_true_true.
  - intros (entry & Hk & Hrm). exists (k, entry). split; [done|].
    apply list_elem_of_filter. split; [by apply Is_true_true|].
    by apply elem_of_map_to_list.
Qed.

Lemma lookup_after_sweep (now : Z) (store : gmap string CacheEntry)
    (k : string) :
  cleanup now store !! k
  = if decide (k ∈ keysToRemove now store) then None else store !! k.
Proof.
  unfold cleanup.
  destruct (0 <? length (keysToRemove now store))%nat eqn:E.
  - apply lookup_foldr_delete.
  - apply Nat.ltb_ge in E.
    destruct (keysToRemove now store); [|simpl in E; lia].
    case_decide as Hin; [by apply elem_of_nil in Hin|done].
Qed.

End CacheFacts.

(** C7, as claimed: a lookup at or after [t0 + CACHE_DURATION] misses.  At
    the very instant [t0 + CACHE_DURATION] the code still answers with the
    summary, because it tests [expiresAt < now]. *)
Lemma entry_served_at_expiry_instant :
  ¬ (∀ (store : gmap string Cache.CacheEntry) (v : string)
       (s : Types.Summary) (t0 t : Z),
       t0 + Cache.CACHE_DURATION ≤ t →
       (Cache.getSummary v t (Cache.setSummary v s t0 store)).1 = None).
Proof.
  intros Hclaim.
  specialize (Hclaim ∅ "abc" Scenarios.sample_summary 0 Cache.CACHE_DURATION).
  assert (0 + Cache.CACHE_DURATION ≤ Cache.CACHE_DURATION) as Hle by lia.
  specialize (Hclaim Hle). vm_compute in Hclaim. discriminate Hclaim.
Qed.

(** C7, amended: after [setSummary(videoId, summary)] at time [t0], a
    [getSummary(videoId)] at any time up to and including
    [t0 + CACHE_DURATION] returns the summary and leaves the store as it
    is; at any later time it returns [null] and removes the entry. *)
Theorem getSummary_after_setSummary (store : gmap string Cache.CacheEntry)
    (v : string) (s : Types.Summary) (t0 t : Z) :
  let answer := Cache.getSummary v t (Cache.setSummary v s t0 store) in
  answer
  = (if t0 + Cache.CACHE_DURATION <? t
     then (None, delete (Cache.CACHE_PREFIX +:+ v) store)
     else (Some s, Cache.setSummary v s t0 store))
  ∧ answer.2 !! (Cache.CACHE_PREFIX +:+ v)
    = (if t0 + Cache.CACHE_DURATION <? t
       then None
       else Some {| Cache.data := s;
                    Cache.expiresAt := t0 + Cache.CACHE_DURATION |}).
Proof.
  cbn zeta.
  unfold Cache.getSummary, Cache.setSummary, Cache.remove.
  rewrite lookup_insert_eq. cbn [Cache.expiresAt Cache.data].
  destruct (t0 + Cache.CACHE_DURATION <? t); cbn [snd].
  - by rewrite delete_insert_eq, lookup_delete_eq.
  - by rewrite lookup_insert_eq.
Qed.

(** C8, as claimed: the sweep removes every expired entry of the store,
    whatever its key.  An expired entry under [summary_abc] survives it. *)
Lemma cleanup_skips_other_keys :
  ¬ (∀ (store : gmap string Cache.CacheEntry) (now : Z) (k : string)
       (entry : Cache.CacheEntry),
       store !! k = Some entry → Cache.expired now entry →
       Cache.cleanup now store !! k = None).
Proof.
  intros Hclaim.
  specialize (Hclaim Scenarios.legacy_store 2000 "summary_abc"
    {| Cache.data := Scenarios.sample_summary; Cache.expiresAt := 1000 |}).
  assert (Cache.expired 2000
    {| Cache.data := Scenarios.sample_summary; Cache.expiresAt := 1000 |})
    as Hexp by (unfold Cache.expired; simpl; lia).
  specialize (Hclaim eq_refl Hexp). vm_compute in Hclaim. discriminate Hclaim.
Qed.

(** C8, amended: [cleanup] removes exactly the entries whose key starts with
    [CACHE_PREFIX] and whose [expiresAt] is before now; every other entry,
    expired or not, stays as it is. *)
Theorem cleanup_lookup (store : gmap string Cache.CacheEntry) (now : Z)
    (k : string) :
  Cache.cleanup now store !! k
  = match store !! k with
    | Some entry =>
        if JS.startsWith k Cache.CACHE_PREFIX
           && (Cache.expiresAt entry <? now)
        then None else Some entry
    | None => None
    end.
Proof.
  rewrite lookup_after_sweep.
  destruct (store !! k) as [entry|] eqn:Hk.
  - destruct (JS.startsWith k Cache.CACHE_PREFIX
              && (Cache.expiresAt entry <? now)) eqn:Hrm.
    + rewrite decide_True; [done|].
      apply elem_of_keysToRemove. eauto.
    + rewrite decide_False; [done|].
      intros (entry' & Hk' & Hrm')%elem_of_keysToRemove.
      unfold Cache.to_remove in Hrm'. simplify_eq/=. congruence.
  - by case_decide.
Qed.

Section ListingFacts.

Import Cache.

Lemma insert_newest_first_perm (s : Types.Summary) (l : list Types.Summary) :
  insert_newest_first s l ≡ₚ s :: l.
Proof.
  induction l as [|x l IH]; cbn [insert_newest_first]; [done|].
  destruct (Types.timestamp x <? Types.timestamp s); [done|].
  rewrite IH. apply Permutation_swap.
Qed.

Lemma sort_newest_first_perm (l : list Types.Summary) :
  sort_newest_first l ≡ₚ l.
Proof.
  unfold sort_newest_first.
  assert (∀ acc, foldl (λ acc s, insert_newest_first s acc) acc l ≡ₚ l ++ acc)
    as Hgen.
  { induction l as [|x l IH]; intros acc; cbn [foldl]; [done|].
    rewrite IH, insert_newest_first_perm. cbn [app].
    by rewrite Permutation_middle. }
  by rewrite Hgen, app_nil_r.
Qed.

Lemma visit_collects (clock : string → Z) (l : list (string * CacheEntry))
    (acc : list Types.Summary * gmap string CacheEntry) :
  (foldl (visit clock) acc l).1
  = acc.1 ++ ((λ kv, data kv.2) <$> filter (λ kv, listed clock kv) l).
Proof.
  revert acc. induction l as [|kv l IH]; intros acc; cbn [foldl].
  - by rewrite filter_nil, app_nil_r.
  - rewrite IH. unfold visit.
    destruct (JS.startsWith kv.1 SUMMARY_PREFIX) eqn:Hp.
    + destruct (clock kv.1 <? expiresAt kv.2) eqn:Hv.
      * rewrite filter_cons_True; [|unfold listed; by rewrite Hp, Hv].
        cbn [fst]. rewrite fmap_cons, <- app_assoc. done.
      * rewrite filter_cons_False; [done|].
        unfold listed. rewrite Hp, Hv. cbn. tauto.
    + rewrite filter_cons_False; [done|].
      unfold listed. rewrite Hp. cbn. tauto.
Qed.

(** The loop of [getAllSummaries] only ever removes keys that start with
    [SUMMARY_PREFIX]. *)
Lemma visit_frames (clock : string → Z) (l : list (string * CacheEntry))
    (acc : list Types.Summary * gmap string CacheEntry) (k : string) :
  JS.startsWith k SUMMARY_PREFIX = false →
  (foldl (visit clock) acc l).2 !! k = acc.2 !! k.
Proof.
  intros Hk. revert acc.
  induction l as [|kv l IH]; intros acc; cbn [foldl]; [done|].
  rewrite IH. unfold visit.
  destruct (JS.startsWith kv.1 SUMMARY_PREFIX) eqn:Hp; [|done].
  destruct (clock kv.1 <? expiresAt kv.2); [done|].
  cbn [snd]. unfold remove. apply lookup_delete_ne. congruence.
Qed.

Lemma getAllSummaries_provenance (clock : string → Z)
    (store : gmap string CacheEntry) (x : Types.Summary) :
  x ∈ (getAllSummaries clock store).1 →
  ∃ k entry, store !! k = Some entry ∧ data entry = x
    ∧ JS.startsWith k SUMMARY_PREFIX = true ∧ clock k < expiresAt entry.
Proof.
  unfold getAllSummaries. cbn [fst].
  rewrite sort_newest_first_perm, visit_collects. cbn [fst app].
  intros ([k entry] & -> & Hin)%list_elem_of_fmap.
  apply list_elem_of_filter in Hin as [Hlisted Hin].
  apply elem_of_map_to_list in Hin.
  apply Is_true_true, andb_true_iff in Hlisted as [Hp Hv].
  exists k, entry. repeat split; [done..|]. by apply Z.ltb_lt.
Qed.

End ListingFacts.

(** C10: [setSummary] and [getSummary] use keys that start with
    [yt_summary_], [removeSummary] and [getAllSummaries] keys that start
    with [summary_].  Hence, for every store and video: [removeSummary]
    leaves every [yt_summary_] entry as it is, in particular the one just
    written by [setSummary] for the same video; every summary that
    [getAllSummaries] returns after a [setSummary] is the data of a live
    entry that was already in the store under a [summary_] key; and
    [getAllSummaries] leaves the [yt_summary_] entries as they are,
    whatever the clock reads while it tests the entries. *)
Theorem summary_key_families_do_not_meet
    (store : gmap string Cache.CacheEntry) (v v' : string)
    (s : Types.Summary) (t0 : Z) (clock : string → Z) :
  Cache.removeSummary v' store !! (Cache.CACHE_PREFIX +:+ v)
    = store !! (Cache.CACHE_PREFIX +:+ v)
  ∧ Cache.removeSummary v (Cache.setSummary v s t0 store)
      !! (Cache.CACHE_PREFIX +:+ v)
    = Some {| Cache.data := s;
              Cache.expiresAt := t0 + Cache.CACHE_DURATION |}
  ∧ (∀ x, x ∈ (Cache.getAllSummaries clock
                  (Cache.setSummary v s t0 store)).1 →
       ∃ k entry,
         store !! k = Some entry ∧ Cache.data entry = x
         ∧ JS.startsWith k Cache.SUMMARY_PREFIX = true
         ∧ k ≠ Cache.CACHE_PREFIX +:+ v)
  ∧ (Cache.getAllSummaries clock store).2 !! (Cache.CACHE_PREFIX +:+ v)
    = store !! (Cache.CACHE_PREFIX +:+ v).
Proof.
  assert (∀ (m : gmap string Cache.CacheEntry) u,
            Cache.removeSummary u m !! (Cache.CACHE_PREFIX +:+ v)
            = m !! (Cache.CACHE_PREFIX +:+ v)) as Hremove.
  { intros m u. unfold Cache.removeSummary, Cache.remove.
    apply lookup_delete_ne, summary_key_not_cache_key. }
  split; [apply Hremove|].
  split.
  { rewrite Hremove. unfold Cache.setSummary. apply lookup_insert_eq. }
  split.
  - intros x Hx.
    apply getAllSummaries_provenance in Hx
      as (k & entry & Hk & Hdata & Hprefix & _).
    assert (k ≠ Cache.CACHE_PREFIX +:+ v) as Hne.
    { intros ->. by rewrite cache_key_not_summary_prefixed in Hprefix. }
    unfold Cache.setSummary in Hk. rewrite lookup_insert_ne in Hk by done.
    eauto 10.
  - unfold Cache.getAllSummaries. cbn [snd].
    by rewrite visit_frames by apply cache_key_not_summary_prefixed.
Qed.

(** ** Export *)

Section TrimFacts.

Lemma trimEnd_app (a b : string) :
  JS.trimEnd (a +:+ b)
  = if decide (JS.trimEnd b = "") then JS.trimEnd a else a +:+ JS.trimEnd b.
Proof.
  induction a as [|c a IH].
  - change ("" +:+ b) with b. change ("" +:+ JS.trimEnd b) with (JS.trimEnd b).
    by case_decide.
  - change (String c a +:+ b) with (String c (a +:+ b)).
    cbn [JS.trimEnd]. rewrite IH.
    case_decide as Hb; [done|].
    change (String c a +:+ JS.trimEnd b) with (String c (a +:+ JS.trimEnd b)).
    destruct a as [|c' a]; [|done].
    change ("" +:+ JS.trimEnd b) with (JS.trimEnd b).
    by destruct (JS.trimEnd b).
Qed.

Lemma trimEnd_keeps_prefix (a b : string) :
  JS.trimEnd b ≠ "" → JS.trimEnd (a +:+ b) = a +:+ JS.trimEnd b.
Proof. intros Hb. rewrite trimEnd_app. by rewrite decide_False. Qed.

Lemma trimEnd_nonblank_app (a b : string) :
  JS.trimEnd b ≠ "" → JS.trimEnd (a +:+ b) ≠ "".
Proof.
  intros Hb. rewrite trimEnd_keeps_prefix by done.
  destruct a; [done|discriminate].
Qed.

Lemma trimEnd_visible (c : ascii) (s : string) :
  JS.is_ws c = false → JS.trimEnd (String c s) ≠ "".
Proof.
  intros Hc. cbn [JS.trimEnd]. rewrite Hc. by destruct (JS.trimEnd s).
Qed.

Lemma string_app_empty_r (s : string) : s +:+ "" = s.
Proof.
  induction s as [|c s IH]; [done|].
  change (String c (s +:+ "") = String c s). by rewrite IH.
Qed.

Lemma app_assoc_string (a b c : string) :
  (a +:+ b) +:+ c = a +:+ (b +:+ c).
Proof.
  induction a as [|x a IH]; [done|].
  change (String x ((a +:+ b) +:+ c) = String x (a +:+ b +:+ c)).
  by rewrite IH.
Qed.

(** Trimming after a heading: the heading stays, what follows is trimmed. *)
Lemma trimEnd_after_heading (tail : string) :
  JS.trimEnd ("## Full Summary" +:+ tail)
  = "## Full Summary" +:+ JS.trimEnd tail.
Proof.
  rewrite trimEnd_app. case_decide as Ht; [|done].
  rewrite Ht. by rewrite string_app_empty_r.
Qed.

Lemma trimEnd_heading_nonblank (tail : string) :
  JS.trimEnd ("## Full Summary" +:+ tail) ≠ "".
Proof. by apply trimEnd_visible. Qed.

End TrimFacts.

(** Walks down a right-nested concatenation that ends in the last heading. *)
Ltac nonblank_up_to_heading :=
  first [ apply trimEnd_heading_nonblank
        | apply trimEnd_nonblank_app; nonblank_up_to_heading ].

Ltac trim_up_to_heading :=
  repeat (rewrite trimEnd_keeps_prefix;
          [apply (f_equal (String.append _)) | nonblank_up_to_heading]);
  apply trimEnd_after_heading.

Section SplitFacts.

Lemma split_without_separator (sep : ascii) (s : string) :
  JS.includes s sep = false → JS.split sep s = [s].
Proof.
  induction s as [|c s IH]; cbn [JS.includes JS.split]; [done|].
  intros [Hc Hs]%orb_false_iff. rewrite Hc. by rewrite IH.
Qed.

Lemma split_at_separator (sep : ascii) (a b : string) :
  JS.includes a sep = false →
  JS.split sep (a +:+ String sep b) = a :: JS.split sep b.
Proof.
  induction a as [|c a IH]; cbn [JS.includes].
  - intros _. change ("" +:+ String sep b) with (String sep b).
    cbn [JS.split]. by rewrite Ascii.eqb_refl.
  - intros [Hc Ha]%orb_false_iff.
    change (String c a +:+ String sep b) with (String c (a +:+ String sep b)).
    cbn [JS.split]. by rewrite Hc, IH.
Qed.

Lemma includes_app (a b : string) (c : ascii) :
  JS.includes (a +:+ b) c = JS.includes a c || JS.includes b c.
Proof.
  induction a as [|x a IH]; [done|].
  change (String x a +:+ b) with (String x (a +:+ b)).
  cbn [JS.includes]. by rewrite IH, orb_assoc.
Qed.

(** Two pieces without the separator, joined by it, split back in two. *)
Lemma split_join_pair (sep : ascii) (a b : string) :
  JS.includes a sep = false → JS.includes b sep = false →
  JS.split sep (a +:+ String sep "" +:+ b) = [a; b].
Proof.
  intros Ha Hb. change (String sep "" +:+ b) with (String sep b).
  by rewrite split_at_separator, split_without_separator.
Qed.

End SplitFacts.

Section ExportTail.

(** The end of an export: the template closes with a line break and four
    spaces, which [trim] removes together with the white space that ends
    the content. *)
Lemma trimEnd_content_tail (content : string) :
  JS.trimEnd (JS.nl +:+ content +:+ JS.nl +:+ "    ")
  = if decide (JS.trimEnd content = "") then ""
    else JS.nl +:+ JS.trimEnd content.
Proof.
  rewrite (trimEnd_app JS.nl), (trimEnd_app content).
  change (JS.trimEnd (JS.nl +:+ "    ")) with "".
  rewrite (decide_True (P := "" = "")) by done.
  by case_decide.
Qed.

Lemma exportAsMarkdown_layout (toLocaleString : Z → string)
    (summary : Types.Summary) :
  Exporter.exportAsMarkdown toLocaleString summary
  = Exporter.preamble toLocaleString summary
    +:+ "## Key Points" +:+ JS.nl
    +:+ JS.join JS.nl (Exporter.bullet <$> Types.keyPoints summary) +:+ JS.nl
    +:+ JS.nl +:+ "## Topics" +:+ JS.nl
    +:+ JS.join " " (Exporter.code <$> Types.topics summary) +:+ JS.nl
    +:+ JS.nl +:+ "## Full Summary"
    +:+ JS.trimEnd (JS.nl +:+ Types.content summary +:+ JS.nl +:+ "    ").
Proof.
  unfold Exporter.exportAsMarkdown, Exporter.preamble, JS.trim.
  change (JS.trimStart (JS.nl +:+ "# Video Summary" +:+ ?rest))
    with ("# Video Summary" +:+ rest).
  rewrite ?app_assoc_string.
  trim_up_to_heading.
Qed.

End ExportTail.

(** C9: for a summary with exactly two key points and two topics, the
    markdown export is the metadata, then the "## Key Points" heading
    followed by the key points section, then the "## Topics" heading
    followed by the topics section, then the "## Full Summary" heading
    followed by the content without the white space at its end.  The key
    points section is "* " and the first key point, a line break, "* " and
    the second key point: exactly two lines, both bulleted, when the key
    points hold no line feed.  The topics section is the two topics, each
    between backticks, separated by one space: exactly two inline-code
    spans, the two topics, when the topics hold no backtick (they may hold
    spaces). *)
Theorem markdown_export_two_points_two_topics
    (toLocaleString : Z → string) (exportAsText : Types.Summary → string)
    (summary : Types.Summary) (p1 p2 t1 t2 : string) :
  Types.keyPoints summary = [p1; p2] →
  Types.topics summary = [t1; t2] →
  let points := JS.join JS.nl (Exporter.bullet <$> Types.keyPoints summary) in
  let tokens := JS.join " " (Exporter.code <$> Types.topics summary) in
  Exporter.handleExportSummary toLocaleString exportAsText summary "markdown"
  = Types.succeed
      (Exporter.preamble toLocaleString summary
       +:+ "## Key Points" +:+ JS.nl +:+ points +:+ JS.nl
       +:+ JS.nl +:+ "## Topics" +:+ JS.nl +:+ tokens +:+ JS.nl
       +:+ JS.nl +:+ "## Full Summary"
       +:+ (if decide (JS.trimEnd (Types.content summary) = "") then ""
            else JS.nl +:+ JS.trimEnd (Types.content summary)))
  ∧ points = ("* " +:+ p1) +:+ JS.nl +:+ ("* " +:+ p2)
  ∧ tokens = ("`" +:+ t1 +:+ "`") +:+ " " +:+ ("`" +:+ t2 +:+ "`")
  ∧ (JS.includes p1 JS.newline = false → JS.includes p2 JS.newline = false →
     JS.split JS.newline points = ["* " +:+ p1; "* " +:+ p2])
  ∧ (JS.includes t1 "`" = false → JS.includes t2 "`" = false →
     Markdown.code_spans tokens = [t1; t2]).
Proof.
  intros Hpoints Htopics points tokens.
  assert (points = ("* " +:+ p1) +:+ JS.nl +:+ ("* " +:+ p2)) as Hp.
  { unfold points. by rewrite Hpoints. }
  assert (tokens = ("`" +:+ t1 +:+ "`") +:+ " " +:+ ("`" +:+ t2 +:+ "`"))
    as Ht.
  { unfold tokens. by rewrite Htopics. }
  split; [|split; [done|split; [done|split]]].
  - unfold Exporter.handleExportSummary. rewrite decide_True by done.
    f_equal. rewrite exportAsMarkdown_layout, trimEnd_content_tail.
    reflexivity.
  - intros H1 H2. rewrite Hp. by apply split_join_pair.
  - intros H1 H2. rewrite Ht. unfold Markdown.code_spans.
    rewrite !app_assoc_string.
    change ("`" +:+ t1 +:+ "`" +:+ " " +:+ "`" +:+ t2 +:+ "`")
      with ("" +:+ String "`" (t1 +:+ "`" +:+ " " +:+ "`" +:+ t2 +:+ "`")).
    rewrite split_at_separator by done.
    change (t1 +:+ "`" +:+ " " +:+ "`" +:+ t2 +:+ "`")
      with (t1 +:+ String "`" (" " +:+ String "`" (t2 +:+ String "`" ""))).
    rewrite split_at_separator by done.
    rewrite (split_at_separator "`" " ") by done.
    rewrite split_at_separator by done.
    reflexivity.
Qed.

Lemma markdown_export_two_points_two_topics_witness :
  JS.split JS.newline
    (JS.join JS.nl
       (Exporter.bullet <$> Types.keyPoints Scenarios.sample_summary))
  = ["* Proofs are programs"; "* Specifications drift"]
  ∧ Markdown.code_spans
      (JS.join " " (Exporter.code <$> Types.topics Scenarios.sample_summary))
    = ["verification"; "software"].
Proof.
  pose proof (markdown_export_two_points_two_topics
                (λ _, "1/1/2024, 10:00:00 AM") (λ _, "")
                Scenarios.sample_summary
                _ _ _ _ eq_refl eq_refl) as (_ & _ & _ & Hlines & Htokens).
  split; [exact (Hlines eq_refl eq_refl)|exact (Htokens eq_refl eq_refl)].
Defined.

(** The claim as the specification words it, for every summary with two
    key points, fails when a key point holds a line feed: the export of two
    key points then has three bulleted lines under "## Key Points". *)
Lemma line_feed_in_key_point_adds_bulleted_line :
  length (Types.keyPoints Samples.summary_with_line_feed) = 2%nat
  ∧ length (Types.topics Samples.summary_with_line_feed) = 2%nat
  ∧ ∃ exported,
      Exporter.handleExportSummary (λ _, "1/1/2024, 10:00:00 AM") (λ _, "")
        Samples.summary_with_line_feed "markdown"
      = Types.succeed exported
      ∧ JS.split JS.newline exported
        = ["# Video Summary"; ""; "## Metadata"; "- **Video ID**: abc";
           "- **Generated**: 1/1/2024, 10:00:00 AM"; "";
           "## Key Points"; "* a"; "* b"; "* c"; "";
           "## Topics"; "`formal methods` `software`"; "";
           "## Full Summary"; "Two points."].
Proof.
  split; [done|]. split; [done|].
  eexists. split; [reflexivity|]. vm_compute. reflexivity.
Qed.

(** ** The coordinator *)

Section CoordinatorFacts.

Import Coordinator.

Lemma ops_of_acquire (r' r : nat) (v : string) (st : State) :
  ops_of r' (acquire r v st)
  = ops_of r' st ++ (if decide (r = r') then [Add v] else []).
Proof.
  unfold ops_of, acquire. cbn [setOps]. rewrite omap_app. f_equal.
  cbn. by case_decide.
Qed.

Lemma ops_of_release (r' r : nat) (v : string)
    (response : Types.APIResponse Types.Summary) (st : State) :
  ops_of r' (release r v response st)
  = ops_of r' st ++ (if decide (r = r') then [Delete v] else []).
Proof.
  unfold ops_of, release. cbn [setOps]. rewrite omap_app. f_equal.
  cbn. by case_decide.
Qed.

Lemma consistent_init (store : gmap string Cache.CacheEntry) :
  consistent (init store).
Proof.
  split; cbn.
  - intros r req Hr. by rewrite lookup_nil in Hr.
  - done.
  - intros v Hv. by apply not_elem_of_empty in Hv.
Qed.

Lemma consistent_with_store (store' : gmap string Cache.CacheEntry)
    (st : State) :
  consistent st → consistent (with_store store' st).
Proof. intros [Hknown Hunknown Hheld]. by split. Qed.

Lemma consistent_issue (v : string) (st : State) :
  consistent st → consistent (step st (Issue v)).
Proof.
  intros [Hknown Hunknown Hheld]. split; cbn.
  - intros r req Hr. apply lookup_app_Some in Hr as [Hr|[Hlen Hr]].
    + by apply Hknown.
    + apply list_lookup_singleton_Some in Hr as [_ <-]. cbn.
      change (ops_of r st = []). apply Hunknown.
      apply lookup_ge_None. lia.
  - intros r Hr. change (ops_of r st = []). apply Hunknown.
    apply lookup_ge_None. apply lookup_ge_None in Hr.
    rewrite length_app in Hr. lia.
  - intros v' Hv'. destruct (Hheld v' Hv') as (r & req & Hr & Hreq).
    exists r, req. split; [|done]. by apply lookup_app_l_Some.
Qed.

(** Moving a request to another stage without touching the set. *)
Lemma consistent_suspend (r : nat) (req : Request) (s : Stage) (st : State) :
  consistent st →
  requests st !! r = Some req →
  ops_shape (videoId req) s (ops_of r st) →
  (holding (stage req) = true → holding s = true) →
  consistent (suspend r (videoId req) s st).
Proof.
  intros [Hknown Hunknown Hheld] Hr Hshape Hhold.
  pose proof (lookup_lt_Some _ _ _ Hr) as Hlt.
  split; cbn.
  - intros r' req' Hr'. change (ops_of r' (suspend _ _ _ st)) with (ops_of r' st).
    destruct (decide (r = r')) as [<-|Hne].
    + rewrite list_lookup_insert_eq in Hr' by done. by simplify_eq/=.
    + rewrite list_lookup_insert_ne in Hr' by done. by apply Hknown.
  - intros r' Hr'. change (ops_of r' (suspend _ _ _ st)) with (ops_of r' st).
    apply Hunknown. apply lookup_ge_None. apply lookup_ge_None in Hr'.
    by rewrite length_insert in Hr'.
  - intros v Hv. destruct (Hheld v Hv) as (r' & req' & Hr' & Hv' & Hh).
    destruct (decide (r = r')) as [<-|Hne].
    + simplify_eq. eexists r, _. rewrite list_lookup_insert_eq by done.
      split; [done|]. cbn. split; [done|]. by apply Hhold.
    + exists r', req'. by rewrite list_lookup_insert_ne.
Qed.

(** The [add]: the request starts holding its video. *)
Lemma consistent_acquire (r : nat) (req : Request) (st : State) :
  consistent st →
  requests st !! r = Some req →
  stage req = AwaitCacheRead →
  consistent (acquire r (videoId req) st).
Proof.
  intros [Hknown Hunknown Hheld] Hr Hstage.
  pose proof (lookup_lt_Some _ _ _ Hr) as Hlt.
  pose proof (Hknown r req Hr) as Hops. rewrite Hstage in Hops. cbn in Hops.
  split.
  - intros r' req' Hr'. rewrite ops_of_acquire. cbn in Hr'.
    destruct (decide (r = r')) as [<-|Hne].
    + rewrite list_lookup_insert_eq in Hr' by done. simplify_eq/=.
      by rewrite Hops.
    + rewrite list_lookup_insert_ne in Hr' by done.
      rewrite app_nil_r. by apply Hknown.
  - intros r' Hr'. rewrite ops_of_acquire. cbn in Hr'.
    apply lookup_ge_None in Hr'. rewrite length_insert in Hr'.
    rewrite decide_False by lia. rewrite app_nil_r.
    apply Hunknown. by apply lookup_ge_None.
  - intros v Hv. cbn in Hv. cbn [requests acquire].
    apply elem_of_union in Hv as [->%elem_of_singleton|Hv].
    + eexists r, _. rewrite list_lookup_insert_eq by done. done.
    + destruct (Hheld v Hv) as (r' & req' & Hr' & Hreq' & Hh).
      exists r', req'. rewrite list_lookup_insert_ne; [done|].
      intros <-. simplify_eq. by rewrite Hstage in Hh.
Qed.

(** The [finally] block: the request stops holding its video. *)
Lemma consistent_release (r : nat) (req : Request)
    (response : Types.APIResponse Types.Summary) (st : State) :
  consistent st →
  requests st !! r = Some req →
  holding (stage req) = true →
  consistent (release r (videoId req) response st).
Proof.
  intros [Hknown Hunknown Hheld] Hr Hstage.
  pose proof (lookup_lt_Some _ _ _ Hr) as Hlt.
  pose proof (Hknown r req Hr) as Hops.
  assert (ops_of r st = [Add (videoId req)]) as Hadd.
  { by destruct (stage req). }
  split.
  - intros r' req' Hr'. rewrite ops_of_release. cbn in Hr'.
    destruct (decide (r = r')) as [<-|Hne].
    + rewrite list_lookup_insert_eq in Hr' by done. simplify_eq/=.
      rewrite Hadd. by right.
    + rewrite list_lookup_insert_ne in Hr' by done.
      rewrite app_nil_r. by apply Hknown.
  - intros r' Hr'. rewrite ops_of_release. cbn in Hr'.
    apply lookup_ge_None in Hr'. rewrite length_insert in Hr'.
    rewrite decide_False by lia. rewrite app_nil_r.
    apply Hunknown. by apply lookup_ge_None.
  - intros v Hv. cbn in Hv. cbn [requests release].
    apply elem_of_difference in Hv as [Hv Hne].
    destruct (Hheld v Hv) as (r' & req' & Hr' & Hreq' & Hh).
    exists r', req'. rewrite list_lookup_insert_ne; [done|].
    intros <-. simplify_eq. by apply Hne, elem_of_singleton.
Qed.

Lemma consistent_resume (r : nat) (req : Request) (input : Input)
    (st : State) :
  consistent st →
  requests st !! r = Some req →
  consistent (resume r req input st).
Proof.
  intros Hc Hr.
  pose proof (journal_known st Hc r req Hr) as Hops.
  unfold resume.
  destruct (stage req) as [| | |result|response] eqn:Hstage;
    destruct input as [[key|message]|now|[result'|message]|now [u|message]];
    cbn in Hops; try done.
  - (* the API key arrived *)
    destruct (Gemini.truthy key); [case_decide|];
      apply consistent_suspend; rewrite ?Hstage; cbn; auto.
  - (* reading the API key failed *)
    apply consistent_suspend; rewrite ?Hstage; cbn; auto.
  - (* the cache answered *)
    destruct (Cache.getSummary (videoId req) now (store st)).1.
    + apply consistent_suspend;
        [by apply consistent_with_store|done|cbn; auto|by rewrite Hstage].
    + apply consistent_acquire; [by apply consistent_with_store|done..].
  - (* the summarization client answered *)
    destruct (Types.success result'
              && bool_decide (is_Some (Types.data result'))).
    + apply consistent_suspend; rewrite ?Hstage; cbn; auto.
    + apply consistent_release; [done..|by rewrite Hstage].
  - (* the summarization client threw *)
    apply consistent_release; [done..|by rewrite Hstage].
  - (* the cache write came back *)
    destruct (Types.data result).
    + apply consistent_release;
        [by apply consistent_with_store|done|by rewrite Hstage].
    + apply consistent_release; [done..|by rewrite Hstage].
  - (* the cache write threw *)
    apply consistent_release; [done..|by rewrite Hstage].
Qed.

Lemma consistent_step (st : State) (e : Event) :
  consistent st → consistent (step st e).
Proof.
  intros Hc. destruct e as [v|r input].
  - by apply consistent_issue.
  - cbn. destruct (requests st !! r) as [req|] eqn:Hr; [|done].
    by apply consistent_resume.
Qed.

Lemma consistent_run (events : list Event) (st : State) :
  consistent st → consistent (run events st).
Proof.
  revert st. induction events as [|e events IH]; intros st Hc; [done|].
  cbn. apply IH. by apply consistent_step.
Qed.

(** The [finally] block of a request that holds its video: the request
    returns, the video is out of the set, and the journal of the request is
    its [add] followed by its [delete]. *)
Lemma release_returns (r : nat) (v : string)
    (response : Types.APIResponse Types.Summary) (st : State) :
  (r < length (requests st))%nat →
  ops_of r st = [Add v] →
  requests (release r v response st) !! r
    = Some {| videoId := v; stage := Resolved response |}
  ∧ (v ∉ processingVideos (release r v response st))
  ∧ ops_of r (release r v response st) = [Add v; Delete v].
Proof.
  intros Hr Hops. split; [|split].
  - cbn [release requests]. by apply list_lookup_insert_eq.
  - cbn [release processingVideos].
    rewrite elem_of_difference, elem_of_singleton. tauto.
  - rewrite ops_of_release, Hops. by rewrite decide_True.
Qed.

(** When the promise awaited by a request that holds its video settles,
    the request either returns through the [finally] block, or it was the
    summarization that succeeded and the request goes on to the cache
    write. *)
Lemma holder_leaves (r : nat) (req : Request) (input : Input) (st : State) :
  requests st !! r = Some req →
  ops_of r st = [Add (videoId req)] →
  holding (stage req) = true →
  settles (stage req) input = true →
  let st' := step st (Resume r input) in
  (∃ response,
      requests st' !! r
        = Some {| videoId := videoId req; stage := Resolved response |}
      ∧ (videoId req ∉ processingVideos st')
      ∧ ops_of r st' = [Add (videoId req); Delete (videoId req)])
  ∨ (∃ result,
       stage req = AwaitSummarize
       ∧ input = Summarized (Fulfilled result)
       ∧ Types.success result = true
       ∧ is_Some (Types.data result)
       ∧ requests st' !! r
         = Some {| videoId := videoId req; stage := AwaitCacheWrite result |}
       ∧ processingVideos st' = processingVideos st).
Proof.
  intros Hr Hops Hholding Hsettles. cbn [step]. rewrite Hr.
  pose proof (lookup_lt_Some _ _ _ Hr) as Hlt.
  destruct req as [v stage0]. cbn [videoId stage] in *.
  unfold resume. cbn [videoId stage].
  destruct stage0 as [| | |result|response]; try done;
    destruct input as [o|now|o|now o]; try done.
  - destruct o as [result|message].
    + destruct (Types.success result
                && bool_decide (is_Some (Types.data result))) eqn:Hgood.
      * right. exists result.
        apply andb_true_iff in Hgood as [Hsuccess Hdata].
        apply bool_decide_eq_true in Hdata.
        split; [done|]. split; [done|]. split; [done|]. split; [done|].
        split; [|done]. cbn [suspend requests].
        by apply list_lookup_insert_eq.
      * left. exists result. by apply release_returns.
    + left. eexists. by apply release_returns.
  - destruct o as [[]|message].
    + destruct (Types.data result) as [summary|].
      * left. exists result. by apply release_returns.
      * left. exists result. by apply release_returns.
    + left. eexists. by apply release_returns.
Qed.

(** X12: the membership test.  A call that resumes from the read of the API
    key while its video is in the processing set returns the "Video is
    already being processed" failure, invokes no summarization and leaves
    the set as it is. *)
Lemma already_processing_gate (r : nat) (v key : string) (st : State) :
  requests st !! r = Some {| videoId := v; stage := AwaitApiKey |} →
  key ≠ "" →
  v ∈ processingVideos st →
  let st' := step st (Resume r (ApiKeyRead (Fulfilled (Some key)))) in
  requests st' !! r
    = Some {| videoId := v;
              stage := Resolved
                         (Types.fail "Video is already being processed") |}
  ∧ summarizeCalls st' = summarizeCalls st
  ∧ processingVideos st' = processingVideos st.
Proof.
  intros Hr Hkey Hv. cbn. rewrite Hr. unfold resume. cbn.
  destruct key as [|c key]; [done|]. cbn.
  rewrite decide_True by done. cbn.
  rewrite list_lookup_insert_eq; [done|]. by eapply lookup_lt_Some.
Qed.

End CoordinatorFacts.

(** C2: along every run of the service, from any store, with any
    interleaving of requests and any outcome of the awaited calls
    (success, failure result, or exception), each request's calls on the
    processing set are: none before its [add]; the [add] alone while it
    awaits the summarization or the cache write; and, once it has returned,
    either none or exactly one [add] followed by exactly one [delete] of its
    video.  A video is in the set only while some request that added it has
    not yet returned, so once all requests have returned the set is empty.
    And every exit path goes through the [delete]: whenever the promise
    awaited by a request that holds its video settles, in whatever way,
    the request returns at once with its video out of the set and its
    journal being the [add] and the [delete]; the only exception is a
    summarization that succeeded with data, after which the request awaits
    the cache write, and returns in the same way when that settles. *)
Theorem processing_set_released_on_every_path
    (store : gmap string Cache.CacheEntry) (events : list Coordinator.Event) :
  let st := Coordinator.run events (Coordinator.init store) in
  (∀ r req, Coordinator.requests st !! r = Some req →
     Coordinator.ops_shape (Coordinator.videoId req) (Coordinator.stage req)
       (Coordinator.ops_of r st))
  ∧ (∀ v, v ∈ Coordinator.processingVideos st →
       ∃ r req, Coordinator.requests st !! r = Some req
         ∧ Coordinator.videoId req = v
         ∧ Coordinator.holding (Coordinator.stage req) = true)
  ∧ ((∀ r req, Coordinator.requests st !! r = Some req →
        Coordinator.in_flight (Coordinator.stage req) = false) →
     Coordinator.processingVideos st = ∅)
  ∧ (∀ r req input,
       Coordinator.requests st !! r = Some req →
       Coordinator.holding (Coordinator.stage req) = true →
       Coordinator.settles (Coordinator.stage req) input = true →
       let v := Coordinator.videoId req in
       let st' := Coordinator.step st (Coordinator.Resume r input) in
       (∃ response,
           Coordinator.requests st' !! r
             = Some {| Coordinator.videoId := v;
                       Coordinator.stage := Coordinator.Resolved response |}
           ∧ (v ∉ Coordinator.processingVideos st')
           ∧ Coordinator.ops_of r st'
             = [Coordinator.Add v; Coordinator.Delete v])
       ∨ (∃ result,
            Coordinator.stage req = Coordinator.AwaitSummarize
            ∧ input = Coordinator.Summarized (Coordinator.Fulfilled result)
            ∧ Types.success result = true
            ∧ is_Some (Types.data result)
            ∧ Coordinator.requests st' !! r
              = Some {| Coordinator.videoId := v;
                        Coordinator.stage :=
                          Coordinator.AwaitCacheWrite result |}
            ∧ Coordinator.processingVideos st'
              = Coordinator.processingVideos st)).
Proof.
  intros st.
  assert (Coordinator.consistent st) as [Hknown _ Hheld].
  { apply consistent_run, consistent_init. }
  split; [done|]. split; [done|]. split.
  - intros Hreturned. apply leibniz_equiv, elem_of_equiv_empty. intros v Hv.
    destruct (Hheld v Hv) as (r & req & Hr & _ & Hholding).
    specialize (Hreturned r req Hr).
    by destruct (Coordinator.stage req).
  - intros r req input Hr Hholding Hsettles v st'.
    apply holder_leaves; [done| |done|done].
    specialize (Hknown r req Hr).
    by destruct (Coordinator.stage req).
Qed.

Lemma processing_set_released_on_every_path_witness :
  let st := Coordinator.run
              (Flows.arrival 0 "abc" "AIza-key"
               ++ [Coordinator.Resume 0 (Coordinator.CacheRead 1700000000000)])
              (Coordinator.init ∅) in
  let st' := Coordinator.step st
               (Coordinator.Resume 0
                  (Coordinator.Summarized
                     (Coordinator.Rejected "Failed to fetch"))) in
  "abc" ∈ Coordinator.processingVideos st
  ∧ ("abc" ∉ Coordinator.processingVideos st')
  ∧ Coordinator.ops_of 0 st'
    = [Coordinator.Add "abc"; Coordinator.Delete "abc"].
Proof.
  intros st st'. split.
  { apply elem_of_union. left. by apply elem_of_singleton. }
  pose proof (processing_set_released_on_every_path ∅
                (Flows.arrival 0 "abc" "AIza-key"
                 ++ [Coordinator.Resume 0
                       (Coordinator.CacheRead 1700000000000)]))
    as (_ & _ & _ & Hleaves).
  destruct (Hleaves 0%nat
              {| Coordinator.videoId := "abc";
                 Coordinator.stage := Coordinator.AwaitSummarize |}
              (Coordinator.Summarized (Coordinator.Rejected "Failed to fetch"))
              eq_refl eq_refl eq_refl)
    as [(response & _ & Hout & Hops)|(result & _ & Hinput & _)].
  - split; [exact Hout|exact Hops].
  - discriminate Hinput.
Defined.

(** C1: the code at two overlapping requests for one video.  When the
    second message arrives the first call has begun and not returned, but
    has not yet reached its [add]: the set is empty.  Both calls pass the
    membership test, both invoke the summarization client, and both return
    a summary: the second is not refused. *)
Theorem overlapping_requests_both_summarize :
  let st0 := Coordinator.run Scenarios.first_request_started
               (Coordinator.init ∅) in
  let st := Coordinator.run Scenarios.overlapping_requests
              (Coordinator.init ∅) in
  let st' := Coordinator.run Scenarios.overlapping_requests_completed
               (Coordinator.init ∅) in
  Coordinator.requests st0
    = [ {| Coordinator.videoId := "abc";
           Coordinator.stage := Coordinator.AwaitCacheRead |} ]
  ∧ Coordinator.processingVideos st0 = ∅
  ∧ Coordinator.requests st
    = [ {| Coordinator.videoId := "abc";
           Coordinator.stage := Coordinator.AwaitSummarize |};
        {| Coordinator.videoId := "abc";
           Coordinator.stage := Coordinator.AwaitSummarize |} ]
  ∧ Coordinator.summarizers_of "abc" st = [0; 1]%nat
  ∧ Coordinator.requests st'
    = [ {| Coordinator.videoId := "abc";
           Coordinator.stage :=
             Coordinator.Resolved (Types.succeed Scenarios.sample_summary) |};
        {| Coordinator.videoId := "abc";
           Coordinator.stage :=
             Coordinator.Resolved (Types.succeed Scenarios.sample_summary) |} ]
  ∧ Coordinator.summarizers_of "abc" st' = [0; 1]%nat.
Proof. vm_compute. repeat split. Qed.

(** ** Chunking *)

Section ChunkingFacts.

Import Chunking.

Lemma length_app_string (a b : string) :
  String.length (a +:+ b) = (String.length a + String.length b)%nat.
Proof.
  induction a as [|c a IH]; [done|].
  change (S (String.length (a +:+ b)) = S (String.length a + String.length b)).
  by rewrite IH.
Qed.

Lemma split_nonempty (sep : ascii) (s : string) : JS.split sep s ≠ [].
Proof.
  induction s as [|c s IH]; cbn [JS.split]; [done|].
  destruct (Ascii.eqb c sep); [done|]. by destruct (JS.split sep s).
Qed.

Lemma join_cons_char (sep : string) (c : ascii) (w : string)
    (ws : list string) :
  JS.join sep (String c w :: ws) = String c (JS.join sep (w :: ws)).
Proof. by destruct ws. Qed.

(** [s.split(c).join(c)] gives [s] back. *)
Lemma join_split (sep : ascii) (s : string) :
  JS.join (String sep "") (JS.split sep s) = s.
Proof.
  induction s as [|c s IH]; cbn [JS.split]; [done|].
  destruct (Ascii.eqb_spec c sep) as [->|Hne].
  - pose proof (split_nonempty sep s) as Hne.
    destruct (JS.split sep s) as [|w ws]; [done|].
    change (JS.join (String sep "") ("" :: w :: ws))
      with (String sep (JS.join (String sep "") (w :: ws))).
    by rewrite IH.
  - pose proof (split_nonempty sep s) as Hsplit.
    destruct (JS.split sep s) as [|w ws]; [done|].
    by rewrite join_cons_char, IH.
Qed.

Lemma join_snoc (sep : string) (l : list string) (w : string) :
  l ≠ [] → JS.join sep (l ++ [w]) = JS.join sep l +:+ sep +:+ w.
Proof.
  induction l as [|x l IH]; [done|]. intros _.
  destruct l as [|y l]; [done|].
  change (x +:+ sep +:+ JS.join sep ((y :: l) ++ [w])
          = (x +:+ sep +:+ JS.join sep (y :: l)) +:+ sep +:+ w).
  rewrite IH by done. by rewrite !app_assoc_string.
Qed.

(** Two neighbours joined beforehand or by [join]: the same text. *)
Lemma join_merge (sep : string) (pre post : list string) (a w : string) :
  JS.join sep (pre ++ (a +:+ sep +:+ w) :: post)
  = JS.join sep (pre ++ a :: w :: post).
Proof.
  induction pre as [|x pre IH].
  - cbn [app]. destruct post as [|y post]; [done|].
    change ((a +:+ sep +:+ w) +:+ sep +:+ JS.join sep (y :: post)
            = a +:+ sep +:+ w +:+ sep +:+ JS.join sep (y :: post)).
    by rewrite !app_assoc_string.
  - cbn [app]. destruct pre as [|y pre].
    + cbn [app] in *.
      change (x +:+ sep +:+ JS.join sep ((a +:+ sep +:+ w) :: post)
              = x +:+ sep +:+ JS.join sep (a :: w :: post)).
      by rewrite IH.
    + change (x +:+ sep
                +:+ JS.join sep ((y :: pre) ++ (a +:+ sep +:+ w) :: post)
              = x +:+ sep +:+ JS.join sep ((y :: pre) ++ a :: w :: post)).
      by rewrite IH.
Qed.

(** Once the current chunk is not empty, the loop keeps every word: the
    chunks pushed, the current chunk and the words still to come join to the
    same text throughout. *)
Lemma loop_keeps_text (maxChunkLength : nat) (rest : list string)
    (st : LoopState) :
  currentChunk st ≠ [] →
  let st' := fold_left (step maxChunkLength) rest st in
  currentChunk st' ≠ []
  ∧ JS.join " " (chunks st' ++ [JS.join " " (currentChunk st')])
    = JS.join " " ((chunks st ++ [JS.join " " (currentChunk st)]) ++ rest).
Proof.
  revert st. induction rest as [|w rest IH]; intros st Hcur; cbn [fold_left].
  - by rewrite app_nil_r.
  - destruct (IH (step maxChunkLength st w)) as [Hne Heq].
    { unfold step. destruct (_ <? _)%nat; cbn [currentChunk]; [done|].
      by destruct (currentChunk st). }
    split; [exact Hne|]. rewrite Heq. clear IH Hne Heq.
    unfold step. destruct (_ <? _)%nat; cbn [chunks currentChunk].
    + change (JS.join " " [w]) with w. by rewrite <- !app_assoc.
    + rewrite join_snoc by done.
      rewrite <- !app_assoc. cbn [app]. apply join_merge.
Qed.

(** X26: what holds of the round trip.  Whenever the first word of the
    text fits the limit, joining the chunks with single spaces gives the
    text back, whatever the later words are (words longer than the limit
    and empty words between repeated spaces included). *)
Lemma splitIntoChunks_rejoins_when_first_word_fits (text : string)
    (maxChunkLength : nat) :
  (String.length (hd "" (JS.split JS.space text)) ≤ maxChunkLength)%nat →
  chunks_rejoin text (splitIntoChunks text maxChunkLength).
Proof.
  intros Hfirst. unfold chunks_rejoin, splitIntoChunks.
  pose proof (join_split JS.space text) as Htext.
  pose proof (split_nonempty JS.space text) as Hwords.
  destruct (JS.split JS.space text) as [|w rest]; [done|].
  cbn [fold_left hd] in *.
  assert (step maxChunkLength {| chunks := []; currentChunk := [] |} w
          = {| chunks := []; currentChunk := [w] |}) as ->.
  { unfold step. cbn [currentChunk chunks].
    change (String.length (JS.join " " [])) with 0%nat.
    by destruct (Nat.ltb_spec maxChunkLength (0 + String.length w)); [lia|]. }
  destruct (loop_keeps_text maxChunkLength rest
              {| chunks := []; currentChunk := [w] |}) as [Hne Hjoin];
    [done|].
  cbn [chunks currentChunk app] in Hjoin.
  destruct (currentChunk _) eqn:Hcur; [done|].
  cbn [length Nat.ltb Nat.leb]. by rewrite Hjoin.
Qed.

Lemma loop_sizes (maxChunkLength : nat) (words rest : list string)
    (st : LoopState) :
  Forall (λ w, In w words) rest →
  Forall (within_slack maxChunkLength words) (chunks st) →
  within_slack maxChunkLength words (JS.join " " (currentChunk st)) →
  let st' := fold_left (step maxChunkLength) rest st in
  Forall (within_slack maxChunkLength words) (chunks st')
  ∧ within_slack maxChunkLength words (JS.join " " (currentChunk st')).
Proof.
  revert st.
  induction rest as [|w rest IH]; intros st Hrest Hchunks Hcur;
    cbn [fold_left]; [done|].
  apply Forall_cons in Hrest as [Hw Hrest].
  apply IH; [done|..]; unfold step;
    destruct (Nat.ltb_spec maxChunkLength
                (String.length (JS.join " " (currentChunk st))
                 + String.length w)) as [Hover|Hfits];
    cbn [chunks currentChunk].
  - apply Forall_app. split; [done|]. by apply Forall_singleton.
  - done.
  - by right.
  - destruct (currentChunk st) as [|x cur] eqn:Hc.
    + by right.
    + left. rewrite join_snoc by done.
      rewrite !length_app_string. cbn [String.length]. lia.
Qed.

(** X25: what holds of the sizes.  Every chunk is either one of the words
    of the text, whatever its length, or at most one character longer than
    the limit: the length test leaves out one joining space, and no more
    than one. *)
Lemma splitIntoChunks_within_slack (text : string) (maxChunkLength : nat) :
  Forall (within_slack maxChunkLength (JS.split JS.space text))
    (splitIntoChunks text maxChunkLength).
Proof.
  unfold splitIntoChunks.
  destruct (loop_sizes maxChunkLength (JS.split JS.space text)
              (JS.split JS.space text) {| chunks := []; currentChunk := [] |})
    as [Hchunks Hcur].
  - apply Forall_forall. intros w Hw. by apply list_elem_of_In.
  - constructor.
  - left. cbn. lia.
  - destruct (0 <? _)%nat; [|done].
    apply Forall_app. split; [done|]. by apply Forall_singleton.
Qed.

End ChunkingFacts.

(** C3: the code at two normalized texts with limit 3.  For "ab c" the test
    compares the lengths without the joining space, so the two words are
    packed into one chunk of length 4.  For "abcd" the first word already
    exceeds the limit while the current chunk is empty, so an empty chunk is
    pushed first, and joining the chunks with spaces gives " abcd". *)
Theorem splitIntoChunks_breaks_contract :
  Chunking.splitIntoChunks "ab c" 3 = ["ab c"]
  ∧ ¬ Chunking.chunks_bounded 3 (Chunking.splitIntoChunks "ab c" 3)
  ∧ Chunking.splitIntoChunks "abcd" 3 = [""; "abcd"]
  ∧ JS.join " " (Chunking.splitIntoChunks "abcd" 3) = " abcd"
  ∧ ¬ Chunking.chunks_rejoin "abcd" (Chunking.splitIntoChunks "abcd" 3).
Proof.
  split; [reflexivity|]. split.
  { intros Hbounded. destruct (Hbounded "ab c") as [Hle|[Hone _]].
    - left. reflexivity.
    - cbn in Hle. lia.
    - cbn in Hone. lia. }
  split; [reflexivity|]. split; [reflexivity|].
  unfold Chunking.chunks_rejoin. cbn. discriminate.
Qed.


(** * Further properties *)

(** ** The retry wrapper, whatever the server answers *)

Section RetryBehaviour.

Import Gemini.

Variable server : nat → FetchOutcome.

Lemma try_block_returns (attempt : nat) (text : string) :
  try_block true server attempt = Returned text
  ↔ Answers.good_answer (server attempt) = Some text.
Proof.
  unfold try_block, Answers.good_answer. cbn [negb].
  destruct (server attempt) as [message|status body]; [done|].
  destruct (ok status); cbn [negb andb].
  - destruct (parses body); cbn [negb]; [|done].
    destruct (truthy (candidate_text body)); split; congruence.
  - destruct (parses body); cbn [negb]; [|done].
    destruct (status =? 429); [|done].
    by destruct (attempt <? MAX_RETRIES)%nat.
Qed.

Lemma try_block_cases (attempt : nat) :
  match Answers.good_answer (server attempt) with
  | Some text => try_block true server attempt = Returned text
  | None =>
      (try_block true server attempt = RateLimitRetry
       ∧ (attempt < MAX_RETRIES)%nat)
      ∨ ∃ message, try_block true server attempt = Thrown message
  end.
Proof.
  destruct (Answers.good_answer (server attempt)) as [text|] eqn:Hgood.
  - by apply try_block_returns.
  - destruct (try_block true server attempt) as [text| |message] eqn:Htry.
    + apply try_block_returns in Htry. congruence.
    + left. split; [done|]. unfold try_block in Htry. cbn [negb] in Htry.
      destruct (attempt <? MAX_RETRIES)%nat eqn:E;
        [by apply Nat.ltb_lt|].
      repeat case_match; congruence.
    + eauto.
Qed.

(** One invocation with a model selected: the text of a good answer, or
    the back-off and the next invocation, or [null] at the last attempt. *)
Lemma retry_unfold (attempt : nat) :
  summarizeChunkWithRetry true server attempt =
    match Answers.good_answer (server attempt) with
    | Some text =>
        Some {| result := Some text; trace := [Fetch attempt] |}
    | None =>
        if (attempt <? MAX_RETRIES)%nat
        then after [Fetch attempt; Wait (backoff attempt)]
               <$> summarizeChunkWithRetry true server (S attempt)
        else Some {| result := None; trace := [Fetch attempt] |}
    end.
Proof.
  pose proof (try_block_cases attempt) as Hcases.
  destruct (Answers.good_answer (server attempt)) as [text|].
  - unfold summarizeChunkWithRetry. cbn [retry]. by rewrite Hcases.
  - destruct Hcases as [[Htry Hlt]|[message Htry]].
    + unfold summarizeChunkWithRetry.
      replace (MAX_RETRIES - attempt)%nat with (S (MAX_RETRIES - S attempt))
        by lia.
      cbn [retry]. by rewrite Htry, (proj2 (Nat.ltb_lt _ _) Hlt).
    + apply (retry_after_throw server true attempt message Htry).
Qed.

End RetryBehaviour.

(** X1: with a model selected, a call of [summarizeChunkWithRetry] always
    resolves.  Its result is the text of the first of the attempts 1, 2, 3
    whose response is a success with a non-empty generated text, and [null]
    when there is none.  What it does is fixed exactly: it fetches once per
    attempt up to and including that one (all three when there is none),
    waits 1000 ms between the first and the second fetch and 2000 ms
    between the second and the third, and does nothing else; in particular
    it neither fetches nor waits after the answer it returns. *)
Theorem retry_returns_first_good_answer (server : nat → Gemini.FetchOutcome) :
  ∃ run,
    Gemini.summarizeChunkWithRetry true server 1%nat = Some run
    ∧ Gemini.result run
      = head (omap (λ attempt, Answers.good_answer (server attempt))
                (seq 1 Gemini.MAX_RETRIES))
    ∧ (∀ text, Gemini.result run = Some text → text ≠ "")
    ∧ Gemini.trace run
      = match Answers.good_answer (server 1%nat),
              Answers.good_answer (server 2%nat) with
        | Some _, _ => [Gemini.Fetch 1]
        | None, Some _ =>
            [Gemini.Fetch 1; Gemini.Wait 1000; Gemini.Fetch 2]
        | None, None =>
            [Gemini.Fetch 1; Gemini.Wait 1000; Gemini.Fetch 2;
             Gemini.Wait 2000; Gemini.Fetch 3]
        end
    ∧ Gemini.fetches (Gemini.trace run) `prefix_of` seq 1 Gemini.MAX_RETRIES
    ∧ Gemini.waits (Gemini.trace run) `prefix_of` [1000; 2000]
    ∧ (Gemini.result run = None →
       Gemini.fetches (Gemini.trace run) = [1; 2; 3]%nat
       ∧ Gemini.waits (Gemini.trace run) = [1000; 2000]).
Proof.
  assert (∀ r text, Answers.good_answer r = Some text → text ≠ "") as Hne.
  { intros [message|status body] text; cbn; [done|].
    destruct (Gemini.ok status && Gemini.parses body); [|done].
    destruct (Gemini.candidate_text body) as [[|c t]|]; cbn; congruence. }
  rewrite (retry_unfold server 1%nat).
  cbn [seq Gemini.MAX_RETRIES omap list_omap].
  destruct (Answers.good_answer (server 1%nat)) as [t1|] eqn:H1.
  { eexists. split; [done|]. cbn.
    split; [done|]. split; [intros text [= <-]; eauto|]. split; [done|].
    split; [by exists [2; 3]%nat|]. split; [by exists [1000; 2000]|done]. }
  rewrite (retry_unfold server 2%nat).
  destruct (Answers.good_answer (server 2%nat)) as [t2|] eqn:H2.
  { eexists. split; [done|]. cbn.
    split; [done|]. split; [intros text [= <-]; eauto|]. split; [done|].
    split; [by exists [3]%nat|]. split; [by exists [2000]|done]. }
  rewrite (retry_unfold server 3%nat).
  destruct (Answers.good_answer (server 3%nat)) as [t3|] eqn:H3.
  { eexists. split; [done|]. cbn.
    split; [done|]. split; [intros text [= <-]; eauto|]. split; [done|].
    split; [done|]. split; [done|done]. }
  eexists. split; [done|]. cbn.
  split; [done|]. split; [done|]. split; [done|].
  split; [done|]. split; [done|done].
Qed.

Section RetryWithoutModel.

Import Gemini.

Variable server : nat → FetchOutcome.

Lemma retry_without_model (fuel attempt : nat) :
  (MAX_RETRIES - attempt < fuel)%nat →
  ∃ run, retry false server fuel attempt = Some run
    ∧ result run = None
    ∧ fetches (trace run) = []
    ∧ waits (trace run) = backoff <$> seq attempt (MAX_RETRIES - attempt).
Proof.
  revert attempt. induction fuel as [|fuel IH]; intros attempt Hfuel; [lia|].
  cbn [retry try_block negb fetched app].
  destruct (attempt <? MAX_RETRIES)%nat eqn:Hlt.
  - apply Nat.ltb_lt in Hlt.
    destruct (IH (S attempt)) as (run & -> & Hnull & Hfetches & Hwaits);
      [lia|].
    eexists. split; [done|]. cbn [after result trace app].
    split; [done|]. split; [done|].
    replace (MAX_RETRIES - attempt)%nat with (S (MAX_RETRIES - S attempt))
      by lia.
    cbn [seq fmap list_fmap]. rewrite <- Hwaits. reflexivity.
  - apply Nat.ltb_ge in Hlt.
    replace (MAX_RETRIES - attempt)%nat with 0%nat by lia.
    eexists. split; [done|]. done.
Qed.

End RetryWithoutModel.

(** X2: while no model is selected ([this.model] is null), a call of
    [summarizeChunkWithRetry] sends no request at all, whatever the server
    would answer and whatever attempt it starts from: the endpoint getter
    throws inside the [try] block, and the call still waits the back-off of
    every attempt below [MAX_RETRIES] (1000 ms and 2000 ms from attempt 1)
    before it returns [null]. *)
Theorem retry_without_model_only_waits (server : nat → Gemini.FetchOutcome)
    (attempt : nat) :
  ∃ run, Gemini.summarizeChunkWithRetry false server attempt = Some run
    ∧ Gemini.result run = None
    ∧ Gemini.fetches (Gemini.trace run) = []
    ∧ Gemini.waits (Gemini.trace run)
      = Gemini.backoff <$> seq attempt (Gemini.MAX_RETRIES - attempt)
    ∧ (attempt = 1%nat → Gemini.waits (Gemini.trace run) = [1000; 2000]).
Proof.
  destruct (retry_without_model server (S (Gemini.MAX_RETRIES - attempt))
              attempt) as (run & Hrun & Hnull & Hfetches & Hwaits); [lia|].
  exists run. split; [exact Hrun|]. split; [done|]. split; [done|].
  split; [done|]. intros ->. by rewrite Hwaits.
Qed.

(** ** The result cache: sweeps, independence of videos, the listing *)

Section CacheBehaviour.

Import Cache.

Lemma cache_key_has_cache_prefix (v : string) :
  JS.startsWith (CACHE_PREFIX +:+ v) CACHE_PREFIX = true.
Proof.
  unfold JS.startsWith, CACHE_PREFIX. cbn. by destruct v.
Qed.

Lemma cache_key_inj (v v' : string) :
  CACHE_PREFIX +:+ v = CACHE_PREFIX +:+ v' → v = v'.
Proof. apply String.app_inj. Qed.

(** What a lookup finds after a sweep. *)
Lemma lookup_cleanup (store : gmap string CacheEntry) (now : Z) (k : string) :
  cleanup now store !! k
  = match store !! k with
    | Some entry => if to_remove now (k, entry) then None else Some entry
    | None => None
    end.
Proof.
  rewrite lookup_after_sweep.
  destruct (store !! k) as [entry|] eqn:Hk.
  - destruct (to_remove now (k, entry)) eqn:Hrm.
    + rewrite decide_True; [done|]. apply elem_of_keysToRemove. eauto.
    + rewrite decide_False; [done|].
      intros (entry' & Hk' & Hrm')%elem_of_keysToRemove. congruence.
  - by case_decide.
Qed.

End CacheBehaviour.

(** X3: a sweep never changes what a later lookup answers.  For every
    store and video, [getSummary] evaluated at or after the time of a
    [cleanup] returns the same value after the sweep as without it. *)
Theorem sweep_keeps_answers (store : gmap string Cache.CacheEntry)
    (v : string) (now now' : Z) :
  now ≤ now' →
  (Cache.getSummary v now' (Cache.cleanup now store)).1
  = (Cache.getSummary v now' store).1.
Proof.
  intros Hle. unfold Cache.getSummary. rewrite lookup_cleanup.
  destruct (store !! (Cache.CACHE_PREFIX +:+ v)) as [entry|]; [|done].
  unfold Cache.to_remove. cbn [fst snd].
  rewrite cache_key_has_cache_prefix. cbn [andb].
  destruct (Z.ltb_spec (Cache.expiresAt entry) now) as [Hold|Hlive];
    destruct (Z.ltb_spec (Cache.expiresAt entry) now') as [Hold'|Hlive'];
    cbn [fst]; try done; lia.
Qed.

Lemma sweep_keeps_answers_witness :
  is_Some (Samples.two_cached !! "yt_summary_abc")
  ∧ Cache.cleanup 604800050 Samples.two_cached !! "yt_summary_abc" = None
  ∧ (Cache.getSummary "abc" 604800060
       (Cache.cleanup 604800050 Samples.two_cached)).1
    = (Cache.getSummary "abc" 604800060 Samples.two_cached).1.
Proof.
  split; [by eexists|]. split; [by vm_compute|].
  apply (sweep_keeps_answers Samples.two_cached "abc" 604800050 604800060).
  lia.
Defined.

(** X4: a later sweep subsumes an earlier one: [cleanup] at a time after a
    previous [cleanup] leaves the store it would have left without the
    previous one; in particular a second sweep at the same time changes
    nothing. *)
Theorem later_sweep_subsumes_earlier (store : gmap string Cache.CacheEntry)
    (now now' : Z) :
  now ≤ now' →
  Cache.cleanup now' (Cache.cleanup now store) = Cache.cleanup now' store.
Proof.
  intros Hle. apply map_eq. intros k. rewrite !lookup_cleanup.
  destruct (store !! k) as [entry|]; [|done].
  destruct (Cache.to_remove now (k, entry)) eqn:Hrm; [|done].
  unfold Cache.to_remove in *. cbn [fst snd] in *.
  apply andb_true_iff in Hrm as [-> Hold%Z.ltb_lt]. cbn [andb].
  destruct (Z.ltb_spec (Cache.expiresAt entry) now'); [done|lia].
Qed.

Lemma later_sweep_subsumes_earlier_witness :
  Cache.cleanup 604800050 Samples.two_cached !! "yt_summary_abc" = None
  ∧ is_Some (Cache.cleanup 604800050 Samples.two_cached !! "yt_summary_xyz")
  ∧ Cache.cleanup 604800200 Samples.two_cached !! "yt_summary_xyz" = None
  ∧ Cache.cleanup 604800200 (Cache.cleanup 604800050 Samples.two_cached)
    = Cache.cleanup 604800200 Samples.two_cached.
Proof.
  split; [by vm_compute|]. split; [by eexists|]. split; [by vm_compute|].
  apply (later_sweep_subsumes_earlier Samples.two_cached). lia.
Defined.

(** X5: the cached summaries of different videos do not interfere: writing
    the summary of one video changes no answer of [getSummary] for another
    video, and a [getSummary] for one video (which may delete its expired
    entry) leaves the entry of every other video in the store. *)
Theorem videos_do_not_interfere (store : gmap string Cache.CacheEntry)
    (v v' : string) (s : Types.Summary) (t0 t : Z) :
  v ≠ v' →
  Cache.getSummary v' t (Cache.setSummary v s t0 store)
  = ((Cache.getSummary v' t store).1,
     Cache.setSummary v s t0 (Cache.getSummary v' t store).2)
  ∧ (Cache.getSummary v t store).2 !! (Cache.CACHE_PREFIX +:+ v')
    = store !! (Cache.CACHE_PREFIX +:+ v').
Proof.
  intros Hne.
  assert (Cache.CACHE_PREFIX +:+ v ≠ Cache.CACHE_PREFIX +:+ v') as Hkeys.
  { intros Heq. by apply Hne, cache_key_inj. }
  split.
  - unfold Cache.getSummary, Cache.setSummary, Cache.remove.
    rewrite lookup_insert_ne by done.
    destruct (store !! (Cache.CACHE_PREFIX +:+ v')) as [entry|]; [|done].
    destruct (Cache.expiresAt entry <? t); [|done].
    cbn [fst snd]. by rewrite delete_insert_ne.
  - unfold Cache.getSummary, Cache.remove.
    destruct (store !! (Cache.CACHE_PREFIX +:+ v)) as [entry|]; [|done].
    destruct (Cache.expiresAt entry <? t); [|done].
    cbn [snd]. by rewrite lookup_delete_ne.
Qed.

Lemma videos_do_not_interfere_witness :
  is_Some (Samples.two_cached !! "yt_summary_abc")
  ∧ (Cache.getSummary "abc" 604800050 Samples.two_cached).2
      !! "yt_summary_abc" = None
  ∧ Cache.getSummary "xyz" 604800050
      (Cache.setSummary "abc" Scenarios.sample_summary 604800030
         Samples.two_cached)
    = ((Cache.getSummary "xyz" 604800050 Samples.two_cached).1,
       Cache.setSummary "abc" Scenarios.sample_summary 604800030
         (Cache.getSummary "xyz" 604800050 Samples.two_cached).2)
  ∧ (Cache.getSummary "abc" 604800050 Samples.two_cached).2
      !! (Cache.CACHE_PREFIX +:+ "xyz")
    = Samples.two_cached !! (Cache.CACHE_PREFIX +:+ "xyz").
Proof.
  split; [by eexists|]. split; [by vm_compute|].
  refine (videos_do_not_interfere Samples.two_cached "abc" "xyz"
            Scenarios.sample_summary 604800030 604800050 _).
  discriminate.
Defined.

Section ListingBehaviour.

Import Cache.

Lemma insert_newest_first_sorted (s : Types.Summary) (l : list Types.Summary) :
  StronglySorted (λ a b, Types.timestamp b ≤ Types.timestamp a) l →
  StronglySorted (λ a b, Types.timestamp b ≤ Types.timestamp a)
    (insert_newest_first s l).
Proof.
  induction 1 as [|x l Hsorted IH Hx]; cbn [insert_newest_first].
  - repeat constructor.
  - destruct (Z.ltb_spec (Types.timestamp x) (Types.timestamp s)) as [Hlt|Hge].
    + constructor; [by constructor|].
      constructor; [lia|].
      eapply Forall_impl; [exact Hx|]. cbn. intros y Hy. lia.
    + constructor; [done|].
      rewrite insert_newest_first_perm. by constructor.
Qed.

Lemma sort_newest_first_sorted (l : list Types.Summary) :
  StronglySorted (λ a b, Types.timestamp b ≤ Types.timestamp a)
    (sort_newest_first l).
Proof.
  unfold sort_newest_first.
  assert (∀ acc,
            StronglySorted (λ a b, Types.timestamp b ≤ Types.timestamp a) acc →
            StronglySorted (λ a b, Types.timestamp b ≤ Types.timestamp a)
              (foldl (λ acc s, insert_newest_first s acc) acc l)) as Hgen.
  { induction l as [|x l IH]; intros acc Hacc; cbn [foldl]; [done|].
    by apply IH, insert_newest_first_sorted. }
  apply Hgen. constructor.
Qed.

(** The keys the loop of [getAllSummaries] removes. *)
Lemma visit_removes (clock : string → Z) (l : list (string * CacheEntry))
    (acc : list Types.Summary * gmap string CacheEntry) (k : string) :
  (foldl (visit clock) acc l).2 !! k
  = if decide (k ∈ (filter (λ kv, JS.startsWith kv.1 SUMMARY_PREFIX
                                  && (expiresAt kv.2 <=? clock kv.1)) l).*1)
    then None else acc.2 !! k.
Proof.
  revert acc. induction l as [|kv l IH]; intros acc; cbn [foldl].
  - rewrite filter_nil. cbn. by rewrite decide_False by apply not_elem_of_nil.
  - rewrite IH. unfold visit.
    destruct (JS.startsWith kv.1 SUMMARY_PREFIX) eqn:Hp.
    + destruct (Z.ltb_spec (clock kv.1) (expiresAt kv.2)) as [Hlive|Hold];
        cbn [snd].
      * rewrite (filter_cons_False _ kv); [done|].
        rewrite Hp. cbn [andb].
        destruct (Z.leb_spec (expiresAt kv.2) (clock kv.1)); [lia|].
        cbn. tauto.
      * rewrite (filter_cons_True _ kv).
        2:{ rewrite Hp. cbn [andb].
            destruct (Z.leb_spec (expiresAt kv.2) (clock kv.1)); [|lia].
            done. }
        rewrite fmap_cons. unfold remove.
        destruct (decide (kv.1 = k)) as [<-|Hne].
        -- rewrite lookup_delete_eq.
           rewrite (decide_True (P := kv.1 ∈ kv.1 :: _)) by left.
           by case_decide.
        -- rewrite lookup_delete_ne by done.
           destruct (decide (k ∈ (filter _ l).*1)) as [Hin|Hnin].
           ++ rewrite decide_True; [done|]. by right.
           ++ rewrite decide_False; [done|].
              intros [->|Hin]%elem_of_cons; [done|]. by apply Hnin.
    + rewrite (filter_cons_False _ kv); [done|].
      rewrite Hp. cbn. tauto.
Qed.

End ListingBehaviour.

(** X6: [getAllSummaries] returns exactly the summaries stored under keys
    that start with [summary_] and whose [expiresAt] is after the reading
    of the clock taken when the entry is tested (the clock is read anew for
    every entry), each as often as it is stored, ordered by [timestamp]
    from the newest to the oldest.  In particular every such entry that
    expires after the last reading of the call is listed. *)
Theorem listing_is_exact_and_newest_first
    (store : gmap string Cache.CacheEntry) (clock : string → Z) :
  let listing := (Cache.getAllSummaries clock store).1 in
  StronglySorted (λ a b, Types.timestamp b ≤ Types.timestamp a) listing
  ∧ listing ≡ₚ (λ kv, Cache.data kv.2)
                 <$> filter (λ kv, Cache.listed clock kv) (map_to_list store)
  ∧ (∀ x, x ∈ listing ↔
       ∃ k entry, store !! k = Some entry ∧ Cache.data entry = x
         ∧ JS.startsWith k Cache.SUMMARY_PREFIX = true
         ∧ clock k < Cache.expiresAt entry)
  ∧ (∀ last k entry,
       (∀ k', clock k' ≤ last) →
       store !! k = Some entry →
       JS.startsWith k Cache.SUMMARY_PREFIX = true →
       last < Cache.expiresAt entry →
       Cache.data entry ∈ listing).
Proof.
  intros listing. unfold listing, Cache.getAllSummaries. cbn [fst].
  split; [apply sort_newest_first_sorted|].
  assert (Cache.sort_newest_first
            (foldl (Cache.visit clock) ([], store) (map_to_list store)).1
          ≡ₚ (λ kv, Cache.data kv.2)
               <$> filter (λ kv, Cache.listed clock kv) (map_to_list store))
    as Hperm.
  { by rewrite sort_newest_first_perm, visit_collects. }
  split; [exact Hperm|].
  assert (∀ x,
            x ∈ Cache.sort_newest_first
                  (foldl (Cache.visit clock) ([], store)
                     (map_to_list store)).1
            ↔ ∃ k entry, store !! k = Some entry ∧ Cache.data entry = x
                ∧ JS.startsWith k Cache.SUMMARY_PREFIX = true
                ∧ clock k < Cache.expiresAt entry) as Hexact.
  { intros x. rewrite Hperm, list_elem_of_fmap. split.
    - intros ([k entry] & -> & Hin).
      apply list_elem_of_filter in Hin as [Hlisted Hin].
      apply elem_of_map_to_list in Hin.
      apply Is_true_true, andb_true_iff in Hlisted as [Hp Hv].
      exists k, entry. repeat split; [done..|]. by apply Z.ltb_lt.
    - intros (k & entry & Hk & <- & Hp & Hv).
      exists (k, entry). split; [done|].
      apply list_elem_of_filter. split.
      + apply Is_true_true, andb_true_iff. split; [done|]. by apply Z.ltb_lt.
      + by apply elem_of_map_to_list. }
  split; [exact Hexact|].
  intros last k entry Hlast Hk Hp Hlive. apply Hexact.
  exists k, entry. split; [done|]. split; [done|]. split; [done|].
  specialize (Hlast k). lia.
Qed.

Lemma listing_is_exact_and_newest_first_witness :
  Scenarios.sample_summary
  ∈ (Cache.getAllSummaries Samples.moving_clock Samples.two_listed).1.
Proof.
  pose proof (listing_is_exact_and_newest_first Samples.two_listed
                Samples.moving_clock) as (_ & _ & Hexact & _).
  apply Hexact.
  exists "summary_a",
    {| Cache.data := Scenarios.sample_summary; Cache.expiresAt := 51 |}.
  split; [reflexivity|]. split; [reflexivity|]. split; [reflexivity|].
  reflexivity.
Defined.

(** X7: as a side effect [getAllSummaries] removes from the store exactly
    the entries under [summary_] keys whose [expiresAt] is at or before the
    reading of the clock taken when the entry is tested (an entry expiring
    at that very instant included); every other entry stays as it is. *)
Theorem listing_removes_expired_entries
    (store : gmap string Cache.CacheEntry) (clock : string → Z) (k : string) :
  (Cache.getAllSummaries clock store).2 !! k
  = match store !! k with
    | Some entry =>
        if JS.startsWith k Cache.SUMMARY_PREFIX
           && (Cache.expiresAt entry <=? clock k)
        then None else Some entry
    | None => None
    end.
Proof.
  unfold Cache.getAllSummaries. cbn [snd]. rewrite visit_removes. cbn [snd].
  destruct (store !! k) as [entry|] eqn:Hk.
  - destruct (JS.startsWith k Cache.SUMMARY_PREFIX
              && (Cache.expiresAt entry <=? clock k)) eqn:Hrm.
    + rewrite decide_True; [done|].
      apply list_elem_of_fmap. exists (k, entry). split; [done|].
      apply list_elem_of_filter. split; [by apply Is_true_true|].
      by apply elem_of_map_to_list.
    + rewrite decide_False; [done|].
      intros ([k' entry'] & -> & Hin)%list_elem_of_fmap.
      apply list_elem_of_filter in Hin as [Hrm' Hin%elem_of_map_to_list].
      apply Is_true_true in Hrm'. cbn in *. simplify_eq. congruence.
  - rewrite decide_False; [done|].
    intros ([k' entry'] & -> & Hin)%list_elem_of_fmap.
    apply list_elem_of_filter in Hin as [_ Hin%elem_of_map_to_list].
    cbn in *. congruence.
Qed.

Lemma listing_removes_expired_entries_witness :
  (Cache.getAllSummaries Samples.moving_clock Samples.two_listed).2
    !! "summary_a"
  = Some {| Cache.data := Scenarios.sample_summary; Cache.expiresAt := 51 |}
  ∧ (Cache.getAllSummaries Samples.moving_clock Samples.two_listed).2
      !! "summary_b"
    = None.
Proof.
  split.
  - exact (eq_trans
             (listing_removes_expired_entries Samples.two_listed
                Samples.moving_clock "summary_a")
             eq_refl).
  - exact (eq_trans
             (listing_removes_expired_entries Samples.two_listed
                Samples.moving_clock "summary_b")
             eq_refl).
Defined.

(** ** The coordinator: one request from arrival to return *)

Section RequestFlows.

Import Coordinator Flows.

Lemma truthy_nonempty (key : string) :
  key ≠ "" → Gemini.truthy (Some key) = Some key.
Proof. by destruct key. Qed.

(** A lone request up to its cache miss: the video is in the set and the
    summarization client has been invoked once. *)
Lemma run_to_summarize (cache : gmap string Cache.CacheEntry)
    (v key : string) (t1 : Z) :
  key ≠ "" →
  (Cache.getSummary v t1 cache).1 = None →
  run (arrival 0 v key ++ [Resume 0 (CacheRead t1)]) (init cache)
  = {| processingVideos := {[v]} ∪ ∅;
       store := (Cache.getSummary v t1 cache).2;
       requests := [{| videoId := v; stage := AwaitSummarize |}];
       summarizeCalls := [(0%nat, v)];
       setOps := [(0%nat, Add v)] |}.
Proof.
  intros Hkey Hmiss. unfold arrival, run.
  cbn [app foldl step init requests lookup list_lookup resume stage videoId].
  rewrite truthy_nonempty by done.
  cbn [processingVideos]. rewrite decide_False by apply not_elem_of_empty.
  cbn [suspend requests processingVideos Coordinator.store summarizeCalls
       setOps insert list_insert lookup list_lookup resume stage videoId
       init].
  rewrite Hmiss. reflexivity.
Qed.

Lemma run_app (events events' : list Event) (st : State) :
  run (events ++ events') st = run events' (run events st).
Proof. apply foldl_app. Qed.

Lemma released_set_is_empty (v : string) :
  ({[v]} ∪ ∅) ∖ {[v]} = (∅ : gset string).
Proof.
  apply leibniz_equiv, elem_of_equiv_empty. intros x.
  rewrite elem_of_difference, elem_of_union, elem_of_singleton.
  intros [[?|[]%not_elem_of_empty] ?]. done.
Qed.

(** After a miss the store holds no entry for the video. *)
Lemma miss_leaves_no_entry (cache : gmap string Cache.CacheEntry)
    (v : string) (t : Z) :
  (Cache.getSummary v t cache).1 = None →
  (Cache.getSummary v t cache).2 !! (Cache.CACHE_PREFIX +:+ v) = None
  ∨ ∃ entry, cache !! (Cache.CACHE_PREFIX +:+ v) = Some entry
      ∧ (Cache.getSummary v t cache).2 = cache.
Proof.
  unfold Cache.getSummary, Cache.remove.
  destruct (cache !! (Cache.CACHE_PREFIX +:+ v)) as [entry|] eqn:Hk.
  - destruct (Cache.expiresAt entry <? t); cbn; [|done].
    intros _. left. apply lookup_delete_eq.
  - intros _. by left.
Qed.

End RequestFlows.

(** X8: after a summarizeVideo request that found no cached summary and
    whose summarization succeeded, the summary is in the cache: the request
    returns it and leaves the processing set empty; a getCachedSummary for
    the same video at any time up to [CACHE_DURATION] after the cache write
    returns the same summary; and a further summarizeVideo request in that
    period returns it from the cache without invoking the summarization
    client again. *)
Theorem summary_is_cached_after_success
    (cache : gmap string Cache.CacheEntry) (v key : string)
    (s : Types.Summary) (t1 t2 t3 : Z) :
  key ≠ "" →
  (Cache.getSummary v t1 cache).1 = None →
  t3 ≤ t2 + Cache.CACHE_DURATION →
  let st :=
    Coordinator.run
      (Flows.full_request 0 v key t1
         (Coordinator.Fulfilled (Types.succeed s)) t2)
      (Coordinator.init cache) in
  let st' := Coordinator.run (Flows.cache_request 1 v key t3) st in
  Flows.response_of 0 st = Some (Types.succeed s)
  ∧ Coordinator.processingVideos st = ∅
  ∧ Coordinator.summarizeCalls st = [(0%nat, v)]
  ∧ (Lookup.handleGetCachedSummary v t3 (Coordinator.store st)).1
    = Types.succeed s
  ∧ Flows.response_of 1 st' = Some (Types.succeed s)
  ∧ Coordinator.summarizeCalls st' = [(0%nat, v)]
  ∧ Coordinator.processingVideos st' = ∅.
Proof.
  intros Hkey Hmiss Hfresh st st'.
  assert (st = {| Coordinator.processingVideos := ∅;
                  Coordinator.store :=
                    Cache.setSummary v s t2 (Cache.getSummary v t1 cache).2;
                  Coordinator.requests :=
                    [{| Coordinator.videoId := v;
                        Coordinator.stage :=
                          Coordinator.Resolved (Types.succeed s) |}];
                  Coordinator.summarizeCalls := [(0%nat, v)];
                  Coordinator.setOps :=
                    [(0%nat, Coordinator.Add v);
                     (0%nat, Coordinator.Delete v)] |}) as Hst.
  { unfold st, Flows.full_request.
    change [Coordinator.Resume 0 (Coordinator.CacheRead t1);
            Coordinator.Resume 0 ?a; Coordinator.Resume 0 ?b]
      with ([Coordinator.Resume 0 (Coordinator.CacheRead t1)]
            ++ [Coordinator.Resume 0 a; Coordinator.Resume 0 b]).
    rewrite app_assoc, run_app, run_to_summarize by done.
    unfold Coordinator.run.
    cbn -[union difference singleton empty Cache.setSummary Cache.getSummary].
    unfold Coordinator.release, Coordinator.with_store, Coordinator.suspend.
    cbn -[union difference singleton empty Cache.setSummary Cache.getSummary].
    by rewrite released_set_is_empty. }
  assert (Cache.getSummary v t3 (Coordinator.store st)
          = (Some s, Coordinator.store st)) as Hhit.
  { rewrite Hst. cbn [Coordinator.store].
    unfold Cache.getSummary at 1, Cache.setSummary at 1.
    rewrite lookup_insert_eq. cbn [Cache.expiresAt Cache.data].
    destruct (Z.ltb_spec (t2 + Cache.CACHE_DURATION) t3); [lia|done]. }
  split; [by rewrite Hst|]. split; [by rewrite Hst|].
  split; [by rewrite Hst|].
  split. { unfold Lookup.handleGetCachedSummary. by rewrite Hhit. }
  assert (st' = {| Coordinator.processingVideos := ∅;
                   Coordinator.store := Coordinator.store st;
                   Coordinator.requests :=
                     [{| Coordinator.videoId := v;
                         Coordinator.stage :=
                           Coordinator.Resolved (Types.succeed s) |};
                      {| Coordinator.videoId := v;
                         Coordinator.stage :=
                           Coordinator.Resolved (Types.succeed s) |}];
                   Coordinator.summarizeCalls := [(0%nat, v)];
                   Coordinator.setOps :=
                     [(0%nat, Coordinator.Add v);
                      (0%nat, Coordinator.Delete v)] |}) as Hst'.
  { unfold st'. revert Hhit. rewrite Hst. intros Hhit.
    unfold Flows.cache_request, Flows.arrival, Coordinator.run.
    cbn [app foldl Coordinator.step Coordinator.requests lookup list_lookup
         Coordinator.resume Coordinator.stage Coordinator.videoId].
    rewrite truthy_nonempty by done.
    cbn [Coordinator.processingVideos].
    rewrite decide_False by apply not_elem_of_empty.
    cbn [Coordinator.suspend Coordinator.requests
         Coordinator.processingVideos Coordinator.store
         Coordinator.summarizeCalls Coordinator.setOps insert list_insert
         lookup list_lookup Coordinator.resume Coordinator.stage
         Coordinator.videoId].
    cbn [Coordinator.store] in Hhit. rewrite Hhit. reflexivity. }
  by rewrite Hst'.
Qed.

Lemma summary_is_cached_after_success_witness :
  (Lookup.handleGetCachedSummary "abc" 20
     (Coordinator.store
        (Coordinator.run
           (Flows.full_request 0 "abc" "AIza-key" 0
              (Coordinator.Fulfilled (Types.succeed Scenarios.sample_summary))
              10)
           (Coordinator.init ∅)))).1
  = Types.succeed Scenarios.sample_summary.
Proof.
  assert ("AIza-key" ≠ "") as Hkey by discriminate.
  assert (20 ≤ 10 + Cache.CACHE_DURATION) as Hfresh
    by (unfold Cache.CACHE_DURATION; lia).
  pose proof (summary_is_cached_after_success ∅ "abc" "AIza-key"
                Scenarios.sample_summary 0 10 20 Hkey eq_refl Hfresh)
    as (_ & _ & _ & Hcached & _).
  exact Hcached.
Defined.

(** X9: a summarization that fails is reported and not cached.  For a
    request that found no cached summary and whose summarization returned a
    failure, returned no data, or threw, the request returns that failure
    (the thrown message for an exception), the processing set is empty
    afterwards, the store is as the cache lookup left it, and a lookup for
    the video at any time still misses. *)
Theorem failed_summarization_is_not_cached
    (cache : gmap string Cache.CacheEntry) (v key : string)
    (o : Coordinator.Outcome (Types.APIResponse Types.Summary))
    (t1 t2 t3 : Z) :
  key ≠ "" →
  (Cache.getSummary v t1 cache).1 = None →
  Flows.unsuccessful o →
  let st :=
    Coordinator.run (Flows.full_request 0 v key t1 o t2)
      (Coordinator.init cache) in
  Flows.response_of 0 st = Some (Flows.reported o)
  ∧ Coordinator.processingVideos st = ∅
  ∧ Coordinator.summarizeCalls st = [(0%nat, v)]
  ∧ Coordinator.store st = (Cache.getSummary v t1 cache).2
  ∧ (Cache.getSummary v t3 (Coordinator.store st)).1 = None.
Proof.
  intros Hkey Hmiss Hfail st.
  assert (st = {| Coordinator.processingVideos := ∅;
                  Coordinator.store := (Cache.getSummary v t1 cache).2;
                  Coordinator.requests :=
                    [{| Coordinator.videoId := v;
                        Coordinator.stage :=
                          Coordinator.Resolved (Flows.reported o) |}];
                  Coordinator.summarizeCalls := [(0%nat, v)];
                  Coordinator.setOps :=
                    [(0%nat, Coordinator.Add v);
                     (0%nat, Coordinator.Delete v)] |}) as Hst.
  { unfold st, Flows.full_request.
    change [Coordinator.Resume 0 (Coordinator.CacheRead t1);
            Coordinator.Resume 0 ?a; Coordinator.Resume 0 ?b]
      with ([Coordinator.Resume 0 (Coordinator.CacheRead t1)]
            ++ [Coordinator.Resume 0 a; Coordinator.Resume 0 b]).
    rewrite app_assoc, run_app, run_to_summarize by done.
    unfold Coordinator.run.
    destruct o as [result|message]; cbn in Hfail.
    - cbn -[union difference singleton empty Cache.getSummary].
      assert (Types.success result
              && bool_decide (is_Some (Types.data result)) = false) as ->.
      { destruct Hfail as [->| ->]; [done|]. by rewrite andb_false_r. }
      unfold Coordinator.release.
      cbn -[union difference singleton empty Cache.getSummary].
      by rewrite released_set_is_empty.
    - cbn -[union difference singleton empty Cache.getSummary].
      unfold Coordinator.release.
      cbn -[union difference singleton empty Cache.getSummary].
      by rewrite released_set_is_empty. }
  rewrite Hst. cbn [Coordinator.store Coordinator.processingVideos
                    Coordinator.summarizeCalls].
  repeat split.
  unfold Cache.getSummary in *. unfold Cache.remove in *.
  destruct (cache !! (Cache.CACHE_PREFIX +:+ v)) as [entry|] eqn:Hk.
  - destruct (Z.ltb_spec (Cache.expiresAt entry) t1) as [Hold|Hlive];
      [|done].
    cbn [snd]. by rewrite lookup_delete_eq.
  - cbn [snd]. by rewrite Hk.
Qed.

Lemma failed_summarization_is_not_cached_witness :
  Flows.response_of 0
    (Coordinator.run
       (Flows.full_request 0 "abc" "AIza-key" 0 Samples.failed_summarization
          10)
       (Coordinator.init ∅))
  = Some (Types.fail "Failed to generate any valid summaries").
Proof.
  assert ("AIza-key" ≠ "") as Hkey by discriminate.
  pose proof (failed_summarization_is_not_cached ∅ "abc" "AIza-key"
                Samples.failed_summarization 0 10 20 Hkey eq_refl
                (or_introl eq_refl)) as (Hresponse & _).
  exact Hresponse.
Defined.

(** X10: without an API key a summarizeVideo request is refused before the
    cache is consulted.  When [geminiApiKey] is missing or empty the request
    returns the "Please set your Gemini API key" failure, whatever the cache
    holds for the video, and neither the store nor the processing set nor
    the summarization client is touched. *)
Theorem request_without_api_key_is_refused
    (cache : gmap string Cache.CacheEntry) (v : string)
    (key : option string) :
  Gemini.truthy key = None →
  let st :=
    Coordinator.run
      [Coordinator.Issue v;
       Coordinator.Resume 0
         (Coordinator.ApiKeyRead (Coordinator.Fulfilled key))]
      (Coordinator.init cache) in
  Flows.response_of 0 st
    = Some (Types.fail
              "Please set your Gemini API key in the extension settings")
  ∧ Coordinator.store st = cache
  ∧ Coordinator.processingVideos st = ∅
  ∧ Coordinator.summarizeCalls st = [].
Proof.
  intros Hkey st. unfold st, Coordinator.run.
  cbn [foldl Coordinator.step Coordinator.init Coordinator.requests app
       lookup list_lookup Coordinator.resume Coordinator.stage
       Coordinator.videoId].
  by rewrite Hkey.
Qed.

Lemma request_without_api_key_is_refused_witness :
  Coordinator.store
    (Coordinator.run
       [Coordinator.Issue "abc";
        Coordinator.Resume 0
          (Coordinator.ApiKeyRead (Coordinator.Fulfilled None))]
       (Coordinator.init
          (Cache.setSummary "abc" Scenarios.sample_summary 0 ∅)))
  = Cache.setSummary "abc" Scenarios.sample_summary 0 ∅.
Proof.
  pose proof (request_without_api_key_is_refused
                (Cache.setSummary "abc" Scenarios.sample_summary 0 ∅)
                "abc" None eq_refl) as (_ & Hstore & _).
  exact Hstore.
Defined.

Lemma already_processing_gate_witness :
  Flows.response_of 1
    (Coordinator.step Samples.second_arrives_while_held
       (Coordinator.Resume 1
          (Coordinator.ApiKeyRead (Coordinator.Fulfilled (Some "AIza-key")))))
  = Some (Types.fail "Video is already being processed").
Proof.
  assert ("AIza-key" ≠ "") as Hkey by discriminate.
  assert ("abc" ∈ Coordinator.processingVideos
                    Samples.second_arrives_while_held) as Hheld.
  { apply (bool_decide_unpack _). vm_compute. exact I. }
  pose proof (already_processing_gate 1 "abc" "AIza-key"
                Samples.second_arrives_while_held eq_refl Hkey Hheld)
    as (Hresponse & _).
  unfold Flows.response_of. rewrite Hresponse. reflexivity.
Defined.

Section SummarizeJournal.

Import Coordinator.

(** Every invocation of the summarization client comes with an [add]. *)
Lemma summarize_calls_paired (events : list Event) (st : State) :
  summarizeCalls st = Lookup.adds (setOps st) →
  summarizeCalls (run events st) = Lookup.adds (setOps (run events st)).
Proof.
  revert st. induction events as [|e events IH]; intros st Hst; [done|].
  cbn [run foldl]. apply IH. clear IH.
  destruct e as [v|r input]; cbn [step]; [done|].
  destruct (requests st !! r) as [req|]; [|done].
  unfold resume.
  assert (∀ r v response s,
            summarizeCalls (release r v response s)
            = Lookup.adds (setOps (release r v response s))
            ↔ summarizeCalls s = Lookup.adds (setOps s)) as Hrelease.
  { intros. unfold release, Lookup.adds. cbn [summarizeCalls setOps].
    rewrite omap_app. cbn. by rewrite app_nil_r. }
  assert (∀ r v s,
            summarizeCalls s = Lookup.adds (setOps s) →
            summarizeCalls (acquire r v s)
            = Lookup.adds (setOps (acquire r v s))) as Hacquire.
  { intros r' v' s' Hs'. unfold acquire, Lookup.adds.
    cbn [summarizeCalls setOps]. rewrite omap_app. cbn.
    by rewrite Hs'. }
  repeat case_match; try done;
    first [ by apply Hrelease | by apply Hacquire ].
Qed.

Lemma summarize_calls_follow_ops (r : nat) (st : State) :
  summarizeCalls st = Lookup.adds (setOps st) →
  Lookup.summarize_calls_of r st
  = omap (λ op, match op with Add v => Some v | Delete _ => None end)
      (ops_of r st).
Proof.
  unfold Lookup.summarize_calls_of, ops_of, Lookup.adds. intros ->.
  induction (setOps st) as [|[r' op] ops IH]; [done|].
  cbn [omap list_omap fst snd].
  destruct op as [v|v]; cbn [omap list_omap fst snd];
    destruct (decide (r' = r)); cbn [omap list_omap]; by rewrite IH.
Qed.

End SummarizeJournal.

(** X11: no request starts more than one summarization.  Along every run
    of the service, a request that has not yet passed its cache lookup has
    invoked the summarization client not at all, a request that holds its
    video has invoked it exactly once, for its own video, and a request
    that has returned has invoked it at most once. *)
Theorem each_request_summarizes_at_most_once
    (cache : gmap string Cache.CacheEntry) (events : list Coordinator.Event)
    (r : nat) (req : Coordinator.Request) :
  let st := Coordinator.run events (Coordinator.init cache) in
  Coordinator.requests st !! r = Some req →
  match Coordinator.stage req with
  | Coordinator.AwaitApiKey | Coordinator.AwaitCacheRead =>
      Lookup.summarize_calls_of r st = []
  | Coordinator.AwaitSummarize | Coordinator.AwaitCacheWrite _ =>
      Lookup.summarize_calls_of r st = [Coordinator.videoId req]
  | Coordinator.Resolved _ =>
      Lookup.summarize_calls_of r st = []
      ∨ Lookup.summarize_calls_of r st = [Coordinator.videoId req]
  end.
Proof.
  intros st Hr.
  assert (Coordinator.consistent st) as [Hknown _ _].
  { apply consistent_run, consistent_init. }
  rewrite summarize_calls_follow_ops
    by (by apply summarize_calls_paired).
  specialize (Hknown r req Hr).
  destruct (Coordinator.stage req); cbn in Hknown.
  - by rewrite Hknown.
  - by rewrite Hknown.
  - by rewrite Hknown.
  - by rewrite Hknown.
  - destruct Hknown as [-> | ->]; [by left|by right].
Qed.

Lemma each_request_summarizes_at_most_once_witness :
  Lookup.summarize_calls_of 1
    (Coordinator.run Scenarios.overlapping_requests (Coordinator.init ∅))
  = ["abc"].
Proof.
  exact (each_request_summarizes_at_most_once ∅ Scenarios.overlapping_requests
           1 {| Coordinator.videoId := "abc";
                Coordinator.stage := Coordinator.AwaitSummarize |} eq_refl).
Defined.


(** ** Model selection *)

Section SelectionFacts.

Import Models.

Lemma first_preferred_sound (preferred : list string) (models : list Model)
    (m : Model) :
  first_preferred preferred models = Some m →
  ∃ p, p ∈ preferred ∧ List.find (matches p) models = Some m.
Proof.
  induction preferred as [|p preferred IH]; cbn [first_preferred]; [done|].
  destruct (List.find (matches p) models) as [m'|] eqn:Hfind.
  - intros [= <-]. exists p. split; [left|done].
  - intros (q & Hq & Hm)%IH. exists q. split; [by right|done].
Qed.

Lemma first_preferred_skips (before after : list string) (p : string)
    (models : list Model) :
  (∀ q, q ∈ before → List.find (matches q) models = None) →
  first_preferred (before ++ p :: after) models
  = match List.find (matches p) models with
    | Some m => Some m
    | None => first_preferred after models
    end.
Proof.
  induction before as [|q before IH]; intros Hnone; [done|].
  cbn [app first_preferred]. rewrite (Hnone q) by left.
  apply IH. intros q' Hq'. apply Hnone. by right.
Qed.

End SelectionFacts.

(** X13: model selection is sound and complete.  From a listing that was
    received, [findAndSetModel] selects a model exactly when some listed
    model supports "generateContent"; the selected name is then the name of
    a listed model that supports it; otherwise it fails with the "No
    suitable Gemini model found" error.  A listing without a [models] field
    counts as empty. *)
Theorem selection_is_sound_and_complete (models : option (list Models.Model)) :
  match Models.findAndSetModel (Models.Listed (Models.Json models)) with
  | Models.Selected n =>
      ∃ m, m ∈ default [] models ∧ Models.name m = n
        ∧ "generateContent" ∈ Models.supportedGenerationMethods m
  | Models.Failed message =>
      (∀ m, m ∈ default [] models →
         "generateContent" ∉ Models.supportedGenerationMethods m)
      ∧ message = "No suitable Gemini model found. Please ensure you have "
                  +:+ "access to Gemini API models."
  end.
Proof.
  cbn [Models.findAndSetModel]. unfold Models.choose.
  destruct (Models.first_preferred _ _) as [m|] eqn:Hpref.
  - apply first_preferred_sound in Hpref as (p & _ & Hfind).
    apply find_some in Hfind as [Hin Hm].
    apply andb_true_iff in Hm as [_ Hgen].
    exists m. split; [by apply list_elem_of_In|]. split; [done|].
    by apply bool_decide_eq_true in Hgen.
  - destruct (List.find Models.generates _) as [m|] eqn:Hany.
    + apply find_some in Hany as [Hin Hgen].
      exists m. split; [by apply list_elem_of_In|]. split; [done|].
      by apply bool_decide_eq_true in Hgen.
    + split; [|done]. intros m Hin Hgen.
      apply list_elem_of_In in Hin.
      pose proof (find_none _ _ Hany m Hin) as Hno.
      apply bool_decide_eq_false in Hno. done.
Qed.

(** X14: the order of preference decides.  If no listed model matches any
    preferred name that comes before [p] in [PREFERRED_MODELS] (a match:
    the model's name contains the preferred name and the model supports
    "generateContent"), and some listed model matches [p], then the
    selected model is the first model of the listing that matches [p]. *)
Theorem preferred_model_wins (models : list Models.Model)
    (before after : list string) (p : string) (m : Models.Model) :
  Models.PREFERRED_MODELS = before ++ p :: after →
  (∀ q m', q ∈ before → m' ∈ models → Models.matches q m' = false) →
  List.find (Models.matches p) models = Some m →
  Models.findAndSetModel (Models.Listed (Models.Json (Some models)))
  = Models.Selected (Models.name m).
Proof.
  intros Hsplit Hbefore Hfind.
  change (Models.findAndSetModel (Models.Listed (Models.Json (Some models))))
    with (Models.choose models).
  unfold Models.choose.
  rewrite Hsplit. rewrite first_preferred_skips; [by rewrite Hfind|].
  intros q Hq.
  destruct (List.find (Models.matches q) models) as [m'|] eqn:Hq'; [|done].
  apply find_some in Hq' as [Hin Hm'].
  rewrite (Hbefore q m' Hq) in Hm'; [done|]. by apply list_elem_of_In.
Qed.

Lemma preferred_model_wins_witness :
  Models.findAndSetModel (Models.Listed (Models.Json (Some Samples.listing)))
  = Models.Selected "models/gemini-1.5-flash-001".
Proof.
  refine (preferred_model_wins Samples.listing
            ["gemini-2.0-flash-lite"; "gemini-1.5-pro"] ["gemini-pro"]
            "gemini-1.5-flash"
            {| Models.name := "models/gemini-1.5-flash-001";
               Models.supportedGenerationMethods :=
                 ["generateContent"; "countTokens"] |}
            eq_refl _ eq_refl).
  intros q m' Hq Hm'.
  apply list_elem_of_In in Hq, Hm'. cbn in Hq, Hm'.
  destruct Hq as [<-|[<-|[]]];
    destruct Hm' as [<-|[<-|[<-|[]]]]; reflexivity.
Defined.


(** ** Cleaning the transcript *)

Section CleaningFacts.

Import Text.

Lemma collapse_from_tidy (in_run : bool) (s : string) :
  Tidy.tidy_from in_run (collapse_from in_run s) = true.
Proof.
  revert in_run. induction s as [|c s IH]; intros in_run; [done|].
  cbn [collapse_from]. destruct (is_space c) eqn:Hc.
  - destruct in_run; [apply IH|].
    cbn [Tidy.tidy_from]. change (is_space " ") with true. cbn.
    apply IH.
  - cbn [Tidy.tidy_from]. rewrite Hc. apply IH.
Qed.

Lemma tidy_from_weaken (after_space : bool) (s : string) :
  Tidy.tidy_from after_space s = true → Tidy.tidy_from false s = true.
Proof.
  destruct s as [|c s]; [done|]. cbn [Tidy.tidy_from].
  destruct (is_space c); [|done].
  destruct after_space; [|done]. by rewrite andb_false_r.
Qed.

Lemma trimStart_tidy (after_space : bool) (s : string) :
  Tidy.tidy_from after_space s = true →
  Tidy.tidy_from false (trimStart s) = true.
Proof.
  revert after_space. induction s as [|c s IH]; intros after_space; [done|].
  cbn [trimStart]. destruct (is_space c) eqn:Hc.
  - cbn [Tidy.tidy_from]. rewrite Hc.
    intros [_ Hs]%andb_true_iff. by eapply IH.
  - apply tidy_from_weaken.
Qed.

Lemma trimEnd_tidy (after_space : bool) (s : string) :
  Tidy.tidy_from after_space s = true →
  Tidy.tidy_from after_space (trimEnd s) = true.
Proof.
  revert after_space. induction s as [|c s IH]; intros after_space; [done|].
  cbn [trimEnd Tidy.tidy_from]. destruct (is_space c) eqn:Hc.
  - intros [Hc' Hs]%andb_true_iff. specialize (IH _ Hs).
    destruct (trimEnd s) as [|c' r]; [done|].
    cbn [Tidy.tidy_from]. by rewrite Hc, Hc'.
  - intros Hs. specialize (IH _ Hs).
    destruct (trimEnd s) as [|c' r]; cbn [Tidy.tidy_from]; by rewrite Hc.
Qed.

Lemma trimStart_no_leading_space (s : string) :
  trimStart (trimStart s) = trimStart s.
Proof.
  induction s as [|c s IH]; [done|]. cbn [trimStart].
  destruct (is_space c) eqn:Hc; [done|]. cbn [trimStart]. by rewrite Hc.
Qed.

Lemma trimEnd_idem (s : string) : trimEnd (trimEnd s) = trimEnd s.
Proof.
  induction s as [|c s IH]; [done|]. cbn [trimEnd].
  destruct (trimEnd s) as [|c' r] eqn:Hr.
  - destruct (is_space c) eqn:Hc; [done|]. cbn [trimEnd]. by rewrite Hc.
  - cbn [trimEnd]. cbn [trimEnd] in IH. rewrite IH. done.
Qed.

(** Trimming the end does not uncover white space at the start. *)
Lemma trimStart_trimEnd (s : string) :
  trimStart s = s → trimStart (trimEnd s) = trimEnd s.
Proof.
  destruct s as [|c s]; [done|]. cbn [trimStart trimEnd].
  destruct (is_space c) eqn:Hc.
  - intros Heq. assert (String.length (trimStart s) ≤ String.length s)%nat.
    { clear. induction s as [|c s IH]; [done|]. cbn [trimStart].
      destruct (is_space c); cbn [String.length]; lia. }
    rewrite Heq in H. cbn [String.length] in H. lia.
  - intros _. destruct (trimEnd s); cbn [trimStart]; by rewrite Hc.
Qed.

Lemma trim_idem (s : string) : trim (trim s) = trim s.
Proof.
  unfold trim.
  rewrite (trimStart_trimEnd (trimStart s)) by apply trimStart_no_leading_space.
  apply trimEnd_idem.
Qed.

Lemma trim_no_leading_space (s : string) : trimStart (trim s) = trim s.
Proof. apply trimStart_trimEnd, trimStart_no_leading_space. Qed.

End CleaningFacts.

Section CleanedWords.

Import Text.

Lemma not_space_not_blank (c : ascii) :
  is_space c = false → Ascii.eqb c JS.space = false.
Proof.
  intros Hc. destruct (Ascii.eqb_spec c JS.space) as [->|]; [|done].
  discriminate Hc.
Qed.

Lemma trimEnd_fixed_tail (c : ascii) (s : string) :
  trimEnd (String c s) = String c s →
  trimEnd s = s ∧ (s = "" → is_space c = false).
Proof.
  cbn [trimEnd]. destruct (trimEnd s) as [|c' r] eqn:Hr.
  - destruct (is_space c); [done|]. intros [= <-]. done.
  - intros [= <-]. done.
Qed.

(** The words of a tidy text without trailing white space: all but the
    first are proper, and the first is empty only if the text is empty or
    starts with a space. *)
Lemma tidy_words (after_space : bool) (s : string) :
  Tidy.tidy_from after_space s = true →
  trimEnd s = s →
  Forall proper_word (tl (JS.split JS.space s))
  ∧ free_of is_space (hd "" (JS.split JS.space s)) = true
  ∧ (hd "" (JS.split JS.space s) = "" →
     s = "" ∨ ∃ s', s = String " " s').
Proof.
  revert after_space.
  induction s as [|c s IH]; intros after_space Htidy Hend.
  - cbn. split; [constructor|]. split; [done|]. by left.
  - apply trimEnd_fixed_tail in Hend as [Hend Hlast].
    cbn [Tidy.tidy_from] in Htidy. cbn [JS.split].
    pose proof (split_nonempty JS.space s) as Hsplit.
    destruct (is_space c) eqn:Hc.
    + apply andb_true_iff in Htidy as [Hc' Htidy].
      apply andb_true_iff in Hc' as [Hc' _].
      apply Ascii.eqb_eq in Hc' as ->.
      change (Ascii.eqb " " JS.space) with true. cbn [tl hd].
      destruct (IH true Htidy Hend) as (Htl & Hhd & Hempty).
      split; [|split; [done|eauto]].
      destruct (JS.split JS.space s) as [|w ws]; [done|].
      cbn [tl hd] in *. constructor; [|done].
      split; [|done]. intros ->.
      destruct (Hempty eq_refl) as [->|[s' ->]].
      * by specialize (Hlast eq_refl).
      * cbn in Htidy. done.
    + rewrite (not_space_not_blank c Hc).
      destruct (IH false Htidy Hend) as (Htl & Hhd & _).
      destruct (JS.split JS.space s) as [|w ws]; [done|].
      cbn [tl hd] in *. split; [done|]. split; [|done].
      cbn [free_of]. by rewrite Hc, Hhd.
Qed.

Lemma trimEnd_trim (s : string) : trimEnd (trim s) = trim s.
Proof. unfold trim. apply trimEnd_idem. Qed.

End CleanedWords.

(** X15: what [cleanTranscript] hands to the chunker.  The cleaned text has
    no white space other than single space characters, no two spaces in a
    row, and no white space at either end.  Hence it is either empty or a
    sequence of words separated by single spaces, every word non-empty and
    free of white space. *)
Theorem cleaned_transcript_is_tidy (transcript : string) :
  let text := Text.cleanTranscript transcript in
  Tidy.tidy text = true
  ∧ Text.trim text = text
  ∧ (text = "" ∨ Forall Text.proper_word (JS.split JS.space text))
  ∧ JS.join " " (JS.split JS.space text) = text.
Proof.
  intros text.
  assert (Tidy.tidy text = true) as Htidy.
  { unfold text, Text.cleanTranscript, Text.trim, Tidy.tidy.
    apply trimEnd_tidy. eapply trimStart_tidy. apply collapse_from_tidy. }
  assert (Text.trimEnd text = text) as Hend by apply trimEnd_trim.
  assert (Text.trimStart text = text) as Hstart by apply trim_no_leading_space.
  split; [done|]. split; [apply trim_idem|]. split; [|apply join_split].
  destruct (tidy_words false text Htidy Hend) as (Htl & Hhd & Hempty).
  pose proof (split_nonempty JS.space text) as Hsplit.
  destruct (JS.split JS.space text) as [|w ws]; [done|].
  cbn [tl hd] in *.
  destruct (decide (w = "")) as [->|Hw].
  - destruct (Hempty eq_refl) as [->|[s' Hs']]; [by left|].
    rewrite Hs' in Hstart. cbn [Text.trimStart] in Hstart.
    change (Text.is_space " ") with true in Hstart. cbn in Hstart.
    assert (String.length (Text.trimStart s') ≤ String.length s')%nat as Hlen.
    { clear. induction s' as [|c s' IH]; [done|]. cbn [Text.trimStart].
      destruct (Text.is_space c); cbn [String.length]; lia. }
    rewrite Hstart in Hlen. cbn [String.length] in Hlen. lia.
  - right. constructor; [|done]. by split.
Qed.

Section StampFacts.

Import Text.

(** Text without an opening bracket passes through unchanged. *)
Lemma strip_passes_plain (text rest : string) :
  free_of (λ c, Ascii.eqb c "[") text = true →
  strip_brackets_from false (text +:+ rest)
  = text +:+ strip_brackets_from false rest.
Proof.
  induction text as [|c text IH]; [done|].
  cbn [free_of]. intros [Hc Htext]%andb_true_iff.
  apply negb_true_iff in Hc.
  change (String c text +:+ rest) with (String c (text +:+ rest)).
  cbn [strip_brackets_from]. rewrite Hc. cbn [andb].
  by rewrite IH.
Qed.

Lemma closes_plain_stamp (stamp rest : string) :
  free_of (λ c, Ascii.eqb c "]" || is_line_terminator c) stamp = true →
  closes (stamp +:+ "]" +:+ rest) = true.
Proof.
  induction stamp as [|c stamp IH]; [done|].
  cbn [free_of]. intros [Hc Hstamp]%andb_true_iff.
  apply negb_true_iff, orb_false_iff in Hc as [Hc Hc'].
  change (String c stamp +:+ "]" +:+ rest)
    with (String c (stamp +:+ "]" +:+ rest)).
  cbn [closes]. rewrite Hc, Hc'. by apply IH.
Qed.

Lemma skip_plain_stamp (stamp rest : string) :
  free_of (λ c, Ascii.eqb c "]" || is_line_terminator c) stamp = true →
  strip_brackets_from true (stamp +:+ "]" +:+ rest)
  = strip_brackets_from false rest.
Proof.
  induction stamp as [|c stamp IH]; [done|].
  cbn [free_of]. intros [Hc Hstamp]%andb_true_iff.
  apply negb_true_iff, orb_false_iff in Hc as [Hc _].
  change (String c stamp +:+ "]" +:+ rest)
    with (String c (stamp +:+ "]" +:+ rest)).
  cbn [strip_brackets_from]. rewrite Hc. by apply IH.
Qed.

(** One formatted segment in front of [rest]: the stamp goes, with its
    brackets; the space and the text stay. *)
Lemma strip_segment (segment : Extractor.Segment) (rest : string) :
  Extractor.plain_stamp segment = true →
  Extractor.plain_words segment = true →
  strip_brackets_from false (Extractor.formatSegment segment +:+ rest)
  = " " +:+ Extractor.words segment +:+ strip_brackets_from false rest.
Proof.
  intros Hstamp Hwords. unfold Extractor.formatSegment.
  rewrite !app_assoc_string.
  change ("] " +:+ ?s) with ("]" +:+ " " +:+ s).
  change ("[" +:+ ?s) with (String "[" s).
  cbn [strip_brackets_from]. change (Ascii.eqb "[" "[") with true.
  cbn [andb]. rewrite closes_plain_stamp by done.
  rewrite skip_plain_stamp by done.
  change (" " +:+ ?s) with (String " " s).
  cbn [strip_brackets_from]. change (Ascii.eqb " " "[") with false.
  cbn [andb]. f_equal. by apply strip_passes_plain.
Qed.

End StampFacts.

(** X16: cleaning removes exactly the time stamps of the extractor's
    format.  For a transcript made of lines "[stamp] text", where no stamp
    contains a closing bracket or a line break and no text contains an
    opening bracket, the bracket pattern removes every stamp with its
    brackets and nothing else, so the cleaned transcript is the white-space
    normalisation of the texts alone. *)
Theorem cleaning_removes_the_stamps (segments : list Extractor.Segment) :
  Forall (λ segment, Extractor.plain_stamp segment = true
                     ∧ Extractor.plain_words segment = true) segments →
  Text.strip_brackets (Extractor.transcript segments)
  = JS.join JS.nl ((λ segment, " " +:+ Extractor.words segment) <$> segments)
  ∧ Text.cleanTranscript (Extractor.transcript segments)
    = Text.trim
        (Text.collapse
           (JS.join JS.nl
              ((λ segment, " " +:+ Extractor.words segment) <$> segments))).
Proof.
  intros Hplain.
  assert (Text.strip_brackets (Extractor.transcript segments)
          = JS.join JS.nl
              ((λ segment, " " +:+ Extractor.words segment) <$> segments))
    as Hstrip.
  { unfold Text.strip_brackets, Extractor.transcript.
    induction Hplain as [|segment segments [Hstamp Hwords] Hrest IH];
      [done|].
    destruct segments as [|next segments].
    - cbn [fmap list_fmap JS.join String.concat].
      rewrite <- (string_app_empty_r (Extractor.formatSegment segment)).
      rewrite strip_segment by done.
      by rewrite !string_app_empty_r.
    - change (JS.join JS.nl (Extractor.formatSegment <$> segment :: next :: segments))
        with (Extractor.formatSegment segment +:+ JS.nl
              +:+ JS.join JS.nl (Extractor.formatSegment <$> next :: segments)).
      rewrite strip_segment by done.
      change (JS.nl +:+ ?s) with (String JS.newline s).
      cbn [Text.strip_brackets_from].
      change (Ascii.eqb JS.newline "[") with false. cbn [andb].
      rewrite IH.
      change (JS.join JS.nl
                ((λ segment, " " +:+ Extractor.words segment)
                   <$> segment :: next :: segments))
        with ((" " +:+ Extractor.words segment) +:+ JS.nl
              +:+ JS.join JS.nl
                    ((λ segment, " " +:+ Extractor.words segment)
                       <$> next :: segments)).
      by rewrite !app_assoc_string. }
  split; [done|]. unfold Text.cleanTranscript. by rewrite Hstrip.
Qed.

Lemma cleaning_removes_the_stamps_witness :
  Text.cleanTranscript
    (Extractor.transcript
       [ {| Extractor.stamp := "0:01"; Extractor.words := "hello  world" |};
         {| Extractor.stamp := "0:05"; Extractor.words := "second line" |} ])
  = "hello world second line".
Proof.
  refine (eq_trans
            (proj2 (cleaning_removes_the_stamps
                      [ {| Extractor.stamp := "0:01";
                           Extractor.words := "hello  world" |};
                        {| Extractor.stamp := "0:05";
                           Extractor.words := "second line" |} ] _)) _).
  - repeat constructor.
  - reflexivity.
Defined.

(** ** Enrichment: key points and topics *)

Section EnrichmentFacts.

Import Text.

Lemma split_pieces_free (sep : ascii) (s : string) :
  Forall (λ w, JS.includes w sep = false) (JS.split sep s).
Proof.
  induction s as [|c s IH]; cbn [JS.split]; [by repeat constructor|].
  destruct (Ascii.eqb c sep) eqn:Hc; [by constructor|].
  destruct (JS.split sep s) as [|w ws].
  - constructor; [|done]. cbn [JS.includes]. by rewrite Hc.
  - apply Forall_cons in IH as [Hw Hws]. constructor; [|done].
    cbn [JS.includes]. by rewrite Hc, Hw.
Qed.

Lemma includes_trimStart (s : string) (c : ascii) :
  JS.includes s c = false → JS.includes (trimStart s) c = false.
Proof.
  induction s as [|x s IH]; [done|]. cbn [trimStart].
  destruct (is_space x); [|done].
  cbn [JS.includes]. intros [_ Hs]%orb_false_iff. by apply IH.
Qed.

Lemma includes_trimEnd (s : string) (c : ascii) :
  JS.includes s c = false → JS.includes (trimEnd s) c = false.
Proof.
  induction s as [|x s IH]; [done|]. cbn [trimEnd JS.includes].
  intros [Hx Hs]%orb_false_iff. specialize (IH Hs).
  destruct (trimEnd s) as [|y r].
  - destruct (is_space x); [done|]. cbn [JS.includes]. by rewrite Hx.
  - cbn [JS.includes] in *. by rewrite Hx, IH.
Qed.

Lemma includes_trim (s : string) (c : ascii) :
  JS.includes s c = false → JS.includes (trim s) c = false.
Proof. intros Hs. by apply includes_trimEnd, includes_trimStart. Qed.

Lemma includes_strip_marker (s : string) (c : ascii) :
  JS.includes s c = false → JS.includes (strip_marker s) c = false.
Proof.
  destruct s as [|x s]; [done|]. cbn [strip_marker].
  destruct (is_marker x); [|done].
  cbn [JS.includes]. intros [_ Hs]%orb_false_iff.
  by apply includes_trimStart.
Qed.

Lemma filter_nonempty (l : list string) :
  Forall (λ s, s ≠ "") (List.filter nonempty l).
Proof.
  apply Forall_forall. intros s Hs%list_elem_of_In%filter_In.
  destruct Hs as [_ Hs]. unfold nonempty in Hs.
  apply negb_true_iff, String.eqb_neq in Hs. done.
Qed.

Lemma Forall_filter_keeps {A} (P : A → Prop) (f : A → bool) (l : list A) :
  Forall P l → Forall P (List.filter f l).
Proof.
  intros Hl. apply Forall_forall. intros x Hx%list_elem_of_In%filter_In.
  destruct Hx as [Hx%list_elem_of_In _].
  by eapply Forall_forall in Hl.
Qed.

(** Pieces without the separator, joined by it, split back as they were. *)
Lemma split_join_all (sep : ascii) (l : list string) :
  l ≠ [] →
  Forall (λ w, JS.includes w sep = false) l →
  JS.split sep (JS.join (String sep "") l) = l.
Proof.
  induction l as [|w l IH]; [done|]. intros _ Hl.
  apply Forall_cons in Hl as [Hw Hl].
  destruct l as [|w' l].
  - by apply split_without_separator.
  - change (JS.join (String sep "") (w :: w' :: l))
      with (w +:+ String sep (JS.join (String sep "") (w' :: l))).
    rewrite split_at_separator by done. by rewrite IH.
Qed.

(** The pieces [extractKeyPoints] keeps hold no line feed. *)
Lemma key_points_hold_no_line_feed (reply : Gemini.FetchOutcome) :
  Forall (λ point, JS.includes point JS.newline = false)
    (extractKeyPoints reply).
Proof.
  unfold extractKeyPoints.
  destruct (reply_text reply) as [text|]; [|constructor].
  apply Forall_filter_keeps, Forall_fmap.
  eapply Forall_impl; [apply (split_pieces_free JS.newline)|].
  intros piece Hpiece. cbn. by apply includes_trim, includes_strip_marker.
Qed.

End EnrichmentFacts.

(** X17: every key point that [extractKeyPoints] returns is non-empty,
    holds no line feed and has no white space at either end; and when the
    request fails, or its reply does not parse, the result is the empty
    list instead of an error. *)
Theorem key_points_are_clean_lines (reply : Gemini.FetchOutcome) :
  Forall (λ point, point ≠ ""
                   ∧ JS.includes point JS.newline = false
                   ∧ Text.trim point = point)
    (Text.extractKeyPoints reply)
  ∧ (Text.reply_text reply = None → Text.extractKeyPoints reply = []).
Proof.
  unfold Text.extractKeyPoints.
  destruct (Text.reply_text reply) as [text|]; [|by split].
  split; [|done].
  apply Forall_and. split; [apply filter_nonempty|].
  apply Forall_filter_keeps, Forall_fmap.
  eapply Forall_impl; [apply (split_pieces_free JS.newline)|].
  intros piece Hpiece. cbn. split.
  - by apply includes_trim, includes_strip_marker.
  - apply trim_idem.
Qed.

(** X18: every topic that [extractTopics] returns is non-empty, holds no
    comma and has no white space at either end; and when the request fails,
    or its reply does not parse, the result is the empty list instead of an
    error. *)
Theorem topics_are_clean_terms (reply : Gemini.FetchOutcome) :
  Forall (λ topic, topic ≠ ""
                   ∧ JS.includes topic ","%char = false
                   ∧ Text.trim topic = topic)
    (Text.extractTopics reply)
  ∧ (Text.reply_text reply = None → Text.extractTopics reply = []).
Proof.
  unfold Text.extractTopics.
  destruct (Text.reply_text reply) as [text|]; [|by split].
  split; [|done].
  apply Forall_and. split; [apply filter_nonempty|].
  apply Forall_filter_keeps, Forall_fmap.
  eapply Forall_impl; [apply (split_pieces_free ","%char)|].
  intros piece Hpiece. cbn. split.
  - by apply includes_trim.
  - apply trim_idem.
Qed.

(** X19: extracted key points and the markdown export fit together: when
    [extractKeyPoints] returns at least one key point, the key points
    section that [exportAsMarkdown] builds from them has exactly one line
    per key point, the line being "* " followed by the key point. *)
Theorem extracted_key_points_export_one_per_line
    (reply : Gemini.FetchOutcome) :
  Text.extractKeyPoints reply ≠ [] →
  JS.split JS.newline
    (JS.join JS.nl (Exporter.bullet <$> Text.extractKeyPoints reply))
  = Exporter.bullet <$> Text.extractKeyPoints reply.
Proof.
  intros Hsome.
  pose proof (key_points_hold_no_line_feed reply) as Hclean.
  apply (split_join_all JS.newline).
  - by destruct (Text.extractKeyPoints reply).
  - apply Forall_fmap. eapply Forall_impl; [exact Hclean|].
    intros point Hline. cbn. unfold Exporter.bullet.
    by rewrite includes_app, Hline.
Qed.

Lemma extracted_key_points_export_one_per_line_witness :
  JS.split JS.newline
    (JS.join JS.nl
       (Exporter.bullet
          <$> Text.extractKeyPoints
                (Scenarios.answer ("- one" +:+ JS.nl +:+ "*  two "))))
  = ["* one"; "* two"].
Proof.
  refine (extracted_key_points_export_one_per_line
            (Scenarios.answer ("- one" +:+ JS.nl +:+ "*  two ")) _).
  discriminate.
Defined.

(** ** Export of any summary *)

(** X20: trimming never eats into the markdown export.  For every
    summary, whatever its fields hold (empty lists, empty or blank strings
    included), the export is the metadata, the "## Key Points" heading with
    one "* " item per key point, the "## Topics" heading with the topics
    between backticks, and the "## Full Summary" heading; the heading is
    followed, on a line of its own, by the content without the white space
    at its end (no-break spaces included), and by nothing at all when the
    content is blank. *)
Theorem export_layout_is_kept (toLocaleString : Z → string)
    (summary : Types.Summary) :
  Exporter.exportAsMarkdown toLocaleString summary
  = Exporter.preamble toLocaleString summary
    +:+ "## Key Points" +:+ JS.nl
    +:+ JS.join JS.nl (Exporter.bullet <$> Types.keyPoints summary) +:+ JS.nl
    +:+ JS.nl +:+ "## Topics" +:+ JS.nl
    +:+ JS.join " " (Exporter.code <$> Types.topics summary) +:+ JS.nl
    +:+ JS.nl +:+ "## Full Summary"
    +:+ (if decide (JS.trimEnd (Types.content summary) = "") then ""
         else JS.nl +:+ JS.trimEnd (Types.content summary)).
Proof.
  unfold Exporter.exportAsMarkdown, Exporter.preamble, JS.trim.
  change (JS.trimStart (JS.nl +:+ "# Video Summary" +:+ ?rest))
    with ("# Video Summary" +:+ rest).
  rewrite ?app_assoc_string.
  rewrite <- trimEnd_content_tail.
  trim_up_to_heading.
Qed.

Lemma export_layout_is_kept_witness :
  Exporter.exportAsMarkdown (λ _, "1/1/2024, 10:00:00 AM")
    Samples.summary_ending_in_no_break_space
  = "# Video Summary" +:+ JS.nl
    +:+ JS.nl +:+ "## Metadata" +:+ JS.nl
    +:+ "- **Video ID**: abc" +:+ JS.nl
    +:+ "- **Generated**: 1/1/2024, 10:00:00 AM" +:+ JS.nl
    +:+ JS.nl +:+ "## Key Points" +:+ JS.nl
    +:+ JS.nl
    +:+ JS.nl +:+ "## Topics" +:+ JS.nl
    +:+ JS.nl
    +:+ JS.nl +:+ "## Full Summary" +:+ JS.nl
    +:+ "ends with nbsp".
Proof.
  exact (eq_trans
           (export_layout_is_kept (λ _, "1/1/2024, 10:00:00 AM")
              Samples.summary_ending_in_no_break_space)
           eq_refl).
Defined.


(** ** The summarization pipeline *)

Section PipelineFacts.

Import Pipeline.

Variable summarizer : nat → Call → option string.

(** The loop over the chunks, resolved. *)
Lemma visit_all (chunks : list string) (p : Progress) :
  fold_left (visit summarizer) chunks p
  = {| summaries :=
         summaries p
         ++ Steps.kept
              (Steps.chunk_answers summarizer (length (made p)) chunks);
       made := made p ++ (Steps.chunk_call <$> chunks) |}.
Proof.
  revert p. induction chunks as [|chunk chunks IH]; intros p.
  - cbn. rewrite !app_nil_r. by destruct p.
  - cbn [fold_left]. rewrite IH. unfold Steps.chunk_answers.
    rewrite imap_cons. unfold Steps.kept. cbn [omap list_omap].
    rewrite Nat.add_0_r. fold (Steps.chunk_call chunk).
    assert (∀ n, imap (λ i c, Gemini.truthy
                                (summarizer (S n + i)%nat (Steps.chunk_call c)))
                   chunks
                 = imap ((λ i c, Gemini.truthy
                                   (summarizer (n + i)%nat
                                      (Steps.chunk_call c))) ∘ S) chunks)
      as Hshift.
    { intros n. apply imap_ext. intros i c _. cbn. by rewrite Nat.add_succ_r. }
    unfold visit. fold (Steps.chunk_call chunk).
    destruct (Gemini.truthy
                (summarizer (length (made p)) (Steps.chunk_call chunk)))
      as [summary|];
      cbn [summaries made id]; rewrite length_app, Nat.add_1_r, Hshift;
      rewrite <- !app_assoc; reflexivity.
Qed.

Lemma process_resolved (chunks : list string) :
  process summarizer chunks
  = {| summaries :=
         Steps.kept (Steps.chunk_answers summarizer 0 chunks);
       made := Steps.chunk_call <$> chunks |}.
Proof. unfold process. by rewrite visit_all. Qed.

End PipelineFacts.

Section ChunkerEdge.


Lemma splitIntoChunks_empty_text (maxChunkLength : nat) :
  Chunking.splitIntoChunks "" maxChunkLength = [""].
Proof.
  unfold Chunking.splitIntoChunks. cbn [JS.split fold_left].
  unfold Chunking.step. cbn [Chunking.currentChunk Chunking.chunks].
  change (String.length (JS.join " " []) + String.length "")%nat with 0%nat.
  destruct (Nat.ltb_spec maxChunkLength 0); [lia|]. reflexivity.
Qed.

End ChunkerEdge.

Section PipelineOutcome.

Import Pipeline.



(** [summarize] with the loop resolved. *)
Lemma summarize_resolved (summarizer : nat → Call → option string)
    (key videoId transcript : string)
    (keyPointsReply topicsReply : Gemini.FetchOutcome) (now_id now_stamp : Z) :
  key ≠ "" →
  let chunks := Steps.chunks_of transcript in
  let good := Steps.kept (Steps.chunk_answers summarizer 0 chunks) in
  summarize summarizer (Some key) videoId transcript keyPointsReply
    topicsReply now_id now_stamp
  = match good with
    | [] =>
        {| response := Types.fail "Failed to generate any valid summaries";
           calls := Steps.chunk_call <$> chunks |}
    | [only] =>
        {| response :=
             Types.succeed
               (assemble videoId only keyPointsReply topicsReply now_id
                  now_stamp);
           calls := Steps.chunk_call <$> chunks |}
    | _ =>
        match Gemini.truthy
                (summarizer (length chunks) (Steps.final_call good)) with
        | None =>
            {| response := Types.fail "Failed to generate final summary";
               calls := (Steps.chunk_call <$> chunks)
                        ++ [Steps.final_call good] |}
        | Some finalSummary =>
            {| response :=
                 Types.succeed
                   (assemble videoId finalSummary keyPointsReply topicsReply
                      now_id now_stamp);
               calls := (Steps.chunk_call <$> chunks)
                        ++ [Steps.final_call good] |}
        end
    end.
Proof.
  intros Hkey chunks good. unfold summarize.
  rewrite truthy_nonempty by done.
  fold (Steps.chunks_of transcript). fold chunks.
  rewrite process_resolved. cbn [summaries made]. fold good.
  rewrite length_fmap. reflexivity.
Qed.

End PipelineOutcome.





(** X23: enrichment is best effort.  Whatever the two enrichment calls come
    back with (texts, error statuses, network failures), [summarize] makes
    the same summarizer calls, succeeds or fails the same way with the same
    error, and a returned summary has the same content; only its key points
    and topics differ. *)
Theorem enrichment_is_best_effort
    (summarizer : nat → Pipeline.Call → option string)
    (apiKey : option string) (videoId transcript : string)
    (keyPointsReply topicsReply keyPointsReply' topicsReply'
       : Gemini.FetchOutcome)
    (now_id now_stamp : Z) :
  let report :=
    Pipeline.summarize summarizer apiKey videoId transcript keyPointsReply
      topicsReply now_id now_stamp in
  let report' :=
    Pipeline.summarize summarizer apiKey videoId transcript keyPointsReply'
      topicsReply' now_id now_stamp in
  Pipeline.calls report = Pipeline.calls report'
  ∧ Types.success (Pipeline.response report)
    = Types.success (Pipeline.response report')
  ∧ Types.error (Pipeline.response report)
    = Types.error (Pipeline.response report')
  ∧ Types.content <$> Types.data (Pipeline.response report)
    = Types.content <$> Types.data (Pipeline.response report').
Proof.
  cbn zeta. unfold Pipeline.summarize.
  destruct (Gemini.truthy apiKey); [|done].
  destruct (Pipeline.summaries _) as [|only [|second more]]; [done..|].
  by destruct (Gemini.truthy _).
Qed.

(** X24: two edge inputs of [summarize].  Without an API key it fails with
    "Gemini API key not set" and calls nothing.  With a key, a transcript
    that cleans to the empty text (no text at all, or only bracketed stamps
    and white space) still costs one summarizer call, on the empty text,
    and the outcome is whatever that call yields. *)
Theorem summarize_edge_inputs
    (summarizer : nat → Pipeline.Call → option string)
    (videoId transcript : string)
    (keyPointsReply topicsReply : Gemini.FetchOutcome) (now_id now_stamp : Z) :
  (∀ apiKey, Gemini.truthy apiKey = None →
     Pipeline.summarize summarizer apiKey videoId transcript keyPointsReply
       topicsReply now_id now_stamp
     = {| Pipeline.response := Types.fail "Gemini API key not set";
          Pipeline.calls := [] |})
  ∧ (∀ key, key ≠ "" → Text.cleanTranscript transcript = "" →
       Pipeline.summarize summarizer (Some key) videoId transcript
         keyPointsReply topicsReply now_id now_stamp
       = {| Pipeline.response :=
              match Gemini.truthy (summarizer 0%nat (Steps.chunk_call "")) with
              | Some only =>
                  Types.succeed
                    (Pipeline.assemble videoId only keyPointsReply topicsReply
                       now_id now_stamp)
              | None => Types.fail "Failed to generate any valid summaries"
              end;
            Pipeline.calls := [Steps.chunk_call ""] |}).
Proof.
  split.
  - intros apiKey Hkey. unfold Pipeline.summarize. by rewrite Hkey.
  - intros key Hkey Hempty. rewrite summarize_resolved by done.
    unfold Steps.chunks_of. rewrite Hempty, splitIntoChunks_empty_text.
    cbn. by destruct (Gemini.truthy _).
Qed.

Lemma summarize_edge_inputs_witness :
  Pipeline.calls
    (Pipeline.summarize (λ _ _, None) (Some "AIza-key") "abc" "[0:01]  "
       (Scenarios.answer "- a point") (Scenarios.answer "topic") 5 6)
  = [Steps.chunk_call ""].
Proof.
  assert ("AIza-key" ≠ "") as Hkey by discriminate.
  pose proof (proj2 (summarize_edge_inputs (λ _ _, None) "abc" "[0:01]  "
                       (Scenarios.answer "- a point")
                       (Scenarios.answer "topic") 5 6)
                "AIza-key" Hkey eq_refl) as Hrun.
  by rewrite Hrun.
Defined.


Lemma splitIntoChunks_rejoins_when_first_word_fits_witness :
  Chunking.chunks_rejoin "ab c defgh  i"
    (Chunking.splitIntoChunks "ab c defgh  i" 3).
Proof.
  apply splitIntoChunks_rejoins_when_first_word_fits. cbn. lia.
Defined.

(** ** Making sure the content script answers *)

Section InjectorFacts.

Import Injector.

Variable tabId : nat.
Variable pings : nat → Ping.

Lemma verify_ready (i remaining : nat) (regs : Registers) :
  ready (verify tabId pings i remaining regs) = true
  ↔ ∃ j, (i ≤ j < i + remaining)%nat ∧ pings j = Pong.
Proof.
  revert i. induction remaining as [|remaining IH]; intros i; cbn [verify].
  - cbn. split; [done|]. intros (j & Hj & _). lia.
  - destruct (pings i) eqn:Hi.
    + cbn. split; [|done]. intros _. exists i. split; [lia|done].
    + cbn [after ready]. rewrite IH. split.
      * intros (j & Hj & Hp). exists j. split; [lia|done].
      * intros (j & Hj & Hp). exists j. split; [|done].
        destruct (decide (j = i)) as [->|]; [congruence|lia].
    + cbn [after ready]. rewrite IH. split.
      * intros (j & Hj & Hp). exists j. split; [lia|done].
      * intros (j & Hj & Hp). exists j. split; [|done].
        destruct (decide (j = i)) as [->|]; [congruence|lia].
Qed.

Lemma verify_effort (i remaining : nat) (regs : Registers) :
  let o := verify tabId pings i remaining regs in
  (pings_sent (actions o) ≤ remaining)%nat
  ∧ 0 ≤ waited (actions o) ≤ 1000 * Z.of_nat remaining
  ∧ (ready o = false →
     pings_sent (actions o) = remaining
     ∧ waited (actions o) = 1000 * Z.of_nat remaining).
Proof.
  revert i. induction remaining as [|remaining IH]; intros i; cbn [verify].
  - cbn. repeat split; lia.
  - assert (∀ o : Outcome,
              ((pings_sent (actions o) ≤ remaining)%nat
               ∧ 0 ≤ waited (actions o) ≤ 1000 * Z.of_nat remaining
               ∧ (ready o = false →
                  pings_sent (actions o) = remaining
                  ∧ waited (actions o) = 1000 * Z.of_nat remaining)) →
              let o' := after [SendPing; Delay 1000] o in
              (pings_sent (actions o') ≤ S remaining)%nat
              ∧ 0 ≤ waited (actions o') ≤ 1000 * Z.of_nat (S remaining)
              ∧ (ready o' = false →
                 pings_sent (actions o') = S remaining
                 ∧ waited (actions o') = 1000 * Z.of_nat (S remaining)))
      as Hstep.
    { intros o (Hp & Hw & Hfail). cbn.
      fold (pings_sent (actions o)). fold (waited (actions o)).
      split; [lia|]. split; [lia|].
      intros Hf. destruct (Hfail Hf). lia. }
    destruct (pings i).
    + cbn. split; [lia|]. split; [lia|done].
    + apply Hstep, IH.
    + apply Hstep, IH.
Qed.

Lemma verify_registers (i remaining : nat) (regs : Registers) :
  registers (verify tabId pings i remaining regs)
  = if ready (verify tabId pings i remaining regs)
    then {| injectedTabs := {[tabId]} ∪ injectedTabs regs;
            contentScriptStatus := <[tabId := true]> (contentScriptStatus regs)
         |}
    else regs.
Proof.
  revert i. induction remaining as [|remaining IH]; intros i; cbn [verify].
  - done.
  - destruct (pings i); [done|..]; cbn [after registers ready]; apply IH.
Qed.

End InjectorFacts.

(** X27: when [ensureContentScript] reports the content script as ready.
    It returns true exactly when the opening ping is answered with a pong,
    or else the tab exists with a URL containing "youtube.com", the
    injection resolves, and one of the five verification pings is answered
    with a pong. *)
Theorem content_script_ready_exactly_when_it_answers
    (tabId : nat) (first : Injector.Ping) (tab : Injector.TabInfo)
    (injects : bool) (pings : nat → Injector.Ping)
    (regs : Injector.Registers) :
  Injector.ready
    (Injector.ensureContentScript tabId first tab injects pings regs) = true
  ↔ first = Injector.Pong
    ∨ (∃ url, tab = Injector.TabFound (Some url)
         ∧ Models.contains url "youtube.com" = true)
      ∧ injects = true
      ∧ ∃ i, (i < 5)%nat ∧ pings i = Injector.Pong.
Proof.
  assert (∀ regs',
            Injector.ready (Injector.verify tabId pings 0 5 regs') = true
            ↔ ∃ i, (i < 5)%nat ∧ pings i = Injector.Pong) as Hverify.
  { intros regs'. rewrite verify_ready. split.
    - intros (j & Hj & Hp). exists j. split; [lia|done].
    - intros (j & Hj & Hp). exists j. split; [lia|done]. }
  unfold Injector.ensureContentScript.
  destruct first.
  - cbn. split; [by left|done].
  - destruct tab as [|[url|]]; cbn [Injector.on_youtube negb].
    + cbn. split; [done|]. by intros [|((? & ? & _) & _)].
    + destruct (Models.contains url "youtube.com") eqn:Hurl; cbn [negb].
      * destruct injects; cbn [negb Injector.after Injector.ready].
        -- rewrite Hverify. split; [intros; right; eauto 10|].
           by intros [|(_ & _ & ?)].
        -- split; [done|]. by intros [|(_ & ? & _)].
      * cbn. split; [done|].
        intros [|((? & [= <-] & ?) & _)]; congruence.
    + cbn. split; [done|]. by intros [|((? & ? & _) & _)].
  - destruct tab as [|[url|]]; cbn [Injector.on_youtube negb].
    + cbn. split; [done|]. by intros [|((? & ? & _) & _)].
    + destruct (Models.contains url "youtube.com") eqn:Hurl; cbn [negb].
      * destruct injects; cbn [negb Injector.after Injector.ready].
        -- rewrite Hverify. split; [intros; right; eauto 10|].
           by intros [|(_ & _ & ?)].
        -- split; [done|]. by intros [|(_ & ? & _)].
      * cbn. split; [done|].
        intros [|((? & [= <-] & ?) & _)]; congruence.
    + cbn. split; [done|]. by intros [|((? & ? & _) & _)].
Qed.

(** X28: the effort of [ensureContentScript] is bounded.  Whatever the tab
    answers, one call sends at most six pings and waits at most 6000 ms;
    when the opening ping is answered it does nothing more; and when the
    injection went through and the content script never answers, it sends
    all six pings and waits the full 6000 ms before it returns false. *)
Theorem content_script_check_is_bounded
    (tabId : nat) (first : Injector.Ping) (tab : Injector.TabInfo)
    (injects : bool) (pings : nat → Injector.Ping)
    (regs : Injector.Registers) :
  let o := Injector.ensureContentScript tabId first tab injects pings regs in
  (Injector.pings_sent (Injector.actions o) ≤ 6)%nat
  ∧ 0 ≤ Injector.waited (Injector.actions o) ≤ 6000
  ∧ (first = Injector.Pong → Injector.actions o = [Injector.SendPing])
  ∧ (first ≠ Injector.Pong →
     (∃ url, tab = Injector.TabFound url ∧ Injector.on_youtube url = true) →
     injects = true → Injector.ready o = false →
     Injector.pings_sent (Injector.actions o) = 6%nat
     ∧ Injector.waited (Injector.actions o) = 6000).
Proof.
  intros o. unfold o, Injector.ensureContentScript.
  pose proof (verify_effort tabId pings 0 5
                {| Injector.injectedTabs :=
                     Injector.injectedTabs regs ∖ {[tabId]};
                   Injector.contentScriptStatus :=
                     delete tabId (Injector.contentScriptStatus regs) |})
    as (Hp & Hw & Hfail).
  assert (∀ o' : Injector.Outcome,
            (∃ l, Injector.actions o'
                  = [Injector.SendPing; Injector.GetTab; Injector.Inject;
                     Injector.Delay 1000] ++ l
                  ∧ (Injector.pings_sent l ≤ 5)%nat
                  ∧ 0 ≤ Injector.waited l ≤ 5000
                  ∧ (Injector.ready o' = false →
                     Injector.pings_sent l = 5%nat
                     ∧ Injector.waited l = 5000)) →
            (Injector.pings_sent (Injector.actions o') ≤ 6)%nat
            ∧ 0 ≤ Injector.waited (Injector.actions o') ≤ 6000
            ∧ (Injector.ready o' = false →
               Injector.pings_sent (Injector.actions o') = 6%nat
               ∧ Injector.waited (Injector.actions o') = 6000)) as Hfull.
  { intros o' (l & -> & Hpl & Hwl & Hfl). cbn.
    fold (Injector.pings_sent l). fold (Injector.waited l).
    split; [lia|]. split; [lia|]. intros Hf. destruct (Hfl Hf). lia. }
  destruct first as [| |];
    [cbn; split; [lia|]; split; [lia|]; by split|..];
    (destruct tab as [|url];
     [cbn; split; [lia|]; split; [lia|]; split; [done|];
      by intros _ (? & ? & _)|]);
    (destruct (Injector.on_youtube url) eqn:Hurl; cbn [negb];
     [|cbn; split; [lia|]; split; [lia|]; split; [done|];
       intros _ (url' & [= <-] & Hurl'); congruence]);
    (destruct injects; cbn [negb];
     [|cbn; split; [lia|]; split; [lia|]; by split]);
    (destruct (Hfull
                 (Injector.after
                    [Injector.SendPing; Injector.GetTab; Injector.Inject;
                     Injector.Delay 1000]
                    (Injector.verify tabId pings 0 5
                       {| Injector.injectedTabs :=
                            Injector.injectedTabs regs ∖ {[tabId]};
                          Injector.contentScriptStatus :=
                            delete tabId (Injector.contentScriptStatus regs)
                       |}))) as (H1 & H2 & H3);
     [eexists; split; [reflexivity|]; split; [exact Hp|];
      split; [cbn in Hw |- *; lia|]; exact Hfail|]);
    (split; [exact H1|]; split; [exact H2|]; split; [done|];
     intros _ _ _ Hf; exact (H3 Hf)).
Qed.

Lemma content_script_check_is_bounded_witness :
  Injector.pings_sent
    (Injector.actions
       (Injector.ensureContentScript 7 Injector.Lost
          (Injector.TabFound (Some "https://www.youtube.com/watch?v=abc"))
          true (λ _, Injector.Silent)
          {| Injector.injectedTabs := ∅;
             Injector.contentScriptStatus := ∅ |})) = 6%nat.
Proof.
  assert (Injector.Lost ≠ Injector.Pong) as Hfirst by discriminate.
  pose proof (content_script_check_is_bounded 7 Injector.Lost
                (Injector.TabFound (Some "https://www.youtube.com/watch?v=abc"))
                true (λ _, Injector.Silent)
                {| Injector.injectedTabs := ∅;
                   Injector.contentScriptStatus := ∅ |})
    as (_ & _ & _ & Hfull).
  refine (proj1 (Hfull Hfirst _ eq_refl eq_refl)).
  eexists. split; reflexivity.
Defined.

(** X29: what [ensureContentScript] records.  When the opening ping is
    answered, the registers are left as they are.  Otherwise: a true result
    comes with the tab in [injectedTabs] and its status set to true; a
    false result after the YouTube check leaves the tab out of
    [injectedTabs] and without a status, whatever was recorded before; and
    the entries of every other tab are never touched. *)
Theorem content_script_registers
    (tabId : nat) (first : Injector.Ping) (tab : Injector.TabInfo)
    (injects : bool) (pings : nat → Injector.Ping)
    (regs : Injector.Registers) :
  let o := Injector.ensureContentScript tabId first tab injects pings regs in
  let after := Injector.registers o in
  (first = Injector.Pong → after = regs)
  ∧ (first ≠ Injector.Pong → Injector.ready o = true →
     tabId ∈ Injector.injectedTabs after
     ∧ Injector.contentScriptStatus after !! tabId = Some true)
  ∧ (first ≠ Injector.Pong →
     (∃ url, tab = Injector.TabFound url ∧ Injector.on_youtube url = true) →
     Injector.ready o = false →
     (tabId ∉ Injector.injectedTabs after)
     ∧ Injector.contentScriptStatus after !! tabId = None)
  ∧ (∀ other, other ≠ tabId →
       (other ∈ Injector.injectedTabs after
        ↔ other ∈ Injector.injectedTabs regs)
       ∧ Injector.contentScriptStatus after !! other
         = Injector.contentScriptStatus regs !! other).
Proof.
  intros o after. subst after o.
  assert (∀ url : option string,
            Injector.on_youtube url = false →
            ¬ ∃ url', Injector.TabFound url = Injector.TabFound url'
                      ∧ Injector.on_youtube url' = true) as Hoff.
  { intros url Hurl (url' & [= <-] & Hurl'). congruence. }
  set (cleared :=
         {| Injector.injectedTabs := Injector.injectedTabs regs ∖ {[tabId]};
            Injector.contentScriptStatus :=
              delete tabId (Injector.contentScriptStatus regs) |}).
  assert (∀ o' : Injector.Outcome,
            Injector.registers o'
            = (if Injector.ready o'
               then {| Injector.injectedTabs :=
                         {[tabId]} ∪ Injector.injectedTabs cleared;
                       Injector.contentScriptStatus :=
                         <[tabId := true]>
                           (Injector.contentScriptStatus cleared) |}
               else cleared) →
            (Injector.ready o' = true →
             tabId ∈ Injector.injectedTabs (Injector.registers o')
             ∧ Injector.contentScriptStatus (Injector.registers o') !! tabId
               = Some true)
            ∧ (Injector.ready o' = false →
               (tabId ∉ Injector.injectedTabs (Injector.registers o'))
               ∧ Injector.contentScriptStatus (Injector.registers o') !! tabId
                 = None)
            ∧ (∀ other, other ≠ tabId →
                 (other ∈ Injector.injectedTabs (Injector.registers o')
                  ↔ other ∈ Injector.injectedTabs regs)
                 ∧ Injector.contentScriptStatus (Injector.registers o')
                   !! other
                   = Injector.contentScriptStatus regs !! other)) as Hinjected.
  { intros o' ->. destruct (Injector.ready o');
      cbn [Injector.injectedTabs Injector.contentScriptStatus cleared].
    - split; [intros _; split|split; [done|]].
      + apply elem_of_union. left. by apply elem_of_singleton.
      + apply lookup_insert_eq.
      + intros other Hother. split.
        * rewrite elem_of_union, elem_of_difference, elem_of_singleton. tauto.
        * by rewrite lookup_insert_ne, lookup_delete_ne.
    - split; [done|]. split; [intros _; split|].
      + rewrite elem_of_difference, elem_of_singleton. tauto.
      + apply lookup_delete_eq.
      + intros other Hother. split.
        * rewrite elem_of_difference, elem_of_singleton. tauto.
        * by rewrite lookup_delete_ne. }
  unfold Injector.ensureContentScript. fold cleared.
  destruct first as [| |].
  - cbn. split; [done|]. split; [done|]. split; [done|]. done.
  - split; [done|]. destruct tab as [|url].
    + cbn. split; [done|]. split; [|done]. by intros _ (? & ? & _).
    + destruct (Injector.on_youtube url) eqn:Hurl; cbn [negb].
      * destruct injects; cbn [negb].
        -- destruct (Hinjected
                       (Injector.after
                          [Injector.SendPing; Injector.GetTab;
                           Injector.Inject; Injector.Delay 1000]
                          (Injector.verify tabId pings 0 5 cleared)))
             as (Hyes & Hnot & Hothers).
           { cbn [Injector.after Injector.registers Injector.ready].
             apply verify_registers. }
           split; [intros _; exact Hyes|].
           split; [intros _ _; exact Hnot|exact Hothers].
        -- destruct (Hinjected
                       {| Injector.ready := false;
                          Injector.registers := cleared;
                          Injector.actions :=
                            [Injector.SendPing; Injector.GetTab;
                             Injector.Inject] |})
             as (Hyes & Hnot & Hothers); [done|].
           split; [intros _; exact Hyes|].
           split; [intros _ _; exact Hnot|exact Hothers].
      * cbn. split; [done|]. split; [|done].
        intros _ Hex. by destruct (Hoff url Hurl).
  - split; [done|]. destruct tab as [|url].
    + cbn. split; [done|]. split; [|done]. by intros _ (? & ? & _).
    + destruct (Injector.on_youtube url) eqn:Hurl; cbn [negb].
      * destruct injects; cbn [negb].
        -- destruct (Hinjected
                       (Injector.after
                          [Injector.SendPing; Injector.GetTab;
                           Injector.Inject; Injector.Delay 1000]
                          (Injector.verify tabId pings 0 5 cleared)))
             as (Hyes & Hnot & Hothers).
           { cbn [Injector.after Injector.registers Injector.ready].
             apply verify_registers. }
           split; [intros _; exact Hyes|].
           split; [intros _ _; exact Hnot|exact Hothers].
        -- destruct (Hinjected
                       {| Injector.ready := false;
                          Injector.registers := cleared;
                          Injector.actions :=
                            [Injector.SendPing; Injector.GetTab;
                             Injector.Inject] |})
             as (Hyes & Hnot & Hothers); [done|].
           split; [intros _; exact Hyes|].
           split; [intros _ _; exact Hnot|exact Hothers].
      * cbn. split; [done|]. split; [|done].
        intros _ Hex. by destruct (Hoff url Hurl).
Qed.

Lemma content_script_registers_witness :
  let after :=
    Injector.registers
      (Injector.ensureContentScript 7 Injector.Silent
         (Injector.TabFound (Some "https://www.youtube.com/watch?v=abc"))
         true (λ _, Injector.Lost)
         {| Injector.injectedTabs := {[7%nat]};
            Injector.contentScriptStatus := {[7%nat := true]} |}) in
  (7%nat ∉ Injector.injectedTabs after)
  ∧ Injector.contentScriptStatus after !! 7%nat = None.
Proof.
  assert (Injector.Silent ≠ Injector.Pong) as Hfirst by discriminate.
  pose proof (content_script_registers 7 Injector.Silent
                (Injector.TabFound (Some "https://www.youtube.com/watch?v=abc"))
                true (λ _, Injector.Lost)
                {| Injector.injectedTabs := {[7%nat]};
                   Injector.contentScriptStatus := {[7%nat := true]} |})
    as (_ & _ & Hcleared & _).
  refine (Hcleared Hfirst _ eq_refl).
  eexists. split; reflexivity.
Defined.

(** ** Setting the API key *)

Section ApiKeyFacts.

Lemma kept_nothing (summarizer : nat → Pipeline.Call → option string)
    (offset : nat) (chunks : list string) :
  (∀ n call, summarizer n call = None) →
  Steps.kept (Steps.chunk_answers summarizer offset chunks) = [].
Proof.
  intros Hnone. unfold Steps.kept, Steps.chunk_answers.
  revert offset. induction chunks as [|chunk chunks IH]; intros offset.
  - done.
  - rewrite imap_cons. cbn [omap]. rewrite Hnone. cbn.
    rewrite <- (IH (S offset)). f_equal. apply imap_ext.
    intros i c _. cbn. by rewrite Nat.add_succ_r.
Qed.

Lemma summarizer_without_model (key : string)
    (servers : nat → nat → Gemini.FetchOutcome) (n : nat)
    (call : Pipeline.Call) :
  ApiKey.summarizer_of {| ApiKey.apiKey := Some key; ApiKey.model := None |}
    servers n call = None.
Proof. reflexivity. Qed.

End ApiKeyFacts.

(** X30: an API key whose model discovery fails is stored all the same.
    When [findAndSetModel] throws, [handleSetApiKey] answers with that
    error, but the key is already in [chrome.storage.sync] and on the
    client, and the client's model is null.  A later [summarize] therefore
    passes the key check, sends no request for any chunk, and fails with
    "Failed to generate any valid summaries" after one call of
    [summarizeChunkWithRetry] per chunk. *)
Theorem key_is_stored_when_model_discovery_fails
    (key : string) (listing : Models.Listing) (message : string)
    (servers : nat → nat → Gemini.FetchOutcome)
    (videoId transcript : string)
    (keyPointsReply topicsReply : Gemini.FetchOutcome) (now_id now_stamp : Z) :
  key ≠ "" →
  Models.findAndSetModel listing = Models.Failed message →
  let settled := ApiKey.handleSetApiKey key listing in
  ApiKey.response settled = Types.fail message
  ∧ ApiKey.geminiApiKey settled = Some key
  ∧ ApiKey.client settled
    = {| ApiKey.apiKey := Some key; ApiKey.model := None |}
  ∧ (∀ n, ApiKey.requests_of (ApiKey.client settled) servers n = [])
  ∧ Pipeline.summarize (ApiKey.summarizer_of (ApiKey.client settled) servers)
      (ApiKey.apiKey (ApiKey.client settled)) videoId transcript
      keyPointsReply topicsReply now_id now_stamp
    = {| Pipeline.response :=
           Types.fail "Failed to generate any valid summaries";
         Pipeline.calls :=
           Steps.chunk_call <$> Steps.chunks_of transcript |}.
Proof.
  intros Hkey Hfailed settled. subst settled.
  unfold ApiKey.handleSetApiKey, ApiKey.initialize. rewrite Hfailed.
  cbn [fst snd ApiKey.response ApiKey.geminiApiKey ApiKey.client
       ApiKey.apiKey].
  split; [done|]. split; [done|]. split; [done|]. split; [done|].
  rewrite summarize_resolved by done. cbn zeta.
  rewrite kept_nothing; [done|].
  intros n call. apply summarizer_without_model.
Qed.

Lemma key_is_stored_when_model_discovery_fails_witness :
  ApiKey.geminiApiKey
    (ApiKey.handleSetApiKey "AIza-key"
       (Models.Refused 403 (Models.Json (Some "API key not valid")) "Forbidden"))
  = Some "AIza-key".
Proof.
  assert ("AIza-key" ≠ "") as Hkey by discriminate.
  pose proof (key_is_stored_when_model_discovery_fails "AIza-key"
                (Models.Refused 403 (Models.Json (Some "API key not valid"))
                   "Forbidden")
                "Failed to list models: API key not valid"
                (λ _ _, Gemini.NetworkFailure "offline") "abc" "hello world"
                (Gemini.NetworkFailure "offline")
                (Gemini.NetworkFailure "offline") 0 0
                Hkey eq_refl)
    as (_ & Hstored & _).
  exact Hstored.
Defined.
